(** * Kratos orchestration scripts: the FETI dynamic coupler and the fluid RVE
      periodicity set-up

    Shallow embedding of

    - [coupled_solvers/feti_dynamic_coupled_solver.py]
      (class [FetiDynamicCoupledSolver]), in [Module Feti];
    - [fluid_rve_analysis.py] (class [FluidRVEAnalysis]), in [Module Rve].

    Conventions of the embedding.

    - A Python [float] is an exact rational ([Q]); comparisons are the
      rational ones.  Rounding, infinities and NaN are outside the model.
    - A Python method is a function in the monad [M W], which threads a world
      [W] (the object's attributes together with the state of the native
      Kratos objects it talks to) and may end in [Raise msg], the embedding of
      a Python exception.  The world reached when an exception is raised is
      kept, as the side effects of a Python method are.
    - The native collaborators (solver wrappers, the FETI coupling utility,
      the RVE periodicity utility) are not part of these scripts.  They are
      taken as an interface of state transformers over an abstract state, so
      every statement holds for whatever the native code does. *)

From Stdlib Require Import QArith Qabs ZArith Lia.
From stdpp Require Import base option list strings gmap pretty.

Local Open Scope string_scope.
Local Open Scope list_scope.
Local Open Scope Z_scope.

#[local] Set Warnings "-clear-no-such-hyp".

(** ** Outcomes of a Python call and the state-and-exception monad *)

Inductive outcome (A : Type) : Type :=
| Ok (a : A)
| Raise (msg : string).
Arguments Ok {A} a.
Arguments Raise {A} msg.

Definition M (W A : Type) : Type := W → outcome A * W.

Definition ret {W A} (a : A) : M W A := λ w, (Ok a, w).

Definition bind {W A B} (m : M W A) (k : A → M W B) : M W B :=
  λ w, match m w with
       | (Ok a, w') => k a w'
       | (Raise msg, w') => (Raise msg, w')
       end.

Definition raise {W A} (msg : string) : M W A := λ w, (Raise msg, w).

Definition get {W} : M W W := λ w, (Ok w, w).

Definition modify {W} (f : W → W) : M W unit := λ w, (Ok tt, f w).

Declare Scope py_scope.
Delimit Scope py_scope with py.
Notation "'do' x <- c ; k" := (bind c (λ x, k))
  (at level 10, x name, c at level 100, k at level 200) : py_scope.
Notation "'run' c ; k" := (bind c (λ _, k))
  (at level 10, c at level 100, k at level 200) : py_scope.

(** [for x in l: body x] *)
Fixpoint for_each {W A} (l : list A) (body : A → M W unit) : M W unit :=
  match l with
  | [] => ret tt
  | x :: l' => bind (body x) (λ _, for_each l' body)
  end.

(** [if c: body] with no [else]. *)
Definition when {W} (c : bool) (body : M W unit) : M W unit :=
  if c then body else ret tt.

(** [l[i]] on a Python list: [IndexError] out of range. *)
Definition index {W A} (l : list A) (i : nat) : M W A :=
  match l !! i with
  | Some a => ret a
  | None => raise "IndexError: list index out of range"
  end.

(** [self.name] for an attribute that is only created by a later method:
    [AttributeError] while it is absent. *)
Definition attr {W A} (name : string) (field : W → option A) : M W A :=
  λ w, match field w with
       | Some a => (Ok a, w)
       | None => (Raise ("AttributeError: " +:+ name), w)
       end.

(** [range(lo, hi)] *)
Definition range (lo hi : Z) : list Z := seqZ lo (hi - lo).

(** ** Reasoning about runs that return

    [wp m Φ w]: if [m], started in [w], returns [a] in world [w'], then
    [Φ a w'].  Nothing is said of a run that raises. *)

Definition wp {W A} (m : M W A) (Φ : A → W → Prop) (w : W) : Prop :=
  match m w with
  | (Ok a, w') => Φ a w'
  | (Raise _, _) => True
  end.

Lemma wp_elim {W A} (m : M W A) Φ w a w' :
  wp m Φ w → m w = (Ok a, w') → Φ a w'.
Proof. unfold wp. intros H Hrun. by rewrite Hrun in H. Qed.

Lemma wp_intro {W A} (m : M W A) (Φ : A → W → Prop) w :
  (∀ a w', m w = (Ok a, w') → Φ a w') → wp m Φ w.
Proof. unfold wp. destruct (m w) as [[a|msg] w']; auto. Qed.

Lemma wp_mono {W A} (m : M W A) (Φ Ψ : A → W → Prop) w :
  wp m Φ w → (∀ a w', Φ a w' → Ψ a w') → wp m Ψ w.
Proof. unfold wp. destruct (m w) as [[a|msg] w']; auto. Qed.

Lemma wp_ret {W A} (a : A) (Φ : A → W → Prop) w : Φ a w → wp (ret a) Φ w.
Proof. done. Qed.

Lemma wp_raise {W A} msg (Φ : A → W → Prop) w : wp (raise msg) Φ w.
Proof. done. Qed.

Lemma wp_bind {W A B} (m : M W A) (k : A → M W B) (Φ : B → W → Prop) w :
  wp m (λ a w', wp (k a) Φ w') w → wp (bind m k) Φ w.
Proof. unfold wp, bind. by destruct (m w) as [[a|msg] w']. Qed.

Lemma wp_get {W} (Φ : W → W → Prop) w : Φ w w → wp get Φ w.
Proof. done. Qed.

Lemma wp_modify {W} (f : W → W) (Φ : unit → W → Prop) w :
  Φ tt (f w) → wp (modify f) Φ w.
Proof. done. Qed.

Lemma wp_when {W} (c : bool) (m : M W unit) (Φ : unit → W → Prop) w :
  (c = true → wp m Φ w) → (c = false → Φ tt w) → wp (when c m) Φ w.
Proof. intros Ht Hf. destruct c; simpl; [by apply Ht | by apply Hf]. Qed.

Lemma wp_index {W A} (l : list A) i (Φ : A → W → Prop) w :
  (∀ a, l !! i = Some a → Φ a w) → wp (index l i) Φ w.
Proof. unfold wp, index. destruct (l !! i); simpl; auto. Qed.

Lemma wp_attr {W A} name (f : W → option A) (Φ : A → W → Prop) w :
  (∀ a, f w = Some a → Φ a w) → wp (attr name f) Φ w.
Proof. unfold wp, attr. destruct (f w); auto. Qed.

(** Turn a goal [m w = (Ok r, w') → P r w'] into [wp m P w]. *)
Ltac by_wp :=
  let H := fresh "Hrun" in
  intros H;
  match type of H with
  | _ = (Ok ?r, ?w') => pattern r, w'; revert H; apply wp_elim
  end.

(** A loop with an invariant on what is left to traverse. *)
Lemma wp_for_each {W A} (Inv : list A → W → Prop) (l : list A)
    (body : A → M W unit) w :
  Inv l w →
  (∀ x rest w1, Inv (x :: rest) w1 → wp (body x) (λ _ w2, Inv rest w2) w1) →
  wp (for_each l body) (λ _ w', Inv [] w') w.
Proof.
  intros HI Hbody. revert w HI. induction l as [|x l IH]; intros w HI.
  - by apply wp_ret.
  - simpl. apply wp_bind. eapply wp_mono; [by apply Hbody|].
    intros ? w1 H1. by apply IH.
Qed.

(** [for x in l: ...] whose body updates a local variable [acc]. *)
Fixpoint for_fold {W A B} (l : list A) (acc : B) (body : B → A → M W B)
  : M W B :=
  match l with
  | [] => ret acc
  | x :: l' => bind (body acc x) (λ acc', for_fold l' acc' body)
  end.

Lemma wp_for_fold {W A B} (Inv : list A → B → W → Prop) (l : list A)
    (acc : B) (body : B → A → M W B) w :
  Inv l acc w →
  (∀ x rest acc1 w1, Inv (x :: rest) acc1 w1 →
     wp (body acc1 x) (λ acc2 w2, Inv rest acc2 w2) w1) →
  wp (for_fold l acc body) (λ acc' w', Inv [] acc' w') w.
Proof.
  intros HI Hbody. revert acc w HI.
  induction l as [|x l IH]; intros acc w HI.
  - by apply wp_ret.
  - simpl. apply wp_bind. eapply wp_mono; [by apply Hbody|].
    intros acc1 w1 H1. by apply IH.
Qed.

(** [keeps R m]: whatever its outcome, [m] leaves a world related by [R] to
    the one it started in. *)
Definition keeps {W A} (R : W → W → Prop) (m : M W A) : Prop :=
  ∀ w r w', m w = (r, w') → R w w'.

Section Keeps.
Context {W : Type} (R : W → W → Prop) `{!Reflexive R, !Transitive R}.

Lemma keeps_ret {A} (a : A) : keeps R (ret a).
Proof. by intros w r w' [= <- <-]. Qed.

Lemma keeps_raise {A} msg : keeps R (raise (A := A) msg).
Proof. by intros w r w' [= <- <-]. Qed.

Lemma keeps_get : keeps R get.
Proof. by intros w r w' [= <- <-]. Qed.

Lemma keeps_bind {A B} (m : M W A) (k : A → M W B) :
  keeps R m → (∀ a, keeps R (k a)) → keeps R (bind m k).
Proof.
  intros Hm Hk w r w'. unfold bind.
  destruct (m w) as [[a|msg] w1] eqn:Em.
  - intros Ek. etrans; [by eapply Hm | by eapply Hk].
  - intros [= <- <-]. by eapply Hm.
Qed.

Lemma keeps_modify (f : W → W) : (∀ w, R w (f w)) → keeps R (modify f).
Proof. intros Hf w r w' [= <- <-]. apply Hf. Qed.

Lemma keeps_when (c : bool) (m : M W unit) : keeps R m → keeps R (when c m).
Proof. intros Hm. destruct c; [done|apply keeps_ret]. Qed.

Lemma keeps_index {A} (l : list A) i : keeps R (index l i).
Proof. unfold index. destruct (l !! i); [apply keeps_ret|apply keeps_raise]. Qed.

Lemma keeps_attr {A} name (f : W → option A) : keeps R (attr name f).
Proof. intros w r w'. unfold attr. by destruct (f w); intros [= <- <-]. Qed.

Lemma keeps_for_each {A} (l : list A) (body : A → M W unit) :
  (∀ x, keeps R (body x)) → keeps R (for_each l body).
Proof.
  intros Hbody. induction l as [|x l IH]; simpl.
  - apply keeps_ret.
  - by apply keeps_bind.
Qed.

Lemma keeps_for_fold {A B} (l : list A) (acc : B) (body : B → A → M W B) :
  (∀ acc x, keeps R (body acc x)) → keeps R (for_fold l acc body).
Proof.
  intros Hbody. revert acc. induction l as [|x l IH]; intros acc; simpl.
  - apply keeps_ret.
  - by apply keeps_bind.
Qed.

End Keeps.

(** ** Python floats as rationals *)

Definition Qltb (x y : Q) : bool := negb (Qle_bool y x).

(** [int(x)] of a float: truncation toward zero. *)
Definition py_int (x : Q) : Z := Z.quot (Qnum x) (Z.pos (Qden x)).

(** [min(a, b)] and [max(a, b)] of the Python builtins: the first argument
    is kept unless the second is strictly smaller (larger). *)
Definition py_min (a b : Q) : Q := if Qltb b a then b else a.
Definition py_max (a b : Q) : Q := if Qltb a b then b else a.

Lemma Qltb_lt (x y : Q) : Qltb x y = true ↔ (x < y)%Q.
Proof.
  unfold Qltb. rewrite negb_true_iff, <- not_true_iff_false, Qle_bool_iff.
  split; [apply Qnot_le_lt | apply Qlt_not_le].
Qed.

Lemma Qltb_ge (x y : Q) : Qltb x y = false ↔ (y <= x)%Q.
Proof. unfold Qltb. by rewrite negb_false_iff, Qle_bool_iff. Qed.

Lemma py_min_le_l (a b : Q) : (py_min a b <= a)%Q.
Proof.
  unfold py_min. destruct (Qltb b a) eqn:H.
  - by apply Qlt_le_weak, Qltb_lt.
  - apply Qle_refl.
Qed.

Lemma py_min_le_r (a b : Q) : (py_min a b <= b)%Q.
Proof.
  unfold py_min. destruct (Qltb b a) eqn:H.
  - apply Qle_refl.
  - by apply Qltb_ge.
Qed.

Lemma py_max_ge_l (a b : Q) : (a <= py_max a b)%Q.
Proof.
  unfold py_max. destruct (Qltb a b) eqn:H.
  - by apply Qlt_le_weak, Qltb_lt.
  - apply Qle_refl.
Qed.

Lemma py_max_ge_r (a b : Q) : (b <= py_max a b)%Q.
Proof.
  unfold py_max. destruct (Qltb a b) eqn:H.
  - apply Qle_refl.
  - by apply Qltb_ge.
Qed.

(** ** Reasoning about every outcome

    [wpx m Φ Ψ w]: if [m], started in [w], returns [a] in world [w'] then
    [Φ a w'], and if it raises [msg] in world [w'] then [Ψ msg w']. *)

Definition wpx {W A} (m : M W A) (Φ : A → W → Prop) (Ψ : string → W → Prop)
    (w : W) : Prop :=
  match m w with
  | (Ok a, w') => Φ a w'
  | (Raise msg, w') => Ψ msg w'
  end.

Lemma wpx_elim {W A} (m : M W A) Φ Ψ w r w' :
  wpx m Φ Ψ w → m w = (r, w') →
  match r with Ok a => Φ a w' | Raise msg => Ψ msg w' end.
Proof. unfold wpx. intros H Hrun. by rewrite Hrun in H. Qed.

(** With no exceptional outcome allowed, the run returns. *)
Lemma wpx_returns {W A} (m : M W A) Φ w :
  wpx m Φ (λ _ _, False) w → ∃ a w', m w = (Ok a, w') ∧ Φ a w'.
Proof. unfold wpx. destruct (m w) as [[a|msg] w']; [eauto|done]. Qed.

Lemma wpx_mono {W A} (m : M W A) (Φ Φ' : A → W → Prop)
    (Ψ Ψ' : string → W → Prop) w :
  wpx m Φ Ψ w → (∀ a w', Φ a w' → Φ' a w') →
  (∀ msg w', Ψ msg w' → Ψ' msg w') → wpx m Φ' Ψ' w.
Proof. unfold wpx. destruct (m w) as [[a|msg] w']; auto. Qed.

Lemma wpx_ret {W A} (a : A) (Φ : A → W → Prop) Ψ w :
  Φ a w → wpx (ret a) Φ Ψ w.
Proof. done. Qed.

Lemma wpx_raise {W A} msg (Φ : A → W → Prop) (Ψ : string → W → Prop) w :
  Ψ msg w → wpx (raise msg) Φ Ψ w.
Proof. done. Qed.

Lemma wpx_bind {W A B} (m : M W A) (k : A → M W B) (Φ : B → W → Prop) Ψ w :
  wpx m (λ a w', wpx (k a) Φ Ψ w') Ψ w → wpx (bind m k) Φ Ψ w.
Proof. unfold wpx, bind. by destruct (m w) as [[a|msg] w']. Qed.

Lemma wpx_get {W} (Φ : W → W → Prop) Ψ w : Φ w w → wpx get Φ Ψ w.
Proof. done. Qed.

Lemma wpx_modify {W} (f : W → W) (Φ : unit → W → Prop) Ψ w :
  Φ tt (f w) → wpx (modify f) Φ Ψ w.
Proof. done. Qed.

Lemma wpx_when {W} (c : bool) (m : M W unit) (Φ : unit → W → Prop) Ψ w :
  (c = true → wpx m Φ Ψ w) → (c = false → Φ tt w) → wpx (when c m) Φ Ψ w.
Proof. intros Ht Hf. destruct c; simpl; [by apply Ht | by apply Hf]. Qed.

Lemma wpx_index {W A} (l : list A) i (Φ : A → W → Prop)
    (Ψ : string → W → Prop) w :
  (∀ a, l !! i = Some a → Φ a w) →
  (l !! i = None → Ψ "IndexError: list index out of range" w) →
  wpx (index l i) Φ Ψ w.
Proof. unfold wpx, index. destruct (l !! i); simpl; auto. Qed.

Lemma wpx_attr {W A} name (f : W → option A) (Φ : A → W → Prop)
    (Ψ : string → W → Prop) w :
  (∀ a, f w = Some a → Φ a w) →
  (f w = None → Ψ ("AttributeError: " +:+ name) w) →
  wpx (attr name f) Φ Ψ w.
Proof. unfold wpx, attr. destruct (f w); auto. Qed.

Lemma wpx_for_each {W A} (Inv : list A → W → Prop) (Ψ : string → W → Prop)
    (l : list A) (body : A → M W unit) w :
  Inv l w →
  (∀ x rest w1, Inv (x :: rest) w1 →
     wpx (body x) (λ _ w2, Inv rest w2) Ψ w1) →
  wpx (for_each l body) (λ _ w', Inv [] w') Ψ w.
Proof.
  intros HI Hbody. revert w HI. induction l as [|x l IH]; intros w HI.
  - by apply wpx_ret.
  - simpl. apply wpx_bind. eapply wpx_mono; [by apply Hbody| |done].
    intros ? w1 H1. by apply IH.
Qed.

Lemma wpx_for_fold {W A B} (Inv : list A → B → W → Prop)
    (Ψ : string → W → Prop) (l : list A) (acc : B) (body : B → A → M W B) w :
  Inv l acc w →
  (∀ x rest acc1 w1, Inv (x :: rest) acc1 w1 →
     wpx (body acc1 x) (λ acc2 w2, Inv rest acc2 w2) Ψ w1) →
  wpx (for_fold l acc body) (λ acc' w', Inv [] acc' w') Ψ w.
Proof.
  intros HI Hbody. revert acc w HI.
  induction l as [|x l IH]; intros acc w HI.
  - by apply wpx_ret.
  - simpl. apply wpx_bind. eapply wpx_mono; [by apply Hbody| |done].
    intros acc1 w1 H1. by apply IH.
Qed.

(** Counting in a list that ends with [n] copies of a block. *)
Lemma length_filter_replicated {A} (P : A → Prop) `{!∀ x, Decision (P x)}
    (pre block : list A) (n a b : nat) :
  length (filter P pre) = a → length (filter P block) = b →
  length (filter P (pre ++ concat (replicate n block))) = (a + n * b)%nat.
Proof.
  intros <- <-. rewrite filter_app, length_app. f_equal.
  induction n as [|n IH]; [done|].
  simpl. rewrite filter_app, length_app, IH. lia.
Qed.

Lemma last_replicated {A} (pre block : list A) (n : nat) (x : A) :
  last pre = Some x → last block = Some x →
  last (pre ++ concat (replicate n block)) = Some x.
Proof.
  intros Hpre Hblock. induction n as [|n IH].
  - simpl. by rewrite app_nil_r.
  - rewrite replicate_S_end, concat_app. simpl. rewrite app_nil_r, app_assoc.
    destruct block as [|y block _] using rev_ind; [done|].
    rewrite app_assoc, last_snoc. by rewrite last_snoc in Hblock.
Qed.

(** * The FETI dynamic coupled solver *)

Module Feti.

(** ** Calls into native code

    The log of a run lists the calls the coupler makes on its collaborators,
    in the order it makes them.  A solver wrapper and an output wrapper are
    named by the position the source indexes them with
    ([self.solver_wrappers_vector[1]], [self.vtk_output_wrappers_vector[1]]). *)

Inductive SolverMethod : Type :=
| mAddNodalSolutionStepVariable
| mAdvanceInTime
| mInitializeSolutionStep
| mPredict
| mSolveSolutionStep
| mFinalizeSolutionStep
| mOutputSolutionStep
| mGetSystemMatrix.

Inductive FetiMethod : Type :=
| mCreateMapper
| mFetiDynamicCouplingUtilities
| mSetOriginAndDestinationDomainsWithInterfaceModelParts
| mCreateLinearSolver
| mSetLinearSolver
| mSetMappingMatrix
| mSetOriginInitialKinematics
| mSetEffectiveStiffnessMatrixImplicit (solverIndex : nat)
| mSetEffectiveStiffnessMatrixExplicit (solverIndex : nat)
| mEquilibrateDomains.

Inductive Event : Type :=
| BaseCall (name : string)
| SolverCall (i : nat) (m : SolverMethod)
| FetiCall (m : FetiMethod)
| VtkCall (i : nat) (m : SolverMethod).

Global Instance SolverMethod_eq_dec : EqDecision SolverMethod.
Proof. solve_decision. Defined.
Global Instance FetiMethod_eq_dec : EqDecision FetiMethod.
Proof. solve_decision. Defined.
Global Instance Event_eq_dec : EqDecision Event.
Proof. solve_decision. Defined.

(** The native collaborators: [E] is the state of everything behind the
    Python wrappers, [Matrix] the type of a system matrix.  Objects are named
    by handles ([nat]).  Every call may change [E] and may raise. *)
Class Kratos (E Matrix : Type) : Type := {
  (* CoSimulationCoupledSolver, the base class *)
  base___init__ : E → outcome unit * E;
  base_InitializeSolutionStep : E → outcome unit * E;
  (* solver wrappers *)
  solver_AddNodalSolutionStepVariable : nat → E → outcome unit * E;
  solver_AdvanceInTime : nat → Q → E → outcome Q * E;
  solver_InitializeSolutionStep : nat → E → outcome unit * E;
  solver_Predict : nat → E → outcome unit * E;
  solver_SolveSolutionStep : nat → E → outcome bool * E;
  solver_FinalizeSolutionStep : nat → E → outcome unit * E;
  solver_OutputSolutionStep : nat → E → outcome unit * E;
  solver__ClassName : nat → E → string;
  strategy_GetSystemMatrix : nat → E → outcome Matrix * E;
  (* mapper, linear solver and FETI coupling utility *)
  mapper_Create : E → outcome unit * E;
  linear_solver_Create : bool → E → outcome unit * E;
  feti_Create : E → outcome nat * E;
  feti_SetOriginAndDestinationDomainsWithInterfaceModelParts :
    nat → E → outcome unit * E;
  feti_SetLinearSolver : nat → E → outcome unit * E;
  feti_SetMappingMatrix : nat → E → outcome unit * E;
  feti_SetOriginInitialKinematics : nat → E → outcome unit * E;
  feti_SetEffectiveStiffnessMatrixImplicit :
    nat → Matrix → nat → E → outcome unit * E;
  feti_SetEffectiveStiffnessMatrixExplicit : nat → nat → E → outcome unit * E;
  feti_EquilibrateDomains : nat → E → outcome unit * E;
  (* coupling operations kept as output wrappers *)
  vtk_InitializeSolutionStep : nat → E → outcome unit * E;
  vtk_FinalizeSolutionStep : nat → E → outcome unit * E;
}.

(** ** Configuration and attributes *)

(** The entries of the parameters file the coupler reads. *)
Record Settings : Type := {
  s_origin_newmark_beta : Q;
  s_destination_newmark_beta : Q;
  s_timestep_ratio : Q;
  s_linear_solver_has_solver_type : bool;
  s_mapper_type : string;
}.

(** [_GetDefaultParameters]; [mapper_type] belongs to the data transfer
    operator and has no default here. *)
Definition _GetDefaultParameters (mapper_type : string) : Settings := {|
  s_origin_newmark_beta := -1;
  s_destination_newmark_beta := -1;
  s_timestep_ratio := 1;
  s_linear_solver_has_solver_type := false;
  s_mapper_type := mapper_type;
|}.

(** The attributes of a [FetiDynamicCoupledSolver].  Those created after
    [__init__] are optional: reading one before it exists raises. *)
Record Coupler : Type := {
  settings : Settings;
  solver_wrappers : list (string * nat);
  coupling_operations : list nat;
  solver_wrappers_vector : list nat;
  timestep_ratio : Z;
  is_initialized : bool;
  time : option Q;
  solverB_time : option Q;
  is_implicit : option (list bool);
  feti_coupling : option nat;
  vtk_output_wrappers_vector : option (list nat);
}.

Definition set_time (t : Q) (c : Coupler) : Coupler :=
  {| settings := settings c; solver_wrappers := solver_wrappers c;
     coupling_operations := coupling_operations c;
     solver_wrappers_vector := solver_wrappers_vector c;
     timestep_ratio := timestep_ratio c; is_initialized := is_initialized c;
     time := Some t; solverB_time := solverB_time c;
     is_implicit := is_implicit c; feti_coupling := feti_coupling c;
     vtk_output_wrappers_vector := vtk_output_wrappers_vector c |}.

Definition set_solverB_time (t : Q) (c : Coupler) : Coupler :=
  {| settings := settings c; solver_wrappers := solver_wrappers c;
     coupling_operations := coupling_operations c;
     solver_wrappers_vector := solver_wrappers_vector c;
     timestep_ratio := timestep_ratio c; is_initialized := is_initialized c;
     time := time c; solverB_time := Some t;
     is_implicit := is_implicit c; feti_coupling := feti_coupling c;
     vtk_output_wrappers_vector := vtk_output_wrappers_vector c |}.

Definition set_is_implicit (l : list bool) (c : Coupler) : Coupler :=
  {| settings := settings c; solver_wrappers := solver_wrappers c;
     coupling_operations := coupling_operations c;
     solver_wrappers_vector := solver_wrappers_vector c;
     timestep_ratio := timestep_ratio c; is_initialized := is_initialized c;
     time := time c; solverB_time := solverB_time c;
     is_implicit := Some l; feti_coupling := feti_coupling c;
     vtk_output_wrappers_vector := vtk_output_wrappers_vector c |}.

Definition set_feti_coupling (u : nat) (c : Coupler) : Coupler :=
  {| settings := settings c; solver_wrappers := solver_wrappers c;
     coupling_operations := coupling_operations c;
     solver_wrappers_vector := solver_wrappers_vector c;
     timestep_ratio := timestep_ratio c; is_initialized := is_initialized c;
     time := time c; solverB_time := solverB_time c;
     is_implicit := is_implicit c; feti_coupling := Some u;
     vtk_output_wrappers_vector := vtk_output_wrappers_vector c |}.

Definition set_vtk_output_wrappers_vector (l : list nat) (c : Coupler)
  : Coupler :=
  {| settings := settings c; solver_wrappers := solver_wrappers c;
     coupling_operations := coupling_operations c;
     solver_wrappers_vector := solver_wrappers_vector c;
     timestep_ratio := timestep_ratio c; is_initialized := is_initialized c;
     time := time c; solverB_time := solverB_time c;
     is_implicit := is_implicit c; feti_coupling := feti_coupling c;
     vtk_output_wrappers_vector := Some l |}.

Definition set_is_initialized (b : bool) (c : Coupler) : Coupler :=
  {| settings := settings c; solver_wrappers := solver_wrappers c;
     coupling_operations := coupling_operations c;
     solver_wrappers_vector := solver_wrappers_vector c;
     timestep_ratio := timestep_ratio c; is_initialized := b;
     time := time c; solverB_time := solverB_time c;
     is_implicit := is_implicit c; feti_coupling := feti_coupling c;
     vtk_output_wrappers_vector := vtk_output_wrappers_vector c |}.

(** ** The methods of [FetiDynamicCoupledSolver] *)

Section Methods.
Context {E Matrix : Type} {K : Kratos E Matrix}.

(** What lies outside the coupler object: the native state and the log. *)
Definition Outside : Type := (E * list Event)%type.

(** The world a method runs in. *)
Record World : Type := {
  self : Coupler;
  env : E;
  log : list Event;
}.

(** A native call: log it, run it on the native state. *)
Definition ext0 {A} (ev : Event) (op : E → outcome A * E) : M Outside A :=
  λ o, let '(r, e') := op (fst o) in (r, (e', snd o ++ [ev])).

Definition ext {A} (ev : Event) (op : E → outcome A * E) : M World A :=
  λ w, let '(r, e') := op (env w) in
       (r, {| self := self w; env := e'; log := log w ++ [ev] |}).

(** [self.x = v] *)
Definition assign (f : Coupler → Coupler) : M World unit :=
  modify (λ w, {| self := f (self w); env := env w; log := log w |}).

Definition field {A} (f : Coupler → A) : M World A :=
  λ w, (Ok (f (self w)), w).

Definition self_attr {A} (name : string) (f : Coupler → option A)
  : M World A :=
  attr name (λ w, f (self w)).

Local Open Scope py_scope.

(** The check of [timestep_ratio] in [__init__] (lines 28-31). *)
Definition check_timestep_ratio {W} (ratio : Q) : M W Z :=
  if negb (Qeq_bool (inject_Z (py_int ratio)) ratio)
  then raise "An integer timestep_ratio must be specified in the CoSim parameters file."
  else ret (py_int ratio).

(** [__init__]: the object under construction exists only if no exception
    is raised, so the constructor returns it. *)
(** Lines 18-25 of [__init__]: the base class constructor, then the loop
    that collects the solver wrappers and adds the Lagrange multiplier
    variable to the structure of each. *)
Definition collect_solver_wrappers (wrappers : list (string * nat))
  : M Outside unit :=
  run ext0 (BaseCall "__init__") base___init__;
  for_each (imap (λ i x, (i, snd x)) wrappers) (λ x,
    ext0 (SolverCall (fst x) mAddNodalSolutionStepVariable)
         (solver_AddNodalSolutionStepVariable (snd x))).

Definition __init__ (st : Settings) (wrappers : list (string * nat))
    (operations : list nat) : M Outside Coupler :=
  run collect_solver_wrappers wrappers;
  do ratio <- check_timestep_ratio (s_timestep_ratio st);
  ret {| settings := st; solver_wrappers := wrappers;
         coupling_operations := operations;
         solver_wrappers_vector := snd <$> wrappers;
         timestep_ratio := ratio; is_initialized := false;
         time := None; solverB_time := None; is_implicit := None;
         feti_coupling := None; vtk_output_wrappers_vector := None |}.

(** [AdvanceInTime] (lines 36-48). *)
Definition AdvanceInTime (current_time : Q) : M World Q :=
  run assign (set_time 0);
  do vec <- field solver_wrappers_vector;
  do solverB <- index vec 1%nat;
  do tB <- ext (SolverCall 1 mAdvanceInTime)
               (solver_AdvanceInTime solverB current_time);
  run assign (set_solverB_time tB);
  do vec <- field solver_wrappers_vector;
  do solverA <- index vec 0%nat;
  do solver_time <- ext (SolverCall 0 mAdvanceInTime)
                        (solver_AdvanceInTime solverA current_time);
  run when (negb (Qeq_bool solver_time 0))
        (do t <- self_attr "time" time;
         when (Qeq_bool t 0) (assign (set_time solver_time)));
  self_attr "time" time.

(** [_CreateLinearSolver] (lines 158-164). *)
Definition _CreateLinearSolver : M World unit :=
  do st <- field settings;
  ext (FetiCall mCreateLinearSolver)
      (linear_solver_Create (s_linear_solver_has_solver_type st)).

(** [__InitializeFetiMethod] (lines 88-147).  The look-ups of the interface
    model parts and the construction of the mapper are one native call. *)
Definition __InitializeFetiMethod : M World unit :=
  do st <- field settings;
  let mapper_type := s_mapper_type st in
  run ext (FetiCall mCreateMapper) mapper_Create;
  run assign (set_is_implicit [true; true]);
  let origin_newmark_beta := s_origin_newmark_beta st in
  let destination_newmark_beta := s_destination_newmark_beta st in
  run when (Qeq_bool origin_newmark_beta 0)
        (do l <- self_attr "is_implicit" is_implicit;
         assign (set_is_implicit (<[0%nat := false]> l)));
  run when (Qeq_bool destination_newmark_beta 0)
        (do l <- self_attr "is_implicit" is_implicit;
         assign (set_is_implicit (<[1%nat := false]> l)));
  do u <- ext (FetiCall mFetiDynamicCouplingUtilities) feti_Create;
  run assign (set_feti_coupling u);
  run ext (FetiCall mSetOriginAndDestinationDomainsWithInterfaceModelParts)
        (feti_SetOriginAndDestinationDomainsWithInterfaceModelParts u);
  run _CreateLinearSolver;
  run ext (FetiCall mSetLinearSolver) (feti_SetLinearSolver u);
  run (if String.eqb mapper_type "coupling_geometry"
       then ext (FetiCall mSetMappingMatrix) (feti_SetMappingMatrix u)
       else raise "Dynamic coupled solver currently only compatible with the coupling_geometry mapper.");
  run ext (FetiCall mSetOriginInitialKinematics)
        (feti_SetOriginInitialKinematics u);
  do ops <- field coupling_operations;
  run assign (set_vtk_output_wrappers_vector ops);
  assign (set_is_initialized true).

(** [InitializeSolutionStep] (lines 51-55). *)
Definition InitializeSolutionStep : M World unit :=
  run ext (BaseCall "InitializeSolutionStep") base_InitializeSolutionStep;
  do init <- field is_initialized;
  when (negb init) __InitializeFetiMethod.

(** [_GetSolverStrategy] (lines 166-173): the handle of the wrapper whose
    mechanical solution strategy is asked for the matrix. *)
Definition _GetSolverStrategy (solverIndex : nat) : M World nat :=
  do vec <- field solver_wrappers_vector;
  do wrapper <- index vec solverIndex;
  do w <- get;
  let solver_name := solver__ClassName wrapper (env w) in
  if String.eqb solver_name "StructuralMechanicsWrapper"
  then ret wrapper
  else raise ("_GetSolverStrategy not implemented for solver wrapper = "
              +:+ solver_name).

(** [__SendStiffnessMatrixToUtility] (lines 150-155). *)
Definition __SendStiffnessMatrixToUtility (solverIndex : nat) : M World unit :=
  do flags <- self_attr "is_implicit" is_implicit;
  do implicit <- index flags solverIndex;
  if implicit : bool then
    do strategy <- _GetSolverStrategy solverIndex;
    do system_matrix <- ext (SolverCall solverIndex mGetSystemMatrix)
                            (strategy_GetSystemMatrix strategy);
    do u <- self_attr "feti_coupling" feti_coupling;
    ext (FetiCall (mSetEffectiveStiffnessMatrixImplicit solverIndex))
        (feti_SetEffectiveStiffnessMatrixImplicit u system_matrix solverIndex)
  else
    do u <- self_attr "feti_coupling" feti_coupling;
    ext (FetiCall (mSetEffectiveStiffnessMatrixExplicit solverIndex))
        (feti_SetEffectiveStiffnessMatrixExplicit u solverIndex).

(** The body of the loop over the substeps of domain B (lines 66-83). *)
Definition substep (solverB : nat) (sub_timestep : Z) : M World unit :=
  run when (1 <? sub_timestep)%Z
        (do t <- self_attr "solverB_time" solverB_time;
         do t' <- ext (SolverCall 1 mAdvanceInTime)
                      (solver_AdvanceInTime solverB t);
         run assign (set_solverB_time t');
         run ext (SolverCall 1 mInitializeSolutionStep)
               (solver_InitializeSolutionStep solverB);
         do vtk <- self_attr "vtk_output_wrappers_vector"
                             vtk_output_wrappers_vector;
         run when (length vtk =? 2)%nat
               (do v <- index vtk 1%nat;
                ext (VtkCall 1 mInitializeSolutionStep)
                    (vtk_InitializeSolutionStep v));
         ext (SolverCall 1 mPredict) (solver_Predict solverB));
  do _ <- ext (SolverCall 1 mSolveSolutionStep)
              (solver_SolveSolutionStep solverB);
  run __SendStiffnessMatrixToUtility 1;
  do u <- self_attr "feti_coupling" feti_coupling;
  run ext (FetiCall mEquilibrateDomains) (feti_EquilibrateDomains u);
  do ratio <- field timestep_ratio;
  when (negb (sub_timestep =? ratio)%Z)
    (run ext (SolverCall 1 mFinalizeSolutionStep)
           (solver_FinalizeSolutionStep solverB);
     do vtk <- self_attr "vtk_output_wrappers_vector"
                         vtk_output_wrappers_vector;
     run when (length vtk =? 2)%nat
           (do v <- index vtk 1%nat;
            ext (VtkCall 1 mFinalizeSolutionStep)
                (vtk_FinalizeSolutionStep v));
     ext (SolverCall 1 mOutputSolutionStep)
         (solver_OutputSolutionStep solverB)).

(** [SolveSolutionStep] (lines 58-85). *)
Definition SolveSolutionStep : M World bool :=
  do vec <- field solver_wrappers_vector;
  do solverA <- index vec 0%nat;
  do _ <- ext (SolverCall 0 mSolveSolutionStep)
              (solver_SolveSolutionStep solverA);
  run __SendStiffnessMatrixToUtility 0;
  do vec <- field solver_wrappers_vector;
  do solverB <- index vec 1%nat;
  do ratio <- field timestep_ratio;
  run for_each (range 1 (ratio + 1)) (substep solverB);
  ret true.

(** ** The calls a run is expected to make

    Written from the coupler's attributes alone, so that a log can be compared
    with them. *)

(** The stiffness submission of domain [i]: matrix retrieval and implicit
    submission, or the explicit-mode signal alone. *)
Definition stiffness_submit (c : Coupler) (i : nat) : list Event :=
  match is_implicit c ≫= (.!! i) with
  | Some true => [SolverCall i mGetSystemMatrix;
                  FetiCall (mSetEffectiveStiffnessMatrixImplicit i)]
  | Some false => [FetiCall (mSetEffectiveStiffnessMatrixExplicit i)]
  | None => []
  end.

Definition has_two_vtk (c : Coupler) : bool :=
  match vtk_output_wrappers_vector c with
  | Some vtk => (length vtk =? 2)%nat
  | None => false
  end.

(** What precedes the solve of domain B in a substep after the first. *)
Definition enter_substep (c : Coupler) : list Event :=
  [SolverCall 1 mAdvanceInTime; SolverCall 1 mInitializeSolutionStep]
  ++ (if has_two_vtk c then [VtkCall 1 mInitializeSolutionStep] else [])
  ++ [SolverCall 1 mPredict].

(** The solve / stiffness-submit / equilibrate triple of domain B. *)
Definition solve_B (c : Coupler) : list Event :=
  [SolverCall 1 mSolveSolutionStep] ++ stiffness_submit c 1
  ++ [FetiCall mEquilibrateDomains].

(** What follows the triple in a substep that is not the last. *)
Definition leave_substep (c : Coupler) : list Event :=
  [SolverCall 1 mFinalizeSolutionStep]
  ++ (if has_two_vtk c then [VtkCall 1 mFinalizeSolutionStep] else [])
  ++ [SolverCall 1 mOutputSolutionStep].

Definition substep_calls (c : Coupler) (sub_timestep : Z) : list Event :=
  (if (1 <? sub_timestep)%Z then enter_substep c else [])
  ++ solve_B c
  ++ (if (sub_timestep =? timestep_ratio c)%Z then [] else leave_substep c).

Definition count (ev : Event) (tr : list Event) : nat :=
  length (filter (λ x, x = ev) tr).

Definition is_submit (i : nat) (ev : Event) : bool :=
  bool_decide (ev = FetiCall (mSetEffectiveStiffnessMatrixImplicit i))
  || bool_decide (ev = FetiCall (mSetEffectiveStiffnessMatrixExplicit i)).

Definition count_submit (i : nat) (tr : list Event) : nat :=
  length (filter (λ x, is_submit i x = true) tr).

(** ** A small logic of logs

    [emits c m tr Q]: started with the attributes that drive the control flow
    equal to those of [c], a normal return of [m] leaves them unchanged, has
    appended exactly [tr] to the log, and its value satisfies [Q]. *)

Definition same_config (c c' : Coupler) : Prop :=
  solver_wrappers_vector c' = solver_wrappers_vector c
  ∧ timestep_ratio c' = timestep_ratio c
  ∧ is_implicit c' = is_implicit c
  ∧ feti_coupling c' = feti_coupling c
  ∧ vtk_output_wrappers_vector c' = vtk_output_wrappers_vector c.

Definition emits {A} (c : Coupler) (m : M World A) (tr : list Event)
    (Q : A → Prop) : Prop :=
  ∀ w r w', same_config c (self w) → m w = (Ok r, w') →
    same_config c (self w') ∧ log w' = log w ++ tr ∧ Q r.

Lemma same_config_refl c : same_config c c.
Proof. by repeat split. Qed.

Lemma emits_ret {A} c (a : A) (Q : A → Prop) : Q a → emits c (ret a) [] Q.
Proof.
  intros HQ w r w' Hc [= <- <-]. by rewrite app_nil_r.
Qed.

Lemma emits_raise {A} c msg tr (Q : A → Prop) : emits c (raise msg) tr Q.
Proof. by intros w r w' _ [=]. Qed.

Lemma emits_bind {A B} c (m : M World A) (k : A → M World B) t1 t2
    (Q : A → Prop) (R : B → Prop) :
  emits c m t1 Q → (∀ a, Q a → emits c (k a) t2 R) →
  emits c (bind m k) (t1 ++ t2) R.
Proof.
  intros Hm Hk w r w' Hc. unfold bind.
  destruct (m w) as [[a|msg] w1] eqn:Em; [|by intros [=]].
  intros Ek. destruct (Hm _ _ _ Hc Em) as (Hc1 & Hl1 & HQ).
  destruct (Hk a HQ _ _ _ Hc1 Ek) as (Hc2 & Hl2 & HR).
  split; [done|]. split; [|done]. by rewrite Hl2, Hl1, app_assoc.
Qed.

Lemma emits_weaken {A} c (m : M World A) tr tr' (Q Q' : A → Prop) :
  emits c m tr Q → tr = tr' → (∀ a, Q a → Q' a) → emits c m tr' Q'.
Proof.
  intros Hm <- HQ w r w' Hc Em.
  destruct (Hm _ _ _ Hc Em) as (? & ? & ?). auto.
Qed.

Lemma emits_ext {A} c ev (op : E → outcome A * E) :
  emits c (ext ev op) [ev] (λ _, True).
Proof.
  intros w r w' Hc. unfold ext. destruct (op (env w)) as [r' e'].
  by intros [= -> <-].
Qed.

Lemma emits_field {A} c (f : Coupler → A) :
  emits c (field f) [] (λ a, ∃ c', same_config c c' ∧ a = f c').
Proof.
  intros w r w' Hc [= <- <-]. rewrite app_nil_r. eauto.
Qed.

Lemma emits_self_attr {A} c name (f : Coupler → option A) :
  emits c (self_attr name f) []
        (λ a, ∃ c', same_config c c' ∧ f c' = Some a).
Proof.
  intros w r w' Hc. unfold self_attr, attr.
  destruct (f (self w)) eqn:Ef; intros [= <- <-].
  rewrite app_nil_r. eauto.
Qed.

Lemma emits_assign c (f : Coupler → Coupler) :
  (∀ c', same_config c c' → same_config c (f c')) →
  emits c (assign f) [] (λ _, True).
Proof.
  intros Hf w r w' Hc [= <- <-]. simpl. rewrite app_nil_r. auto.
Qed.

Lemma emits_index {A} c (l : list A) i :
  emits c (index l i) [] (λ a, l !! i = Some a).
Proof.
  intros w r w' Hc. unfold index.
  destruct (l !! i); intros [= <- <-]. by rewrite app_nil_r.
Qed.

Lemma emits_when c (b : bool) (m : M World unit) tr (Q : unit → Prop) :
  emits c m tr Q →
  emits c (when b m) (if b then tr else []) (λ _, True).
Proof.
  intros Hm. destruct b; simpl.
  - eapply emits_weaken; eauto.
  - by apply emits_ret.
Qed.

Lemma emits_for_each {A} c (l : list A) (body : A → M World unit)
    (calls : A → list Event) (P : Prop) :
  (∀ x, emits c (body x) (calls x) (λ _, P)) →
  emits c (for_each l body) (concat (calls <$> l)) (λ _, l ≠ [] → P).
Proof.
  intros Hbody. induction l as [|x l IH]; simpl.
  - by apply emits_ret.
  - eapply emits_bind; [apply Hbody|]. intros ? HP; simpl in HP.
    eapply emits_weaken; [apply IH|done|auto].
Qed.

Lemma emits_get c : emits c get [] (λ _, True).
Proof. intros w r w' Hc [= <- <-]. by rewrite app_nil_r. Qed.

Lemma emits_pure {A B} c (m : M World A) (k : A → M World B) tr
    (Q : A → Prop) (R : B → Prop) :
  emits c m [] Q → (∀ a, Q a → emits c (k a) tr R) → emits c (bind m k) tr R.
Proof. intros Hm Hk. by apply (emits_bind c m k [] tr Q R). Qed.

Lemma emits_call {A B} c ev (op : E → outcome A * E) (k : A → M World B) tr
    (R : B → Prop) :
  (∀ a, emits c (k a) tr R) → emits c (bind (ext ev op) k) (ev :: tr) R.
Proof.
  intros Hk. apply (emits_bind c _ k [ev] tr (λ _, True) R); [|auto].
  apply emits_ext.
Qed.

Lemma emits_last_call {A} c ev (op : E → outcome A * E) (Q : A → Prop) tr :
  tr = [ev] → (∀ a, Q a) → emits c (ext ev op) tr Q.
Proof. intros -> HQ. eapply emits_weaken; [apply emits_ext|done|auto]. Qed.

Lemma emits__GetSolverStrategy c i :
  emits c (_GetSolverStrategy i) [] (λ _, True).
Proof.
  unfold _GetSolverStrategy.
  eapply emits_pure; [apply emits_field|]; intros vec _.
  eapply emits_pure; [apply emits_index|]; intros wrapper _.
  eapply emits_pure; [apply emits_get|]; intros w _.
  destruct (String.eqb _ _); [by apply emits_ret | apply emits_raise].
Qed.

Lemma emits___SendStiffnessMatrixToUtility c i :
  emits c (__SendStiffnessMatrixToUtility i) (stiffness_submit c i)
        (λ _, is_Some (is_implicit c ≫= (.!! i))).
Proof.
  unfold __SendStiffnessMatrixToUtility.
  eapply emits_pure; [apply emits_self_attr|].
  intros flags (c' & (_ & _ & Hi & _) & Hflags).
  eapply emits_pure; [apply emits_index|]; intros implicit Himp.
  unfold stiffness_submit. rewrite <- Hi, Hflags. simpl. rewrite Himp.
  destruct implicit.
  - eapply emits_pure; [apply emits__GetSolverStrategy|]; intros strategy _.
    apply emits_call; intros system_matrix.
    eapply emits_pure; [apply emits_self_attr|]; intros u _.
    by apply emits_last_call.
  - eapply emits_pure; [apply emits_self_attr|]; intros u _.
    by apply emits_last_call.
Qed.

Lemma has_two_vtk_eq c c' vtk :
  same_config c c' → vtk_output_wrappers_vector c' = Some vtk →
  has_two_vtk c = (length vtk =? 2)%nat.
Proof.
  intros (_ & _ & _ & _ & Hv) Hvtk. unfold has_two_vtk.
  by rewrite <- Hv, Hvtk.
Qed.

Lemma same_config_set_solverB_time c t c' :
  same_config c c' → same_config c (set_solverB_time t c').
Proof. done. Qed.

Lemma emits_enter_substep c solverB :
  emits c
    (do t <- self_attr "solverB_time" solverB_time;
     do t' <- ext (SolverCall 1 mAdvanceInTime)
                  (solver_AdvanceInTime solverB t);
     run assign (set_solverB_time t');
     run ext (SolverCall 1 mInitializeSolutionStep)
           (solver_InitializeSolutionStep solverB);
     do vtk <- self_attr "vtk_output_wrappers_vector"
                         vtk_output_wrappers_vector;
     run when (length vtk =? 2)%nat
           (do v <- index vtk 1%nat;
            ext (VtkCall 1 mInitializeSolutionStep)
                (vtk_InitializeSolutionStep v));
     ext (SolverCall 1 mPredict) (solver_Predict solverB))%py
    (enter_substep c) (λ _, True).
Proof.
  eapply emits_pure; [apply emits_self_attr|]; intros t _.
  unfold enter_substep. simpl. apply emits_call; intros t'.
  eapply emits_pure;
    [apply emits_assign, same_config_set_solverB_time|]; intros _ _.
  apply emits_call; intros _.
  eapply emits_pure; [apply emits_self_attr|]; intros vtk (c' & Hc' & Hvtk).
  rewrite (has_two_vtk_eq _ _ _ Hc' Hvtk).
  eapply emits_bind; [|intros _ _; by apply emits_last_call].
  apply emits_when with (Q := λ _, True).
  eapply emits_pure; [apply emits_index|]; intros v _.
  by apply emits_last_call.
Qed.

Lemma emits_leave_substep c solverB :
  emits c
    (run ext (SolverCall 1 mFinalizeSolutionStep)
           (solver_FinalizeSolutionStep solverB);
     do vtk <- self_attr "vtk_output_wrappers_vector"
                         vtk_output_wrappers_vector;
     run when (length vtk =? 2)%nat
           (do v <- index vtk 1%nat;
            ext (VtkCall 1 mFinalizeSolutionStep)
                (vtk_FinalizeSolutionStep v));
     ext (SolverCall 1 mOutputSolutionStep)
         (solver_OutputSolutionStep solverB))%py
    (leave_substep c) (λ _, True).
Proof.
  unfold leave_substep. simpl. apply emits_call; intros _.
  eapply emits_pure; [apply emits_self_attr|]; intros vtk (c' & Hc' & Hvtk).
  rewrite (has_two_vtk_eq _ _ _ Hc' Hvtk).
  eapply emits_bind; [|intros _ _; by apply emits_last_call].
  apply emits_when with (Q := λ _, True).
  eapply emits_pure; [apply emits_index|]; intros v _.
  by apply emits_last_call.
Qed.

Lemma emits_substep c solverB sub_timestep :
  emits c (substep solverB sub_timestep) (substep_calls c sub_timestep)
        (λ _, is_Some (is_implicit c ≫= (.!! 1%nat))).
Proof.
  unfold substep, substep_calls, solve_B.
  eapply emits_bind; [eapply emits_when, emits_enter_substep|]; intros _ _.
  simpl. apply emits_call; intros _. rewrite <- app_assoc.
  eapply emits_bind;
    [apply emits___SendStiffnessMatrixToUtility|]; intros ? Hflag; simpl in Hflag.
  eapply emits_pure; [apply emits_self_attr|]; intros u _.
  simpl. apply emits_call; intros _.
  eapply emits_pure; [apply emits_field|].
  intros ratio (c' & (_ & Hr & _) & ->). rewrite Hr.
  eapply emits_weaken; [eapply emits_when, emits_leave_substep| |done].
  by destruct (sub_timestep =? timestep_ratio c)%Z.
Qed.

(** The log of [SolveSolutionStep] for any [timestep_ratio]. *)
Lemma emits_SolveSolutionStep c :
  emits c SolveSolutionStep
    ([SolverCall 0 mSolveSolutionStep] ++ stiffness_submit c 0
     ++ concat (substep_calls c <$> range 1 (timestep_ratio c + 1)))
    (λ r, r = true
          ∧ is_Some (is_implicit c ≫= (.!! 0%nat))
          ∧ (range 1 (timestep_ratio c + 1) ≠ [] →
             is_Some (is_implicit c ≫= (.!! 1%nat)))).
Proof.
  unfold SolveSolutionStep.
  eapply emits_pure; [apply emits_field|]; intros vec _.
  eapply emits_pure; [apply emits_index|]; intros solverA _.
  simpl. apply emits_call; intros _.
  eapply emits_bind;
    [apply emits___SendStiffnessMatrixToUtility|]; intros ? Hflag0; simpl in Hflag0.
  eapply emits_pure; [apply emits_field|]; intros vec' _.
  eapply emits_pure; [apply emits_index|]; intros solverB _.
  eapply emits_pure; [apply emits_field|].
  intros ratio (c' & (_ & Hr & _) & ->). rewrite Hr.
  rewrite <- (app_nil_r (concat _)).
  eapply emits_bind; [apply emits_for_each, emits_substep|]; intros ? Hflag1; simpl in Hflag1.
  by apply emits_ret.
Qed.

(** ** Symbolic execution of the coupler's primitives *)

Lemma wp_ext {A} ev (op : E → outcome A * E) (Φ : A → World → Prop) w :
  (∀ a e', op (env w) = (Ok a, e') →
           Φ a {| self := self w; env := e'; log := log w ++ [ev] |}) →
  wp (ext ev op) Φ w.
Proof.
  intros H. unfold wp, ext. destruct (op (env w)) as [[a|msg] e']; auto.
Qed.

Lemma wp_assign (f : Coupler → Coupler) (Φ : unit → World → Prop) w :
  Φ tt {| self := f (self w); env := env w; log := log w |} →
  wp (assign f) Φ w.
Proof. done. Qed.

Lemma wp_field {A} (f : Coupler → A) (Φ : A → World → Prop) w :
  Φ (f (self w)) w → wp (field f) Φ w.
Proof. done. Qed.

Lemma wp_self_attr {A} name (f : Coupler → option A)
    (Φ : A → World → Prop) w :
  (∀ a, f (self w) = Some a → Φ a w) → wp (self_attr name f) Φ w.
Proof. intros H. by apply wp_attr. Qed.

(** ** The transitions of the native state

    The log names a wrapper by the position written in the source.  The
    relations below follow the native state instead: each relates the state
    before a group of native calls to the state after it, names the handle
    every call is made on, and hands the value one call returns to the call
    that receives it. *)

(** Domain [i], whose wrapper is [h], submits its stiffness to the coupling
    utility [u]: the system matrix of the solution strategy of [h] when the
    domain is implicit, the explicit-mode signal otherwise. *)
Definition submits (c : Coupler) (i h u : nat) (e e' : E) : Prop :=
  match is_implicit c ≫= (.!! i) with
  | Some true =>
      solver__ClassName h e = "StructuralMechanicsWrapper"
      ∧ ∃ system_matrix e1,
          strategy_GetSystemMatrix h e = (Ok system_matrix, e1)
          ∧ feti_SetEffectiveStiffnessMatrixImplicit u system_matrix i e1
            = (Ok tt, e')
  | Some false => feti_SetEffectiveStiffnessMatrixExplicit u i e = (Ok tt, e')
  | None => False
  end.

(** The wrapper [h] of domain [i] solves its step, then the domain submits
    its stiffness. *)
Definition solves (c : Coupler) (i h u : nat) (e e' : E) : Prop :=
  ∃ b e1, solver_SolveSolutionStep h e = (Ok b, e1) ∧ submits c i h u e1 e'.

(** The solve / stiffness-submit / equilibrate triple of domain B on the
    wrapper [solverB]. *)
Definition couples (c : Coupler) (solverB u : nat) (e e' : E) : Prop :=
  ∃ e1, solves c 1 solverB u e e1
        ∧ feti_EquilibrateDomains u e1 = (Ok tt, e').

(** [op] on the output wrapper at position 1, when there are exactly two
    output wrappers; nothing otherwise. *)
Definition outputs (c : Coupler) (op : nat → E → outcome unit * E)
    (e e' : E) : Prop :=
  ∃ vtk, vtk_output_wrappers_vector c = Some vtk
         ∧ if (length vtk =? 2)%nat
           then ∃ v, vtk !! 1%nat = Some v ∧ op v e = (Ok tt, e')
           else e' = e.

(** What precedes the solve of domain B in a substep after the first:
    [solverB] advances from the time [t] to the time [t'], initializes and
    predicts. *)
Definition enters (c : Coupler) (solverB : nat) (t : Q) (e : E)
    (t' : Q) (e' : E) : Prop :=
  ∃ e1 e2 e3,
    solver_AdvanceInTime solverB t e = (Ok t', e1)
    ∧ solver_InitializeSolutionStep solverB e1 = (Ok tt, e2)
    ∧ outputs c vtk_InitializeSolutionStep e2 e3
    ∧ solver_Predict solverB e3 = (Ok tt, e').

(** What follows the triple in a substep that is not the last. *)
Definition leaves (c : Coupler) (solverB : nat) (e e' : E) : Prop :=
  ∃ e1 e2,
    solver_FinalizeSolutionStep solverB e = (Ok tt, e1)
    ∧ outputs c vtk_FinalizeSolutionStep e1 e2
    ∧ solver_OutputSolutionStep solverB e2 = (Ok tt, e').

(** One substep of domain B, from the value of [solverB_time] and the native
    state before it to those after it. *)
Definition takes_substep (c : Coupler) (solverB u : nat) (sub_timestep : Z)
    (s s' : option Q * E) : Prop :=
  ∃ e1 e2,
    (if (1 <? sub_timestep)%Z
     then ∃ t t', s.1 = Some t ∧ s'.1 = Some t'
                  ∧ enters c solverB t s.2 t' e1
     else s'.1 = s.1 ∧ e1 = s.2)
    ∧ couples c solverB u e1 e2
    ∧ (if (sub_timestep =? timestep_ratio c)%Z
       then s'.2 = e2
       else leaves c solverB e2 s'.2).

(** The substeps of [l], one after the other. *)
Fixpoint takes_substeps (c : Coupler) (solverB u : nat) (l : list Z)
    (s s' : option Q * E) : Prop :=
  match l with
  | [] => s' = s
  | sub_timestep :: l' =>
      ∃ s1, takes_substep c solverB u sub_timestep s s1
            ∧ takes_substeps c solverB u l' s1 s'
  end.

Lemma __SendStiffnessMatrixToUtility_submits (i h : nat) (w w' : World)
    (r : unit) :
  solver_wrappers_vector (self w) !! i = Some h →
  __SendStiffnessMatrixToUtility i w = (Ok r, w') →
  self w' = self w
  ∧ ∃ u, feti_coupling (self w) = Some u
         ∧ submits (self w) i h u (env w) (env w').
Proof.
  intros Hh. by_wp. unfold __SendStiffnessMatrixToUtility, submits.
  apply wp_bind, wp_self_attr. intros flags Hflags. rewrite Hflags. simpl.
  apply wp_bind, wp_index. intros implicit Himplicit. rewrite Himplicit.
  destruct implicit.
  - unfold _GetSolverStrategy.
    apply wp_bind, wp_bind, wp_field; simpl.
    apply wp_bind, wp_index. intros wrapper Hwrapper.
    rewrite Hh in Hwrapper. injection Hwrapper as <-.
    apply wp_bind, wp_get.
    destruct (String.eqb _ _) eqn:Hname; [apply wp_ret|apply wp_raise].
    apply String.eqb_eq in Hname.
    apply wp_bind, wp_ext. intros system_matrix e1 Hm; simpl.
    apply wp_bind, wp_self_attr; simpl. intros u Hu.
    apply wp_ext. intros [] e' He'. simpl. eauto 10.
  - apply wp_bind, wp_self_attr. intros u Hu.
    apply wp_ext. intros [] e' He'. simpl. eauto.
Qed.

Lemma submits_same_config c c' i h u e e' :
  same_config c c' → submits c' i h u e e' → submits c i h u e e'.
Proof. intros (_ & _ & Hi & _). unfold submits. by rewrite Hi. Qed.

Lemma wp_when_outputs c (op : nat → E → outcome unit * E) ev vtk w :
  same_config c (self w) →
  vtk_output_wrappers_vector (self w) = Some vtk →
  wp (when (length vtk =? 2)%nat
        (do v <- index vtk 1%nat; ext ev (op v))%py)
     (λ _ w1, self w1 = self w ∧ outputs c op (env w) (env w1)) w.
Proof.
  intros (_ & _ & _ & _ & Hvtk) Hv. rewrite Hvtk in Hv.
  apply wp_when; intros Htwo.
  - apply wp_bind, wp_index. intros v Hlookup.
    apply wp_ext. intros [] e' Hop. split; [done|].
    exists vtk. rewrite Htwo. eauto.
  - split; [done|]. exists vtk. by rewrite Htwo.
Qed.

(** A substep that returns has taken the native state through the calls of
    [takes_substep], all of them on the wrapper it was given. *)
Lemma substep_run (c : Coupler) (solverB u : nat) (sub_timestep : Z)
    (w w' : World) (r : unit) :
  same_config c (self w) →
  solver_wrappers_vector c !! 1%nat = Some solverB →
  feti_coupling c = Some u →
  substep solverB sub_timestep w = (Ok r, w') →
  same_config c (self w')
  ∧ takes_substep c solverB u sub_timestep
      (solverB_time (self w), env w) (solverB_time (self w'), env w').
Proof.
  intros Hc HB Hu. by_wp. unfold substep, takes_substep.
  apply wp_bind.
  apply wp_mono with
    (Φ := λ _ w1,
       same_config c (self w1)
       ∧ if (1 <? sub_timestep)%Z
         then ∃ t t', solverB_time (self w) = Some t
                      ∧ solverB_time (self w1) = Some t'
                      ∧ enters c solverB t (env w) t' (env w1)
         else solverB_time (self w1) = solverB_time (self w)
              ∧ env w1 = env w).
  { apply wp_when; intros Hlate; rewrite Hlate; [|done].
    apply wp_bind, wp_self_attr. intros t Ht.
    apply wp_bind, wp_ext. intros t' e1 Hadvance; simpl.
    apply wp_bind, wp_assign.
    apply wp_bind, wp_ext. intros [] e2 Hinitialize; simpl.
    apply wp_bind, wp_self_attr; simpl. intros vtk Hvtk.
    apply wp_bind.
    eapply wp_mono; [by apply (wp_when_outputs c)|].
    intros _ w1 (Hself & Houtputs); simpl in Hself, Houtputs.
    apply wp_ext. intros [] e3 Hpredict; simpl. rewrite Hself; simpl.
    split; [done|]. exists t, t'. split; [done|]. split; [done|].
    by exists e1, e2, (env w1). }
  intros _ w1 (Hc1 & Hentered).
  apply wp_bind, wp_ext. intros b e2 Hsolve; simpl.
  apply wp_bind, wp_intro. intros [] w2 Hsend.
  pose proof Hc1 as (Hvec & Hratio & _ & Hfeti & _).
  assert (solver_wrappers_vector (self w1) !! 1%nat = Some solverB) as HB1
    by (by rewrite Hvec).
  apply (__SendStiffnessMatrixToUtility_submits 1 solverB) in Hsend
    as (Hself & u' & Hu' & Hsubmits); [|exact HB1].
  simpl in Hself, Hu', Hsubmits.
  apply (submits_same_config c) in Hsubmits; [|done].
  rewrite Hfeti, Hu in Hu'. injection Hu' as <-.
  apply wp_bind, wp_self_attr. intros u' Hu'.
  rewrite Hself, Hfeti, Hu in Hu'. injection Hu' as <-.
  apply wp_bind, wp_ext. intros [] e3 Hequilibrate; simpl.
  apply wp_bind, wp_field; simpl. rewrite Hself, Hratio.
  assert (couples c solverB u (env w1) e3) as Hcouples.
  { exists (env w2). split; [|done]. by exists b, e2. }
  apply wp_when; intros Hlast.
  - apply wp_bind, wp_ext. intros [] e4 Hfinalize; simpl.
    apply wp_bind, wp_self_attr; simpl. intros vtk Hvtk.
    apply wp_bind.
    eapply wp_mono; [apply (wp_when_outputs c); simpl; by rewrite ?Hself|].
    intros _ w3 (Hself3 & Houtputs); simpl in Hself3, Houtputs.
    apply wp_ext. intros [] e5 Houtput; simpl in *. rewrite Hself3.
    split; [done|]. exists (env w1), e3. split.
    { destruct (1 <? sub_timestep)%Z; [|done].
      destruct Hentered as (t & t' & ? & ? & ?). by exists t, t'. }
    split; [done|]. apply negb_true_iff in Hlast. rewrite Hlast; simpl.
    by exists e4, (env w3).
  - simpl. split; [done|]. exists (env w1), e3. split.
    { destruct (1 <? sub_timestep)%Z; [|done].
      destruct Hentered as (t & t' & ? & ? & ?). by exists t, t'. }
    split; [done|]. apply negb_false_iff in Hlast. by rewrite Hlast.
Qed.

Lemma substeps_run (c : Coupler) (solverB u : nat) (l : list Z)
    (w w' : World) (r : unit) :
  same_config c (self w) →
  solver_wrappers_vector c !! 1%nat = Some solverB →
  feti_coupling c = Some u →
  for_each l (substep solverB) w = (Ok r, w') →
  takes_substeps c solverB u l
    (solverB_time (self w), env w) (solverB_time (self w'), env w').
Proof.
  intros Hc HB Hu. revert w Hc. induction l as [|k l IH]; intros w Hc.
  - by intros [= _ <-].
  - cbn [for_each takes_substeps]. unfold bind.
    destruct (substep solverB k w) as [[[]|msg] w1] eqn:Hstep; [|done].
    intros Hrest.
    destruct (substep_run c solverB u k w w1 tt Hc HB Hu Hstep)
      as (Hc1 & Htakes).
    eexists. split; [exact Htakes|]. by apply IH.
Qed.

(** A step that returns has solved domain A on the wrapper at position 0
    and has taken the substeps [1 .. timestep_ratio] on the wrapper at
    position 1. *)
Lemma SolveSolutionStep_run (w w' : World) (r : bool) :
  SolveSolutionStep w = (Ok r, w') →
  ∃ solverA solverB u e1,
    solver_wrappers_vector (self w) !! 0%nat = Some solverA
    ∧ solver_wrappers_vector (self w) !! 1%nat = Some solverB
    ∧ feti_coupling (self w) = Some u
    ∧ solves (self w) 0 solverA u (env w) e1
    ∧ takes_substeps (self w) solverB u
        (range 1 (timestep_ratio (self w) + 1))
        (solverB_time (self w), e1) (solverB_time (self w'), env w').
Proof.
  by_wp. unfold SolveSolutionStep.
  apply wp_bind, wp_field.
  apply wp_bind, wp_index. intros solverA HA.
  apply wp_bind, wp_ext. intros b e0 Hsolve; simpl.
  apply wp_bind, wp_intro. intros [] w1 Hsend.
  apply (__SendStiffnessMatrixToUtility_submits 0 solverA) in Hsend
    as (Hself & u & Hu & Hsubmits); [|exact HA].
  simpl in Hself, Hu, Hsubmits.
  apply wp_bind, wp_field. rewrite Hself.
  apply wp_bind, wp_index. intros solverB HB.
  apply wp_bind, wp_field. rewrite Hself.
  apply wp_bind, wp_intro. intros [] w2 Hloop. apply wp_ret.
  exists solverA, solverB, u, (env w1).
  split; [done|]. split; [done|]. split; [done|].
  split; [by exists b, e0|].
  rewrite <- Hself at 3.
  apply (substeps_run (self w) solverB u _ w1 w2 tt); try done.
  rewrite Hself. apply same_config_refl.
Qed.

(** C1.  With [timestep_ratio = 3], a call of [SolveSolutionStep] that
    returns appends to the log exactly: the solve and stiffness submission of
    domain A; then three solve / stiffness-submit / equilibrate triples of
    domain B, the second and the third each preceded by [AdvanceInTime],
    [InitializeSolutionStep] and [Predict] of domain B, the first preceded by
    none of them.  Counted: one solve and one submission for domain A; three
    solves, submissions and equilibrations for domain B; two calls of each of
    [AdvanceInTime], [InitializeSolutionStep] and [Predict].

    These calls are made on the objects the coupler holds, and the native
    state goes from [env w] to [env w'] through them and nothing else: domain
    A is the wrapper at position 0 of [solver_wrappers_vector], domain B the
    wrapper at position 1, the coupling utility is [feti_coupling]; the first
    advance of domain B starts from [solverB_time], the second from the time
    the first returned, and [solverB_time] ends as the time the second
    returned. *)
Theorem C1_solve_step_ratio_three (w w' : World) (r : bool) :
  timestep_ratio (self w) = 3 →
  SolveSolutionStep w = (Ok r, w') →
  let c := self w in
  let first := [SolverCall 0 mSolveSolutionStep] ++ stiffness_submit c 0
               ++ solve_B c ++ leave_substep c in
  let tr := first ++ enter_substep c ++ solve_B c ++ leave_substep c
            ++ enter_substep c ++ solve_B c in
  log w' = log w ++ tr
  ∧ count (SolverCall 0 mSolveSolutionStep) tr = 1%nat
  ∧ count_submit 0 tr = 1%nat
  ∧ count (SolverCall 1 mSolveSolutionStep) tr = 3%nat
  ∧ count_submit 1 tr = 3%nat
  ∧ count (FetiCall mEquilibrateDomains) tr = 3%nat
  ∧ count (SolverCall 1 mAdvanceInTime) tr = 2%nat
  ∧ count (SolverCall 1 mInitializeSolutionStep) tr = 2%nat
  ∧ count (SolverCall 1 mPredict) tr = 2%nat
  ∧ count (SolverCall 1 mAdvanceInTime) first = 0%nat
  ∧ count (SolverCall 1 mInitializeSolutionStep) first = 0%nat
  ∧ count (SolverCall 1 mPredict) first = 0%nat
  ∧ ∃ solverA solverB u t0 t1 t2 e1 e2 e3 e4 e5 e6 e7,
      solver_wrappers_vector c !! 0%nat = Some solverA
      ∧ solver_wrappers_vector c !! 1%nat = Some solverB
      ∧ feti_coupling c = Some u
      ∧ solves c 0 solverA u (env w) e1
      (* substep 1 *)
      ∧ couples c solverB u e1 e2
      ∧ leaves c solverB e2 e3
      (* substep 2 *)
      ∧ solverB_time c = Some t0
      ∧ enters c solverB t0 e3 t1 e4
      ∧ couples c solverB u e4 e5
      ∧ leaves c solverB e5 e6
      (* substep 3 *)
      ∧ enters c solverB t1 e6 t2 e7
      ∧ couples c solverB u e7 (env w')
      ∧ solverB_time (self w') = Some t2.
Proof.
  intros Hratio Hrun c first tr.
  destruct (emits_SolveSolutionStep c w r w' (same_config_refl _) Hrun)
    as (_ & Hlog & _ & [b0 Hb0] & Hb1).
  destruct (SolveSolutionStep_run w w' r Hrun)
    as (solverA & solverB & u & e1 & HA & HB & Hu & Hsolves & Htakes).
  fold c in Hratio, HA, HB, Hu, Hsolves, Htakes.
  rewrite Hratio in Hlog, Hb1, Htakes.
  change (range 1 (3 + 1)) with [1; 2; 3] in Hlog, Hb1, Htakes.
  destruct Hb1 as [b1 Hb1]; [done|].
  assert (∃ solverA solverB u t0 t1 t2 e1 e2 e3 e4 e5 e6 e7,
            solver_wrappers_vector c !! 0%nat = Some solverA
            ∧ solver_wrappers_vector c !! 1%nat = Some solverB
            ∧ feti_coupling c = Some u
            ∧ solves c 0 solverA u (env w) e1
            ∧ couples c solverB u e1 e2
            ∧ leaves c solverB e2 e3
            ∧ solverB_time c = Some t0
            ∧ enters c solverB t0 e3 t1 e4
            ∧ couples c solverB u e4 e5
            ∧ leaves c solverB e5 e6
            ∧ enters c solverB t1 e6 t2 e7
            ∧ couples c solverB u e7 (env w')
            ∧ solverB_time (self w') = Some t2) as Hchain.
  { cbn [takes_substeps] in Htakes.
    destruct Htakes as ([s1 e3] & H1 & [s2 e6] & H2 & [s3 e9] & H3 & Hend).
    injection Hend as <- <-.
    unfold takes_substep in H1, H2, H3. rewrite Hratio in H1, H2, H3.
    cbn [fst snd Z.ltb Z.eqb Z.compare Pos.compare Pos.compare_cont]
      in H1, H2, H3.
    destruct H1 as (? & e2 & [-> ->] & Hcouples1 & Hleaves1).
    destruct H2 as (e4 & e5 & (t0 & t1 & Ht0 & -> & Henters2) & Hcouples2
                    & Hleaves2).
    destruct H3 as (e7 & e8 & (t1' & t2 & [= <-] & Ht2 & Henters3)
                    & Hcouples3 & <-).
    exists solverA, solverB, u, t0, t1, t2, e1, e2, e3, e4, e5, e6, e7.
    by split_and!. }
  split.
  - rewrite Hlog. f_equal. subst tr first.
    unfold fmap, list_fmap, concat, substep_calls.
    unfold solve_B, enter_substep, leave_substep, stiffness_submit.
    rewrite Hratio, Hb0, Hb1.
    by destruct b0, b1, (has_two_vtk c).
  - subst tr first.
    unfold solve_B, enter_substep, leave_substep, stiffness_submit.
    rewrite Hb0, Hb1.
    destruct b0, b1, (has_two_vtk c);
      (repeat (split; [vm_compute; reflexivity|])); exact Hchain.
Qed.

(** A call of [SolveSolutionStep] that returns, returns [True], whatever the
    collaborators. *)
Lemma SolveSolutionStep_returns_true (w w' : World) (r : bool) :
  SolveSolutionStep w = (Ok r, w') → r = true.
Proof.
  intros Hrun.
  by destruct (emits_SolveSolutionStep (self w) w r w'
                 (same_config_refl _) Hrun) as (_ & _ & -> & _).
Qed.

(** What the specification of [AdvanceInTime] says the coupler's time is:
    the first non-zero value among the values the domains returned, in the
    order they returned them, and 0 when there is none. *)
Definition first_nonzero_time (returned : list Q) : Q :=
  match filter (λ t, Qeq_bool t 0 = false) returned with
  | t :: _ => t
  | [] => 0%Q
  end.

(** C2, as the code has it.  A call of [AdvanceInTime] that returns has
    advanced domain B first and domain A second, both from [current_time];
    it keeps the value of domain B as [solverB_time]; and the coupler's time,
    which it returns, is the value of domain A when that is non-zero and 0
    otherwise.  The value of domain B never becomes the coupler's time. *)
Theorem C2_advance_in_time (current_time : Q) (w w' : World) (r : Q) :
  AdvanceInTime current_time w = (Ok r, w') →
  ∃ solverA solverB tB e1 tA,
    solver_wrappers_vector (self w) !! 1%nat = Some solverB
    ∧ solver_wrappers_vector (self w) !! 0%nat = Some solverA
    ∧ solver_AdvanceInTime solverB current_time (env w) = (Ok tB, e1)
    ∧ solver_AdvanceInTime solverA current_time e1 = (Ok tA, env w')
    ∧ log w' = log w ++ [SolverCall 1 mAdvanceInTime;
                         SolverCall 0 mAdvanceInTime]
    ∧ solverB_time (self w') = Some tB
    ∧ r = (if Qeq_bool tA 0 then 0%Q else tA)
    ∧ time (self w') = Some r.
Proof.
  by_wp. unfold AdvanceInTime.
  apply wp_bind, wp_assign. apply wp_bind, wp_field; simpl.
  apply wp_bind, wp_index; intros solverB HB.
  apply wp_bind, wp_ext; intros tB e1 HtB; simpl.
  apply wp_bind, wp_assign. apply wp_bind, wp_field; simpl.
  apply wp_bind, wp_index; intros solverA HA.
  apply wp_bind, wp_ext; intros tA e2 HtA; simpl.
  apply wp_bind, wp_when.
  - intros Hnz. apply wp_bind, wp_self_attr; simpl. intros t [= <-].
    apply wp_when; [intros _|done].
    apply wp_assign, wp_self_attr; simpl. intros r' [= <-].
    exists solverA, solverB, tB, e1, tA.
    apply negb_true_iff in Hnz. by rewrite Hnz, <- app_assoc.
  - intros Hz. apply wp_self_attr; simpl. intros r' [= <-].
    exists solverA, solverB, tB, e1, tA.
    apply negb_false_iff in Hz. by rewrite Hz, <- app_assoc.
Qed.

(** The Newmark beta configured for domain [i]: [origin_newmark_beta] for
    domain 0, [destination_newmark_beta] for domain 1. *)
Definition newmark_beta (st : Settings) (i : nat) : Q :=
  match i with
  | O => s_origin_newmark_beta st
  | _ => s_destination_newmark_beta st
  end.

(** What a successful [__InitializeFetiMethod] leaves in the attributes. *)
Lemma __InitializeFetiMethod_attributes (w0 w : World) (r : unit) :
  __InitializeFetiMethod w0 = (Ok r, w) →
  is_implicit (self w)
  = Some [negb (Qeq_bool (s_origin_newmark_beta (settings (self w0))) 0);
          negb (Qeq_bool (s_destination_newmark_beta (settings (self w0))) 0)]
  ∧ is_Some (feti_coupling (self w))
  ∧ solver_wrappers_vector (self w) = solver_wrappers_vector (self w0)
  ∧ vtk_output_wrappers_vector (self w) = Some (coupling_operations (self w0))
  ∧ is_initialized (self w) = true
  ∧ s_mapper_type (settings (self w0)) = "coupling_geometry".
Proof.
  by_wp. unfold __InitializeFetiMethod, _CreateLinearSolver.
  apply wp_bind, wp_field; simpl.
  apply wp_bind, wp_ext; intros _ e1 _; simpl.
  apply wp_bind, wp_assign.
  set (b0 := Qeq_bool (s_origin_newmark_beta _) 0).
  set (b1 := Qeq_bool (s_destination_newmark_beta _) 0).
  apply wp_bind. apply wp_mono with
    (Φ := λ _ w1, is_implicit (self w1) = Some [negb b0; true]
                  ∧ solver_wrappers_vector (self w1)
                    = solver_wrappers_vector (self w0)
                  ∧ coupling_operations (self w1)
                    = coupling_operations (self w0)).
  { apply wp_when; [intros Hb0|by intros ->].
    apply wp_bind, wp_self_attr; simpl. intros l [= <-].
    apply wp_assign; simpl. by rewrite Hb0. }
  intros _ w1 (Himp & Hvec & Hops).
  apply wp_bind. apply wp_mono with
    (Φ := λ _ w2, is_implicit (self w2) = Some [negb b0; negb b1]
                  ∧ solver_wrappers_vector (self w2)
                    = solver_wrappers_vector (self w0)
                  ∧ coupling_operations (self w2)
                    = coupling_operations (self w0)).
  { apply wp_when; [intros Hb1|by intros ->].
    apply wp_bind, wp_self_attr. intros l Hl. rewrite Himp in Hl.
    injection Hl as <-. apply wp_assign; simpl. by rewrite Hb1. }
  clear w1 Himp Hvec Hops. intros _ w2 (Himp & Hvec & Hops).
  apply wp_bind, wp_ext; intros u e2 _; simpl.
  apply wp_bind, wp_assign.
  apply wp_bind, wp_ext; intros _ e3 _; simpl.
  apply wp_bind, wp_bind, wp_field; simpl. apply wp_ext; intros _ e4 _; simpl.
  apply wp_bind, wp_ext; intros _ e5 _; simpl.
  destruct (String.eqb _ _) eqn:Hmapper;
    [|apply wp_bind, wp_raise].
  apply String.eqb_eq in Hmapper.
  apply wp_bind, wp_ext; intros _ e6 _; simpl.
  apply wp_bind, wp_ext; intros _ e7 _; simpl.
  apply wp_bind, wp_field; simpl.
  apply wp_bind, wp_assign. apply wp_assign; simpl.
  rewrite Hops. eauto 10.
Qed.

(** C8.  After a successful [__InitializeFetiMethod], in any later world
    with the same attributes, a stiffness exchange for domain [i ∈ {0, 1}]
    that returns has done the following.  If the domain's Newmark beta is
    non-zero, it has asked the solution strategy of that domain's wrapper for
    its system matrix and handed that very matrix, with index [i], to the
    coupling utility.  If the beta is zero, it has sent the explicit-mode
    signal for index [i] and nothing else: no matrix was asked for. *)
Theorem C8_stiffness_exchange (w0 w w1 w2 : World) (i : nat) (r r' : unit) :
  __InitializeFetiMethod w0 = (Ok r, w) →
  same_config (self w) (self w1) →
  i = 0%nat ∨ i = 1%nat →
  __SendStiffnessMatrixToUtility i w1 = (Ok r', w2) →
  self w2 = self w1
  ∧ ∃ u, feti_coupling (self w) = Some u
    ∧ if Qeq_bool (newmark_beta (settings (self w0)) i) 0
      then
        feti_SetEffectiveStiffnessMatrixExplicit u i (env w1)
        = (Ok tt, env w2)
        ∧ log w2
          = log w1 ++ [FetiCall (mSetEffectiveStiffnessMatrixExplicit i)]
      else
        ∃ wrapper system_matrix e1,
          solver_wrappers_vector (self w) !! i = Some wrapper
          ∧ solver__ClassName wrapper (env w1) = "StructuralMechanicsWrapper"
          ∧ strategy_GetSystemMatrix wrapper (env w1)
            = (Ok system_matrix, e1)
          ∧ feti_SetEffectiveStiffnessMatrixImplicit u system_matrix i e1
            = (Ok tt, env w2)
          ∧ log w2
            = log w1 ++ [SolverCall i mGetSystemMatrix;
                         FetiCall (mSetEffectiveStiffnessMatrixImplicit i)].
Proof.
  intros Hinit (Hvec & _ & Himp & Hfeti & _) Hi.
  destruct (__InitializeFetiMethod_attributes _ _ _ Hinit)
    as (Hflags & [u Hu] & _).
  rewrite Hflags in Himp. rewrite Hu in Hfeti.
  by_wp. unfold __SendStiffnessMatrixToUtility.
  apply wp_bind, wp_self_attr. intros flags Hf. rewrite Himp in Hf.
  injection Hf as <-.
  apply wp_bind, wp_index. intros implicit Himplicit.
  assert (implicit = negb (Qeq_bool (newmark_beta (settings (self w0)) i) 0))
    as -> by (destruct Hi as [-> | ->]; simpl in *; congruence).
  destruct (Qeq_bool (newmark_beta _ i) 0); simpl.
  - apply wp_bind, wp_self_attr. intros u' Hu'. rewrite Hfeti in Hu'.
    injection Hu' as <-.
    apply wp_ext. intros [] e' He'. simpl. eauto.
  - unfold _GetSolverStrategy.
    apply wp_bind, wp_bind, wp_field; simpl.
    apply wp_bind, wp_index. intros wrapper Hwrapper.
    apply wp_bind, wp_get.
    destruct (String.eqb _ _) eqn:Hname; [apply wp_ret|apply wp_raise].
    apply String.eqb_eq in Hname.
    apply wp_bind, wp_ext. intros system_matrix e1 Hm; simpl.
    apply wp_bind, wp_self_attr; simpl. intros u' Hu'. rewrite Hfeti in Hu'.
    injection Hu' as <-.
    apply wp_ext. intros [] e' He'. simpl.
    split; [done|]. exists u. split; [done|].
    exists wrapper, system_matrix, e1. rewrite <- Hvec, <- app_assoc. eauto.
Qed.

(** ** The log of the constructor *)

(** [only_logs P m]: whatever its outcome, [m] appends to the log calls that
    all satisfy [P]. *)
Definition only_logs {A} (P : Event → Prop) (m : M Outside A) : Prop :=
  ∀ o r o', m o = (r, o') → ∃ tr, snd o' = snd o ++ tr ∧ Forall P tr.

Lemma only_logs_ext0 {A} (P : Event → Prop) ev (op : E → outcome A * E) :
  P ev → only_logs P (ext0 ev op).
Proof.
  intros HP o r o'. unfold ext0. destruct (op (fst o)) as [r' e'].
  intros [= <- <-]. exists [ev]. split; [done|]. by constructor.
Qed.

Lemma only_logs_ret {A} (P : Event → Prop) (a : A) : only_logs P (ret a).
Proof. intros o r o' [= <- <-]. exists []. by rewrite app_nil_r. Qed.

Lemma only_logs_bind {A B} (P : Event → Prop) (m : M Outside A)
    (k : A → M Outside B) :
  only_logs P m → (∀ a, only_logs P (k a)) → only_logs P (bind m k).
Proof.
  intros Hm Hk o r o'. unfold bind.
  destruct (m o) as [[a|msg] o1] eqn:Em.
  - intros Ek. destruct (Hm _ _ _ Em) as (t1 & H1 & HP1).
    destruct (Hk a _ _ _ Ek) as (t2 & H2 & HP2).
    exists (t1 ++ t2). rewrite H2, H1, app_assoc. split; [done|].
    by apply Forall_app.
  - intros [= <- <-]. by eapply Hm.
Qed.

Lemma only_logs_for_each {A} (P : Event → Prop) (l : list A)
    (body : A → M Outside unit) :
  (∀ x, only_logs P (body x)) → only_logs P (for_each l body).
Proof.
  intros Hbody. induction l as [|x l IH]; simpl.
  - apply only_logs_ret.
  - by apply only_logs_bind.
Qed.

Lemma only_logs_collect_solver_wrappers wrappers :
  only_logs (λ ev, ∀ i, ev ≠ SolverCall i mSolveSolutionStep)
            (collect_solver_wrappers wrappers).
Proof.
  apply only_logs_bind; [by apply only_logs_ext0|]. intros _.
  apply only_logs_for_each. intros x. by apply only_logs_ext0.
Qed.

(** [int(x) == x] holds exactly for the integer-valued [x]. *)
Lemma py_int_integral (q : Q) :
  Qeq_bool (inject_Z (py_int q)) q = true ↔ ∃ z : Z, (q == inject_Z z)%Q.
Proof.
  rewrite Qeq_bool_iff. split.
  - intros Hq. by exists (py_int q).
  - intros [z Hz]. destruct q as [n d]. unfold py_int, Qeq in *. simpl in *.
    assert (n = z * Z.pos d) as -> by lia.
    rewrite Z.quot_mul by lia. lia.
Qed.

(** C5, as the code has it.  The constructor checks that [timestep_ratio] is
    integer-valued, and nothing more.  For an integer value of either sign,
    zero included, the check passes and the coupler is built with that value
    once the wrappers have been collected.  For any other value the
    constructor raises, with the message of the check when it is reached,
    and no solve has been called. *)
Theorem C5_timestep_ratio_check (st : Settings)
    (wrappers : list (string * nat)) (operations : list nat) (o : Outside) :
  let q := s_timestep_ratio st in
  ((∃ z : Z, (q == inject_Z z)%Q) →
     check_timestep_ratio q o = (Ok (py_int q), o)
     ∧ (inject_Z (py_int q) == q)%Q
     ∧ ∀ o1, collect_solver_wrappers wrappers o = (Ok tt, o1) →
             ∃ c, __init__ st wrappers operations o = (Ok c, o1)
                  ∧ timestep_ratio c = py_int q)
  ∧ (¬ (∃ z : Z, (q == inject_Z z)%Q) →
     (∃ msg o' tr, __init__ st wrappers operations o = (Raise msg, o')
                   ∧ snd o' = snd o ++ tr
                   ∧ ∀ i, SolverCall i mSolveSolutionStep ∉ tr)
     ∧ ∀ o1, collect_solver_wrappers wrappers o = (Ok tt, o1) →
             __init__ st wrappers operations o
             = (Raise "An integer timestep_ratio must be specified in the CoSim parameters file.",
                o1)).
Proof.
  intros q. unfold __init__, check_timestep_ratio, bind. fold q. split.
  - intros Hint. apply py_int_integral in Hint as Hb. rewrite Hb. simpl.
    split; [done|]. split; [by apply Qeq_bool_iff|].
    intros o1 ->. eauto.
  - intros Hint.
    assert (Qeq_bool (inject_Z (py_int q)) q = false) as Hb.
    { apply not_true_is_false. by rewrite py_int_integral. }
    rewrite Hb. simpl. split; [|by intros o1 ->].
    destruct (collect_solver_wrappers wrappers o) as [[[]|msg] o1] eqn:Hc;
      destruct (only_logs_collect_solver_wrappers _ _ _ _ Hc)
        as (tr & Hlog & Htr);
      eexists _, o1, tr; (split; [done|]); (split; [done|]);
      intros i Hi; rewrite Forall_forall in Htr; by eapply Htr.
Qed.

End Methods.

(** ** Solver results are discarded *)

(** The same collaborators, except that every boolean a solver wrapper
    returns from [SolveSolutionStep] is replaced by [g] of it. *)
Definition override_solve_result {E Matrix} (g : nat → bool → bool)
    (K : Kratos E Matrix) : Kratos E Matrix := {|
  base___init__ := base___init__;
  base_InitializeSolutionStep := base_InitializeSolutionStep;
  solver_AddNodalSolutionStepVariable := solver_AddNodalSolutionStepVariable;
  solver_AdvanceInTime := solver_AdvanceInTime;
  solver_InitializeSolutionStep := solver_InitializeSolutionStep;
  solver_Predict := solver_Predict;
  solver_SolveSolutionStep := λ h e,
    match solver_SolveSolutionStep h e with
    | (Ok b, e') => (Ok (g h b), e')
    | (Raise msg, e') => (Raise msg, e')
    end;
  solver_FinalizeSolutionStep := solver_FinalizeSolutionStep;
  solver_OutputSolutionStep := solver_OutputSolutionStep;
  solver__ClassName := solver__ClassName;
  strategy_GetSystemMatrix := strategy_GetSystemMatrix;
  mapper_Create := mapper_Create;
  linear_solver_Create := linear_solver_Create;
  feti_Create := feti_Create;
  feti_SetOriginAndDestinationDomainsWithInterfaceModelParts :=
    feti_SetOriginAndDestinationDomainsWithInterfaceModelParts;
  feti_SetLinearSolver := feti_SetLinearSolver;
  feti_SetMappingMatrix := feti_SetMappingMatrix;
  feti_SetOriginInitialKinematics := feti_SetOriginInitialKinematics;
  feti_SetEffectiveStiffnessMatrixImplicit :=
    feti_SetEffectiveStiffnessMatrixImplicit;
  feti_SetEffectiveStiffnessMatrixExplicit :=
    feti_SetEffectiveStiffnessMatrixExplicit;
  feti_EquilibrateDomains := feti_EquilibrateDomains;
  vtk_InitializeSolutionStep := vtk_InitializeSolutionStep;
  vtk_FinalizeSolutionStep := vtk_FinalizeSolutionStep;
|}.

Lemma bind_cong {W A B} (m : M W A) (k k' : A → M W B) w :
  (∀ a w1, k a w1 = k' a w1) → bind m k w = bind m k' w.
Proof. intros Hk. unfold bind. by destruct (m w) as [[a|msg] w1]. Qed.

Lemma for_each_cong {W A} (l : list A) (body body' : A → M W unit) w :
  (∀ x w1, body x w1 = body' x w1) →
  for_each l body w = for_each l body' w.
Proof.
  intros Hbody. revert w. induction l as [|x l IH]; intros w; [done|].
  simpl. unfold bind. rewrite Hbody.
  by destruct (body' x w) as [[a|msg] w1].
Qed.

Section Discard.
Context {E Matrix : Type} (K : Kratos E Matrix) (g : nat → bool → bool).

Let K' : Kratos E Matrix := override_solve_result g K.

Lemma solve_result_unused {B} ev h (k : M (World (E := E)) B) w :
  bind (ext ev (solver_SolveSolutionStep (Kratos := K') h)) (λ _, k) w
  = bind (ext ev (solver_SolveSolutionStep (Kratos := K) h)) (λ _, k) w.
Proof.
  unfold bind, ext. simpl.
  by destruct (solver_SolveSolutionStep h (env w)) as [[b|msg] e'].
Qed.

Lemma substep_override solverB sub_timestep w :
  substep (K := K') solverB sub_timestep w
  = substep (K := K) solverB sub_timestep w.
Proof.
  unfold substep. apply bind_cong. intros _ w1. apply solve_result_unused.
Qed.

Lemma SolveSolutionStep_override w :
  SolveSolutionStep (K := K') w = SolveSolutionStep (K := K) w.
Proof.
  unfold SolveSolutionStep.
  apply bind_cong; intros vec w1. apply bind_cong; intros solverA w2.
  rewrite solve_result_unused. apply bind_cong; intros _ w3.
  apply bind_cong; intros _ w4. apply bind_cong; intros vec' w5.
  apply bind_cong; intros solverB w6. apply bind_cong; intros ratio w7.
  unfold bind. rewrite (for_each_cong _ _ (substep (K := K) solverB));
    [done|apply substep_override].
Qed.

(** C10.  A call of [SolveSolutionStep] that returns, returns [True]; and
    the booleans the two domains return from their own [SolveSolutionStep]
    play no part: replacing them by anything else changes neither the
    outcome of the coupler's step nor the world it leaves. *)
Theorem C10_success_indicator (w : World) :
  (∀ r w', SolveSolutionStep (K := K) w = (Ok r, w') → r = true)
  ∧ SolveSolutionStep (K := override_solve_result g K) w
    = SolveSolutionStep (K := K) w.
Proof.
  split.
  - intros r w'. apply SolveSolutionStep_returns_true.
  - apply SolveSolutionStep_override.
Qed.

End Discard.

(** ** The protocol of a coupled step, for any ratio and any outcome *)

Section Protocol.
Context {E Matrix : Type} {K : Kratos E Matrix}.
Local Open Scope py_scope.

Lemma wpx_ext {A} ev (op : E → outcome A * E) (Φ : A → World → Prop)
    (Ψ : string → World → Prop) w :
  (∀ a e', op (env w) = (Ok a, e') →
           Φ a {| self := self w; env := e'; log := log w ++ [ev] |}) →
  (∀ msg e', op (env w) = (Raise msg, e') →
             Ψ msg {| self := self w; env := e'; log := log w ++ [ev] |}) →
  wpx (ext ev op) Φ Ψ w.
Proof.
  intros HΦ HΨ. unfold wpx, ext.
  destruct (op (env w)) as [[a|msg] e']; auto.
Qed.

Lemma wpx_assign (f : Coupler → Coupler) (Φ : unit → World → Prop)
    (Ψ : string → World → Prop) w :
  Φ tt {| self := f (self w); env := env w; log := log w |} →
  wpx (assign (E := E) f) Φ Ψ w.
Proof. done. Qed.

Lemma wpx_field {A} (f : Coupler → A) (Φ : A → World → Prop)
    (Ψ : string → World → Prop) w :
  Φ (f (self w)) w → wpx (field (E := E) f) Φ Ψ w.
Proof. done. Qed.

Lemma wpx_self_attr {A} name (f : Coupler → option A)
    (Φ : A → World → Prop) (Ψ : string → World → Prop) w :
  (∀ a, f (self w) = Some a → Φ a w) →
  (f (self w) = None → Ψ ("AttributeError: " +:+ name) w) →
  wpx (self_attr (E := E) name f) Φ Ψ w.
Proof. intros HΦ HΨ. by apply wpx_attr. Qed.

(** What lies between two consecutive solves of domain B. *)
Definition between_substeps (c : Coupler) : list Event :=
  leave_substep c ++ enter_substep c ++ solve_B c.

(** The calls of the substeps [j, j+1, ..., timestep_ratio]. *)
Lemma substep_calls_from (c : Coupler) (d : nat) (j : Z) :
  1 ≤ j → timestep_ratio c = j + Z.of_nat d →
  concat (substep_calls c <$> seqZ j (Z.of_nat d + 1))
  = (if 1 <? j then enter_substep c else [])
    ++ solve_B c ++ concat (replicate d (between_substeps c)).
Proof.
  revert j. induction d as [|d IH]; intros j Hj Hratio.
  - rewrite seqZ_cons by lia. rewrite seqZ_nil by lia.
    simpl. unfold substep_calls.
    replace (j =? timestep_ratio c) with true
      by (symmetry; apply Z.eqb_eq; lia).
    by rewrite !app_nil_r.
  - rewrite seqZ_cons by lia.
    replace (Z.pred (Z.of_nat (Datatypes.S d) + 1)) with (Z.of_nat d + 1)
      by lia.
    rewrite fmap_cons, concat_cons. rewrite (IH (Z.succ j)) by lia.
    change (replicate (Datatypes.S d) (between_substeps c))
      with (between_substeps c :: replicate d (between_substeps c)).
    rewrite concat_cons.
    unfold substep_calls at 1.
    replace (j =? timestep_ratio c) with false
      by (symmetry; apply Z.eqb_neq; lia).
    replace (1 <? Z.succ j) with true by (symmetry; apply Z.ltb_lt; lia).
    unfold between_substeps. by rewrite <- !app_assoc.
Qed.

(** X1.  A step that returns, for any ratio of at least one: domain A is
    solved and submitted once; domain B is solved, submitted and equilibrated
    [timestep_ratio] times; between two consecutive solves of B the coupler
    finalizes and outputs the substep and advances, initializes and predicts
    the next.  The step ends with the last equilibration: the last substep is
    neither finalized nor output by the coupler.

    The log lists these calls, and the native state goes from [env w] to
    [env w'] through them and nothing else, each made on the object the
    coupler holds for it: domain A is the wrapper at position 0 of
    [solver_wrappers_vector], domain B the wrapper at position 1, on which
    the [timestep_ratio] substeps are taken in turn, and the coupling utility
    is [feti_coupling].  Each advance of domain B starts from the time
    the one before it returned, the first from [solverB_time]. *)
Theorem SolveSolutionStep_any_ratio (w w' : World) (r : bool) :
  1 ≤ timestep_ratio (self w) →
  SolveSolutionStep w = (Ok r, w') →
  let c := self w in
  let n := Z.to_nat (timestep_ratio c) in
  let tr := ([SolverCall 0 mSolveSolutionStep] ++ stiffness_submit c 0
             ++ solve_B c)
            ++ concat (replicate (n - 1)
                 (leave_substep c ++ enter_substep c ++ solve_B c)) in
  log w' = log w ++ tr
  ∧ count (SolverCall 0 mSolveSolutionStep) tr = 1%nat
  ∧ count_submit 0 tr = 1%nat
  ∧ count (SolverCall 1 mSolveSolutionStep) tr = n
  ∧ count_submit 1 tr = n
  ∧ count (FetiCall mEquilibrateDomains) tr = n
  ∧ count (SolverCall 1 mAdvanceInTime) tr = (n - 1)%nat
  ∧ count (SolverCall 1 mInitializeSolutionStep) tr = (n - 1)%nat
  ∧ count (SolverCall 1 mPredict) tr = (n - 1)%nat
  ∧ count (SolverCall 1 mFinalizeSolutionStep) tr = (n - 1)%nat
  ∧ count (SolverCall 1 mOutputSolutionStep) tr = (n - 1)%nat
  ∧ last tr = Some (FetiCall mEquilibrateDomains)
  ∧ ∃ solverA solverB u e1,
      solver_wrappers_vector c !! 0%nat = Some solverA
      ∧ solver_wrappers_vector c !! 1%nat = Some solverB
      ∧ feti_coupling c = Some u
      ∧ solves c 0 solverA u (env w) e1
      ∧ takes_substeps c solverB u (range 1 (timestep_ratio c + 1))
          (solverB_time c, e1) (solverB_time (self w'), env w')
      ∧ length (range 1 (timestep_ratio c + 1)) = n.
Proof.
  intros Hratio Hrun c n tr.
  destruct (emits_SolveSolutionStep c w r w' (same_config_refl _) Hrun)
    as (_ & Hlog & _ & [b0 Hb0] & Hb1).
  assert (∃ solverA solverB u e1,
            solver_wrappers_vector c !! 0%nat = Some solverA
            ∧ solver_wrappers_vector c !! 1%nat = Some solverB
            ∧ feti_coupling c = Some u
            ∧ solves c 0 solverA u (env w) e1
            ∧ takes_substeps c solverB u (range 1 (timestep_ratio c + 1))
                (solverB_time c, e1) (solverB_time (self w'), env w')
            ∧ length (range 1 (timestep_ratio c + 1)) = n) as Hchain.
  { destruct (SolveSolutionStep_run w w' r Hrun)
      as (solverA & solverB & u & e1 & HA & HB & Hu & Hsolves & Htakes).
    exists solverA, solverB, u, e1. split_and!; try done.
    unfold range. rewrite length_seqZ. subst n. f_equal. lia. }
  fold c in Hratio.
  assert (range 1 (timestep_ratio c + 1) = seqZ 1 (Z.of_nat (n - 1) + 1))
    as Hrange.
  { unfold range. f_equal. lia. }
  rewrite Hrange in Hlog, Hb1.
  destruct Hb1 as [b1 Hb1]; [rewrite seqZ_cons by lia; done|].
  rewrite substep_calls_from in Hlog by lia.
  change (if 1 <? 1 then enter_substep c else []) with (@nil Event) in Hlog.
  rewrite app_nil_l in Hlog.
  split.
  { rewrite Hlog. subst tr. unfold between_substeps.
    by rewrite <- !app_assoc. }
  assert (1 ≤ n)%nat as Hn by lia.
  subst tr. unfold count, count_submit.
  unfold solve_B, enter_substep, leave_substep, stiffness_submit.
  rewrite Hb0, Hb1.
  destruct b0, b1, (has_two_vtk c);
    (repeat (split;
       [erewrite length_filter_replicated;
          [|vm_compute; reflexivity|vm_compute; reflexivity]; lia|]));
    (split; [by apply last_replicated|exact Hchain]).
Qed.

(** X2.  A ratio of zero or less, which the constructor accepts, leaves domain
    B out of the step: a call that returns has solved domain A, submitted its
    stiffness, and called nothing else; no equilibration takes place. *)
Theorem SolveSolutionStep_nonpositive_ratio (w w' : World) (r : bool) :
  timestep_ratio (self w) ≤ 0 →
  SolveSolutionStep w = (Ok r, w') →
  r = true
  ∧ log w' = log w ++ [SolverCall 0 mSolveSolutionStep]
                   ++ stiffness_submit (self w) 0
  ∧ ∀ ev, ev ∈ [SolverCall 0 mSolveSolutionStep]
                ++ stiffness_submit (self w) 0 →
          ev ≠ FetiCall mEquilibrateDomains ∧ ∀ m, ev ≠ SolverCall 1 m.
Proof.
  intros Hratio Hrun.
  destruct (emits_SolveSolutionStep (self w) w r w' (same_config_refl _) Hrun)
    as (_ & Hlog & -> & _ & _).
  unfold range in Hlog. rewrite seqZ_nil in Hlog by lia.
  simpl in Hlog. rewrite app_nil_r in Hlog.
  split; [done|]. split; [done|].
  intros ev Hev. unfold stiffness_submit in Hev.
  destruct (is_implicit (self w) ≫= _) as [[]|];
    set_unfold; naive_solver.
Qed.

(** *** A step that returns

    The theorems above speak of a call that returns.  This one gives
    conditions under which it does.  They bear on the objects the coupler
    holds and on nothing else: the wrappers at positions 0 and 1 of
    [solver_wrappers_vector], the coupling utility [feti_coupling], the
    output wrapper at position 1 when there are two, the matrix a solution
    strategy has just returned, the times domain B goes through.  Nothing is
    asked of a native call on any other object, and nothing of the calls a
    step with the given ratio does not make. *)













(** *** Refusals *)

Lemma wpx_raises {W A} (m : M W A) (msg : string) (w w0 : W) :
  wpx m (λ _ _, False) (λ msg' w', msg' = msg ∧ w' = w0) w →
  m w = (Raise msg, w0).
Proof.
  unfold wpx. destruct (m w) as [[a|msg'] w']; [done|]. by intros [-> ->].
Qed.

(** X4.  The stiffness exchange of an implicit domain whose wrapper is not a
    [StructuralMechanicsWrapper] raises, with the name of the wrapper's class
    in the message; no matrix has been asked for, nothing has been sent to the
    coupling utility, and the coupler is unchanged. *)
Theorem unsupported_wrapper_refused (i : nat) (w : World) (flags : list bool)
    (h : nat) :
  is_implicit (self w) = Some flags → flags !! i = Some true →
  solver_wrappers_vector (self w) !! i = Some h →
  solver__ClassName h (env w) ≠ "StructuralMechanicsWrapper" →
  __SendStiffnessMatrixToUtility i w
  = (Raise ("_GetSolverStrategy not implemented for solver wrapper = "
            +:+ solver__ClassName h (env w)), w).
Proof.
  intros Hflags Hi Hh Hname. apply wpx_raises.
  unfold __SendStiffnessMatrixToUtility, _GetSolverStrategy.
  apply wpx_bind, wpx_self_attr; [|by rewrite Hflags].
  intros flags' Hflags'. rewrite Hflags in Hflags'. injection Hflags' as <-.
  apply wpx_bind, wpx_index; [|by rewrite Hi].
  intros b Hb. rewrite Hi in Hb. injection Hb as <-.
  apply wpx_bind, wpx_bind, wpx_field.
  apply wpx_bind, wpx_index; [|by rewrite Hh].
  intros h' Hh'. rewrite Hh in Hh'. injection Hh' as <-.
  apply wpx_bind, wpx_get.
  destruct (String.eqb _ _) eqn:Heq; [by apply String.eqb_eq in Heq|].
  by apply wpx_raise.
Qed.

(** X5.  The wrapper of domain A is only examined after domain A has been
    solved: with an implicit domain A whose wrapper is not structural, the
    step raises once that solve has returned, and domain B is never called. *)
Theorem SolveSolutionStep_unsupported_wrapper (w : World) (flags : list bool)
    (h : nat) (b : bool) (e1 : E) :
  is_implicit (self w) = Some flags → flags !! 0%nat = Some true →
  solver_wrappers_vector (self w) !! 0%nat = Some h →
  solver_SolveSolutionStep h (env w) = (Ok b, e1) →
  solver__ClassName h e1 ≠ "StructuralMechanicsWrapper" →
  SolveSolutionStep w
  = (Raise ("_GetSolverStrategy not implemented for solver wrapper = "
            +:+ solver__ClassName h e1),
     {| self := self w; env := e1;
        log := log w ++ [SolverCall 0 mSolveSolutionStep] |}).
Proof.
  intros Hflags Hi Hh Hsolve Hname. apply wpx_raises.
  unfold SolveSolutionStep.
  apply wpx_bind, wpx_field.
  apply wpx_bind, wpx_index; [|by rewrite Hh].
  intros h' Hh'. rewrite Hh in Hh'. injection Hh' as <-.
  apply wpx_bind, wpx_ext; rewrite Hsolve; [|done]. intros b' e' [= <- <-].
  apply wpx_bind.
  unfold __SendStiffnessMatrixToUtility, _GetSolverStrategy.
  apply wpx_bind, wpx_self_attr; [|by cbn; rewrite Hflags].
  intros flags' Hflags'. cbn in Hflags'. rewrite Hflags in Hflags'.
  injection Hflags' as <-.
  apply wpx_bind, wpx_index; [|by rewrite Hi].
  intros b' Hb. rewrite Hi in Hb. injection Hb as <-.
  apply wpx_bind, wpx_bind, wpx_field. cbn.
  apply wpx_bind, wpx_index; [|by rewrite Hh].
  intros h' Hh'. rewrite Hh in Hh'. injection Hh' as <-.
  apply wpx_bind, wpx_get. cbn.
  destruct (String.eqb _ _) eqn:Heq; [by apply String.eqb_eq in Heq|].
  by apply wpx_raise.
Qed.

(** X6.  Before the FETI method has been set up ([is_implicit] does not exist,
    as after [__init__]), a step cannot complete: it raises, having called at
    most the solve of domain A. *)
Theorem SolveSolutionStep_before_setup (w w' : World) (r : outcome bool) :
  is_implicit (self w) = None →
  SolveSolutionStep w = (r, w') →
  (∃ msg, r = Raise msg) ∧ self w' = self w
  ∧ (log w' = log w ∨ log w' = log w ++ [SolverCall 0 mSolveSolutionStep]).
Proof.
  intros Hflags Hrun.
  cut (wpx SolveSolutionStep (λ _ _, False)
         (λ _ w', self w' = self w
                  ∧ (log w' = log w
                     ∨ log w' = log w ++ [SolverCall 0 mSolveSolutionStep]))
         w).
  { intros H. apply (wpx_elim _ _ _ _ _ _ H) in Hrun.
    destruct r as [a|msg]; [done|]. split; [by exists msg|done]. }
  unfold SolveSolutionStep.
  apply wpx_bind, wpx_field.
  apply wpx_bind, wpx_index; [|auto]. intros h _.
  apply wpx_bind, wpx_ext; [|by cbn; auto]. intros b e1 _.
  apply wpx_bind. unfold __SendStiffnessMatrixToUtility.
  apply wpx_bind, wpx_self_attr; cbn; [by rewrite Hflags|auto].
Qed.

(** *** [AdvanceInTime] *)

(** X7.  With fewer than two wrappers [AdvanceInTime] raises [IndexError]
    before any solver is advanced, the coupler's time already reset to 0.
    With two wrappers whose own [AdvanceInTime] return, it returns: the value
    of domain A when that is non-zero, 0 otherwise. *)
Theorem AdvanceInTime_outcome (current_time : Q) (w : World) :
  ((length (solver_wrappers_vector (self w)) < 2)%nat →
   AdvanceInTime current_time w
   = (Raise "IndexError: list index out of range",
      {| self := set_time 0 (self w); env := env w; log := log w |}))
  ∧ ∀ solverA solverB tB e1 tA e2,
      solver_wrappers_vector (self w) !! 0%nat = Some solverA →
      solver_wrappers_vector (self w) !! 1%nat = Some solverB →
      solver_AdvanceInTime solverB current_time (env w) = (Ok tB, e1) →
      solver_AdvanceInTime solverA current_time e1 = (Ok tA, e2) →
      ∃ w', AdvanceInTime current_time w
            = (Ok (if Qeq_bool tA 0 then 0%Q else tA), w')
            ∧ env w' = e2
            ∧ log w' = log w ++ [SolverCall 1 mAdvanceInTime;
                                 SolverCall 0 mAdvanceInTime].
Proof.
  split.
  - intros Hlen. apply wpx_raises. unfold AdvanceInTime.
    apply wpx_bind, wpx_assign. apply wpx_bind, wpx_field. cbn.
    apply wpx_bind, wpx_index; [|done].
    intros h Hh. apply lookup_lt_Some in Hh. lia.
  - intros solverA solverB tB e1 tA e2 HA HB HtB HtA.
    cut (wpx (AdvanceInTime current_time)
           (λ r w', r = (if Qeq_bool tA 0 then 0%Q else tA) ∧ env w' = e2
                    ∧ log w' = log w ++ [SolverCall 1 mAdvanceInTime;
                                         SolverCall 0 mAdvanceInTime])
           (λ _ _, False) w).
    { intros H. apply wpx_returns in H as (r & w' & Hrun & -> & ? & ?).
      eauto. }
    unfold AdvanceInTime.
    apply wpx_bind, wpx_assign. apply wpx_bind, wpx_field. cbn.
    apply wpx_bind, wpx_index; [|by rewrite HB].
    intros h Hh. rewrite HB in Hh. injection Hh as <-.
    apply wpx_bind, wpx_ext; cbn; rewrite HtB; [|done].
    intros ? ? [= <- <-].
    apply wpx_bind, wpx_assign. apply wpx_bind, wpx_field. cbn.
    apply wpx_bind, wpx_index; [|by rewrite HA].
    intros h Hh. rewrite HA in Hh. injection Hh as <-.
    apply wpx_bind, wpx_ext; cbn; rewrite HtA; [|done].
    intros ? ? [= <- <-].
    apply wpx_bind, wpx_when.
    + intros Hnz. apply negb_true_iff in Hnz. rewrite Hnz.
      apply wpx_bind, wpx_self_attr; cbn; [|done]. intros t [= <-].
      apply wpx_when; [intros _|done].
      apply wpx_assign, wpx_self_attr; cbn; [|done]. intros r [= <-].
      by rewrite <- app_assoc.
    + intros Hz. apply negb_false_iff in Hz. rewrite Hz.
      apply wpx_self_attr; cbn; [|done]. intros r [= <-].
      by rewrite <- app_assoc.
Qed.

(** *** [InitializeSolutionStep] and the set-up of the FETI method *)


(** The native calls [__InitializeFetiMethod] makes before it looks at the
    mapper type. *)
Definition setup_calls : list Event :=
  [FetiCall mCreateMapper;
   FetiCall mFetiDynamicCouplingUtilities;
   FetiCall mSetOriginAndDestinationDomainsWithInterfaceModelParts;
   FetiCall mCreateLinearSolver;
   FetiCall mSetLinearSolver].






(** X21.  The order of a set-up that returns: the mapper, the coupling
    utility, its domains, the linear solver (created after the setting of the
    configuration), the mapping matrix and the initial kinematics of the
    origin, and nothing else.  The utility kept in [feti_coupling] is the one
    that was created, and every later call was made on it. *)
Theorem __InitializeFetiMethod_order (w w' : World) (r : unit) :
  __InitializeFetiMethod w = (Ok r, w') →
  log w' = log w ++ setup_calls
                 ++ [FetiCall mSetMappingMatrix;
                     FetiCall mSetOriginInitialKinematics]
  ∧ ∃ u e1 e2 e3 e4 e5 e6,
      feti_coupling (self w') = Some u
      ∧ mapper_Create (env w) = (Ok tt, e1)
      ∧ feti_Create e1 = (Ok u, e2)
      ∧ feti_SetOriginAndDestinationDomainsWithInterfaceModelParts u e2
        = (Ok tt, e3)
      ∧ linear_solver_Create
          (s_linear_solver_has_solver_type (settings (self w))) e3
        = (Ok tt, e4)
      ∧ feti_SetLinearSolver u e4 = (Ok tt, e5)
      ∧ feti_SetMappingMatrix u e5 = (Ok tt, e6)
      ∧ feti_SetOriginInitialKinematics u e6 = (Ok tt, env w').
Proof.
  by_wp. unfold __InitializeFetiMethod, _CreateLinearSolver.
  apply wp_bind, wp_field.
  apply wp_bind, wp_ext; intros [] e1 Hmapper.
  apply wp_bind, wp_assign.
  apply wp_bind. apply wp_mono with
    (Φ := λ _ w1, log w1 = log w ++ [FetiCall mCreateMapper]
                  ∧ env w1 = e1 ∧ settings (self w1) = settings (self w)).
  { apply wp_when; [intros _|done].
    apply wp_bind, wp_self_attr. intros l _. by apply wp_assign. }
  intros _ w1 (Hlog1 & Henv1 & Hst1).
  apply wp_bind. apply wp_mono with
    (Φ := λ _ w2, log w2 = log w ++ [FetiCall mCreateMapper]
                  ∧ env w2 = e1 ∧ settings (self w2) = settings (self w)).
  { apply wp_when; [intros _|done].
    apply wp_bind, wp_self_attr. intros l _. by apply wp_assign. }
  clear w1 Hlog1 Henv1 Hst1. intros _ w2 (Hlog2 & Henv2 & Hst2).
  apply wp_bind, wp_ext. rewrite Henv2. intros u e2 Hcreate.
  apply wp_bind, wp_assign.
  apply wp_bind, wp_ext. intros [] e3 Hdomains.
  apply wp_bind, wp_bind, wp_field. apply wp_ext. intros [] e4 Hlinear.
  apply wp_bind, wp_ext. intros [] e5 Hset.
  destruct (String.eqb _ _); [|apply wp_bind, wp_raise].
  apply wp_bind, wp_ext. intros [] e6 Hmatrix.
  apply wp_bind, wp_ext. intros [] e7 Hkinematics.
  apply wp_bind, wp_field. apply wp_bind, wp_assign. apply wp_assign.
  cbn [self env log set_is_initialized set_vtk_output_wrappers_vector
       set_feti_coupling feti_coupling settings] in *.
  split; [by rewrite Hlog2, <- !app_assoc|].
  exists u, e1, e2, e3, e4, e5, e6. rewrite Hst2 in Hlinear. by split_and!.
Qed.

(** *** The constructor *)



End Protocol.

(** ** A small instance of the collaborators

    Solver wrappers that answer from a fixed table, and a coupling utility
    that records the stiffness data it receives.  A system matrix is a
    number; the matrix of the wrapper with handle [h] is [100 + h]. *)

Record Toy : Type := {
  toy_class_name : nat → string;
  toy_time : nat → Q → Q;
  toy_solve_result : nat → bool;
  toy_received : list (nat * option nat);
}.

Definition toy_receive (x : nat * option nat) (e : Toy) : Toy :=
  {| toy_class_name := toy_class_name e; toy_time := toy_time e;
     toy_solve_result := toy_solve_result e;
     toy_received := toy_received e ++ [x] |}.

Definition toy_ok {A} (a : A) (e : Toy) : outcome A * Toy := (Ok a, e).

Definition toy_kratos : Kratos Toy nat := {|
  base___init__ := toy_ok tt;
  base_InitializeSolutionStep := toy_ok tt;
  solver_AddNodalSolutionStepVariable := λ _, toy_ok tt;
  solver_AdvanceInTime := λ h t e, (Ok (toy_time e h t), e);
  solver_InitializeSolutionStep := λ _, toy_ok tt;
  solver_Predict := λ _, toy_ok tt;
  solver_SolveSolutionStep := λ h e, (Ok (toy_solve_result e h), e);
  solver_FinalizeSolutionStep := λ _, toy_ok tt;
  solver_OutputSolutionStep := λ _, toy_ok tt;
  solver__ClassName := λ h e, toy_class_name e h;
  strategy_GetSystemMatrix := λ h, toy_ok (100 + h)%nat;
  mapper_Create := toy_ok tt;
  linear_solver_Create := λ _, toy_ok tt;
  feti_Create := toy_ok 7%nat;
  feti_SetOriginAndDestinationDomainsWithInterfaceModelParts :=
    λ _, toy_ok tt;
  feti_SetLinearSolver := λ _, toy_ok tt;
  feti_SetMappingMatrix := λ _, toy_ok tt;
  feti_SetOriginInitialKinematics := λ _, toy_ok tt;
  feti_SetEffectiveStiffnessMatrixImplicit :=
    λ _ m i e, (Ok tt, toy_receive (i, Some m) e);
  feti_SetEffectiveStiffnessMatrixExplicit :=
    λ _ i e, (Ok tt, toy_receive (i, None) e);
  feti_EquilibrateDomains := λ _, toy_ok tt;
  vtk_InitializeSolutionStep := λ _, toy_ok tt;
  vtk_FinalizeSolutionStep := λ _, toy_ok tt;
|}.

#[local] Existing Instance toy_kratos.

(** Two structural wrappers whose solves report failure.  Domain A (handle
    10) does not track time; domain B (handle 20) advances by 1/2. *)
Definition toy_env : Toy := {|
  toy_class_name := λ _, "StructuralMechanicsWrapper";
  toy_time := λ h t, if (h =? 20)%nat then (t + (1 # 2))%Q else 0%Q;
  toy_solve_result := λ _, false;
  toy_received := [];
|}.

(** Domain A implicit (default beta), domain B explicit. *)
Definition toy_settings (ratio : Q) : Settings := {|
  s_origin_newmark_beta := -1;
  s_destination_newmark_beta := 0;
  s_timestep_ratio := ratio;
  s_linear_solver_has_solver_type := false;
  s_mapper_type := "coupling_geometry";
|}.

Definition toy_wrappers : list (string * nat) :=
  [("origin", 10%nat); ("destination", 20%nat)].

(** The world after the constructor, if it returns. *)
Definition toy_constructed (ratio : Q) : option (World (E := Toy)) :=
  match __init__ (K := toy_kratos) (toy_settings ratio) toy_wrappers []
                 (toy_env, []) with
  | (Ok c, (e, l)) => Some {| self := c; env := e; log := l |}
  | (Raise _, _) => None
  end.

(** The world a method leaves, whatever its outcome. *)
Definition after {A} (m : M (World (E := Toy)) A)
    (w : option (World (E := Toy))) : option (World (E := Toy)) :=
  (λ w, snd (m w)) <$> w.

(** The world in which the first solve of a run takes place. *)
Definition toy_ready (ratio : Q) : option (World (E := Toy)) :=
  after (InitializeSolutionStep (K := toy_kratos))
    (after (AdvanceInTime (K := toy_kratos) 0)
       (toy_constructed ratio)).

Definition toy_world_3 : World (E := Toy) := {|
  self := {|
    settings := toy_settings 3;
    solver_wrappers := toy_wrappers;
    coupling_operations := [];
    solver_wrappers_vector := [10%nat; 20%nat];
    timestep_ratio := 3;
    is_initialized := true;
    time := Some 0%Q;
    solverB_time := Some (0 + (1 # 2))%Q;
    is_implicit := Some [true; false];
    feti_coupling := Some 7%nat;
    vtk_output_wrappers_vector := Some [];
  |};
  env := toy_env;
  log := [BaseCall "__init__";
          SolverCall 0 mAddNodalSolutionStepVariable;
          SolverCall 1 mAddNodalSolutionStepVariable;
          SolverCall 1 mAdvanceInTime;
          SolverCall 0 mAdvanceInTime;
          BaseCall "InitializeSolutionStep";
          FetiCall mCreateMapper;
          FetiCall mFetiDynamicCouplingUtilities;
          FetiCall mSetOriginAndDestinationDomainsWithInterfaceModelParts;
          FetiCall mCreateLinearSolver;
          FetiCall mSetLinearSolver;
          FetiCall mSetMappingMatrix;
          FetiCall mSetOriginInitialKinematics];
|}.

Example toy_ready_3 : toy_ready 3 = Some toy_world_3.
Proof. vm_compute. reflexivity. Qed.

Definition toy_solved_3 : World (E := Toy) :=
  snd (SolveSolutionStep (K := toy_kratos) toy_world_3).

(** C1 on the small instance: domain A implicit, domain B explicit, no
    output wrappers.  The coupling utility has received the matrix of the
    wrapper 10 for domain 0 and three explicit-mode signals for domain 1, and
    the wrapper 20, the one that tracks time, has advanced twice. *)
Lemma C1_solve_step_ratio_three_witness :
  timestep_ratio (self toy_world_3) = 3
  ∧ SolveSolutionStep (K := toy_kratos) toy_world_3 = (Ok true, toy_solved_3)
  ∧ log toy_solved_3
    = log toy_world_3
      ++ [SolverCall 0 mSolveSolutionStep;
          SolverCall 0 mGetSystemMatrix;
          FetiCall (mSetEffectiveStiffnessMatrixImplicit 0);
          (* substep 1 *)
          SolverCall 1 mSolveSolutionStep;
          FetiCall (mSetEffectiveStiffnessMatrixExplicit 1);
          FetiCall mEquilibrateDomains;
          SolverCall 1 mFinalizeSolutionStep;
          SolverCall 1 mOutputSolutionStep;
          (* substep 2 *)
          SolverCall 1 mAdvanceInTime;
          SolverCall 1 mInitializeSolutionStep;
          SolverCall 1 mPredict;
          SolverCall 1 mSolveSolutionStep;
          FetiCall (mSetEffectiveStiffnessMatrixExplicit 1);
          FetiCall mEquilibrateDomains;
          SolverCall 1 mFinalizeSolutionStep;
          SolverCall 1 mOutputSolutionStep;
          (* substep 3 *)
          SolverCall 1 mAdvanceInTime;
          SolverCall 1 mInitializeSolutionStep;
          SolverCall 1 mPredict;
          SolverCall 1 mSolveSolutionStep;
          FetiCall (mSetEffectiveStiffnessMatrixExplicit 1);
          FetiCall mEquilibrateDomains]
  ∧ solverB_time (self toy_solved_3)
    = Some (0 + (1 # 2) + (1 # 2) + (1 # 2))%Q
  ∧ toy_received (env toy_solved_3)
    = [(0, Some 110); (1, None); (1, None); (1, None)]%nat.
Proof.
  assert (SolveSolutionStep (K := toy_kratos) toy_world_3
          = (Ok true, toy_solved_3)) as Hrun by (vm_compute; reflexivity).
  split; [reflexivity|]. split; [exact Hrun|].
  pose proof (proj1 (C1_solve_step_ratio_three (K := toy_kratos)
                       toy_world_3 toy_solved_3 true eq_refl Hrun)) as Hlog.
  split; [vm_compute in Hlog; vm_compute; exact Hlog|].
  split; vm_compute; reflexivity.
Defined.

(** The world after the constructor with [timestep_ratio = 3]. *)
Definition toy_constructed_3 : World (E := Toy) :=
  default toy_world_3 (toy_constructed 3).

Definition toy_advanced_3 : World (E := Toy) :=
  snd (AdvanceInTime (K := toy_kratos) 0 toy_constructed_3).

(** C2 on the small instance: domain B returns 1/2, domain A returns 0, and
    the coupler's time is 0. *)
Lemma C2_advance_in_time_witness :
  AdvanceInTime (K := toy_kratos) 0 toy_constructed_3 = (Ok 0%Q, toy_advanced_3)
  ∧ ∃ solverA solverB tB e1 tA,
      solver_wrappers_vector (self toy_constructed_3) !! 1%nat = Some solverB
      ∧ solver_wrappers_vector (self toy_constructed_3) !! 0%nat
        = Some solverA
      ∧ solver_AdvanceInTime solverB 0 (env toy_constructed_3)
        = (Ok tB, e1)
      ∧ solver_AdvanceInTime solverA 0 e1 = (Ok tA, env toy_advanced_3)
      ∧ log toy_advanced_3
        = log toy_constructed_3 ++ [SolverCall 1 mAdvanceInTime;
                                    SolverCall 0 mAdvanceInTime]
      ∧ solverB_time (self toy_advanced_3) = Some tB
      ∧ 0%Q = (if Qeq_bool tA 0 then 0%Q else tA)
      ∧ time (self toy_advanced_3) = Some 0%Q.
Proof.
  assert (AdvanceInTime (K := toy_kratos) 0 toy_constructed_3
          = (Ok 0%Q, toy_advanced_3)) as Hrun by (vm_compute; reflexivity).
  split; [exact Hrun|].
  exact (C2_advance_in_time (K := toy_kratos) 0 toy_constructed_3
           toy_advanced_3 0%Q Hrun).
Defined.

(** C2 as the specification words it fails: domain B returns the non-zero
    1/2 first, domain A returns 0, and the coupler's time is 0, not the first
    non-zero value returned. *)
Lemma C2_first_nonzero_counterexample :
  solver_AdvanceInTime (Kratos := toy_kratos) 20 0 (env toy_constructed_3)
  = (Ok (0 + (1 # 2))%Q, env toy_constructed_3)
  ∧ solver_AdvanceInTime (Kratos := toy_kratos) 10 0 (env toy_constructed_3)
    = (Ok 0%Q, env toy_constructed_3)
  ∧ AdvanceInTime (K := toy_kratos) 0 toy_constructed_3
    = (Ok 0%Q, toy_advanced_3)
  ∧ first_nonzero_time [(0 + (1 # 2))%Q; 0%Q] = (0 + (1 # 2))%Q
  ∧ ¬ (0 == first_nonzero_time [(0 + (1 # 2))%Q; 0%Q])%Q.
Proof. repeat split; try (vm_compute; reflexivity). vm_compute. discriminate. Qed.

(** C5 on the small instance: 3 is accepted, 5/2 is refused with the
    message of the check. *)
Lemma C5_timestep_ratio_check_witness :
  (∃ c, __init__ (K := toy_kratos) (toy_settings 3) toy_wrappers []
                 (toy_env, [])
        = (Ok c, (toy_env, log toy_constructed_3))
        ∧ timestep_ratio c = 3)
  ∧ __init__ (K := toy_kratos) (toy_settings (5 # 2)) toy_wrappers []
             (toy_env, [])
    = (Raise "An integer timestep_ratio must be specified in the CoSim parameters file.",
       (toy_env, log toy_constructed_3)).
Proof.
  split.
  - apply (proj1 (C5_timestep_ratio_check (K := toy_kratos) (toy_settings 3)
                    toy_wrappers [] (toy_env, []))).
    + by exists 3.
    + vm_compute; reflexivity.
  - apply (proj2 (C5_timestep_ratio_check (K := toy_kratos)
                    (toy_settings (5 # 2)) toy_wrappers [] (toy_env, []))).
    + intros [z Hz]. unfold Qeq in Hz. simpl in Hz. lia.
    + vm_compute; reflexivity.
Defined.

(** C5 as the specification words it fails: the values 0 and -2 are not
    positive, and the constructor returns a coupler for each. *)
Lemma C5_positive_counterexample :
  (∃ c o, __init__ (K := toy_kratos) (toy_settings 0) toy_wrappers []
                   (toy_env, []) = (Ok c, o)
          ∧ timestep_ratio c = 0 ∧ ¬ (0 < timestep_ratio c))
  ∧ (∃ c o, __init__ (K := toy_kratos) (toy_settings (-2)) toy_wrappers []
                     (toy_env, []) = (Ok c, o)
            ∧ timestep_ratio c = -2 ∧ ¬ (0 < timestep_ratio c)).
Proof.
  split; eexists _, _; (split; [vm_compute; reflexivity|]); simpl; lia.
Qed.

(** With [timestep_ratio = 0] the step solves domain A and never domain B. *)
Example zero_ratio_never_solves_B :
  ∃ w w', toy_ready 0 = Some w
    ∧ SolveSolutionStep (K := toy_kratos) w = (Ok true, w')
    ∧ log w' = log w ++ [SolverCall 0 mSolveSolutionStep;
                         SolverCall 0 mGetSystemMatrix;
                         FetiCall (mSetEffectiveStiffnessMatrixImplicit 0)].
Proof.
  eexists _, _. split; [vm_compute; reflexivity|].
  split; vm_compute; reflexivity.
Qed.

(** The world in which [__InitializeFetiMethod] runs, and the one it
    leaves. *)
Definition toy_uninitialized_3 : World (E := Toy) :=
  snd (ext (BaseCall "InitializeSolutionStep")
           base_InitializeSolutionStep toy_advanced_3).

Definition toy_sent (i : nat) : World (E := Toy) :=
  snd (__SendStiffnessMatrixToUtility (K := toy_kratos) i toy_world_3).

(** C8 on the small instance: domain 0 has beta -1 and its matrix, 110, is
    handed over with index 0; domain 1 has beta 0 and only the explicit-mode
    signal is sent. *)
Lemma C8_stiffness_exchange_witness :
  __InitializeFetiMethod (K := toy_kratos) toy_uninitialized_3
  = (Ok tt, toy_world_3)
  ∧ (log (toy_sent 0)
     = log toy_world_3
       ++ [SolverCall 0 mGetSystemMatrix;
           FetiCall (mSetEffectiveStiffnessMatrixImplicit 0)]
     ∧ toy_received (env (toy_sent 0)) = [(0%nat, Some 110%nat)])
  ∧ (log (toy_sent 1)
     = log toy_world_3 ++ [FetiCall (mSetEffectiveStiffnessMatrixExplicit 1)]
     ∧ toy_received (env (toy_sent 1)) = [(1%nat, None)]).
Proof.
  assert (__InitializeFetiMethod (K := toy_kratos) toy_uninitialized_3
          = (Ok tt, toy_world_3)) as Hinit by (vm_compute; reflexivity).
  assert (∀ i, __SendStiffnessMatrixToUtility (K := toy_kratos) i toy_world_3
               = (Ok tt, toy_sent i) →
               __SendStiffnessMatrixToUtility (K := toy_kratos) i toy_world_3
               = (Ok tt, toy_sent i)) as Hsent by auto.
  split; [exact Hinit|]. split.
  - pose proof (C8_stiffness_exchange (K := toy_kratos) toy_uninitialized_3
                  toy_world_3 toy_world_3 (toy_sent 0) 0 tt tt Hinit
                  (same_config_refl _) (or_introl eq_refl)
                  (Hsent 0%nat ltac:(vm_compute; reflexivity))) as H.
    vm_compute in H.
    destruct H as (_ & u & _ & wrapper & m & e1 & _ & _ & _ & _ & Hlog).
    split; [vm_compute; exact Hlog|vm_compute; reflexivity].
  - pose proof (C8_stiffness_exchange (K := toy_kratos) toy_uninitialized_3
                  toy_world_3 toy_world_3 (toy_sent 1) 1 tt tt Hinit
                  (same_config_refl _) (or_intror eq_refl)
                  (Hsent 1%nat ltac:(vm_compute; reflexivity))) as H.
    vm_compute in H. destruct H as (_ & u & _ & _ & Hlog).
    split; [vm_compute; exact Hlog|vm_compute; reflexivity].
Defined.

(** C10 on the small instance: both solvers report [False], the step returns
    [True]; with solvers that report [True] it leaves the same world. *)
Lemma C10_success_indicator_witness :
  toy_solve_result (env toy_world_3) 10 = false
  ∧ toy_solve_result (env toy_world_3) 20 = false
  ∧ fst (SolveSolutionStep (K := toy_kratos) toy_world_3) = Ok true
  ∧ SolveSolutionStep (K := override_solve_result (λ _ _, true) toy_kratos)
      toy_world_3
    = (Ok true, toy_solved_3).
Proof.
  split; [reflexivity|]. split; [reflexivity|].
  destruct (C10_success_indicator toy_kratos (λ _ _, true) toy_world_3)
    as [Htrue Hsame].
  assert (SolveSolutionStep (K := toy_kratos) toy_world_3
          = (Ok true, toy_solved_3)) as Hrun by (vm_compute; reflexivity).
  split.
  - rewrite Hrun. simpl. exact (f_equal Ok (Htrue _ _ Hrun)).
  - rewrite Hsame. exact Hrun.
Defined.

(** ** The protocol on the small instance *)

(** The initialized coupler of the small instance with another ratio, at the
    start of a log. *)
Definition toy_world (ratio : Z) : World (E := Toy) := {|
  self := {|
    settings := toy_settings (inject_Z ratio);
    solver_wrappers := toy_wrappers;
    coupling_operations := [];
    solver_wrappers_vector := [10%nat; 20%nat];
    timestep_ratio := ratio;
    is_initialized := true;
    time := Some 0%Q;
    solverB_time := Some (0 + (1 # 2))%Q;
    is_implicit := Some [true; false];
    feti_coupling := Some 7%nat;
    vtk_output_wrappers_vector := Some [];
  |};
  env := toy_env;
  log := [];
|}.

Definition toy_solved (ratio : Z) : World (E := Toy) :=
  snd (SolveSolutionStep (K := toy_kratos) (toy_world ratio)).

(** With a ratio of two: one substep of domain B closed and the next opened
    between the two solves, and the step ends with the equilibration. *)
Lemma SolveSolutionStep_any_ratio_witness :
  1 ≤ timestep_ratio (self (toy_world 2))
  ∧ SolveSolutionStep (K := toy_kratos) (toy_world 2)
    = (Ok true, toy_solved 2)
  ∧ log (toy_solved 2)
    = [SolverCall 0 mSolveSolutionStep;
       SolverCall 0 mGetSystemMatrix;
       FetiCall (mSetEffectiveStiffnessMatrixImplicit 0);
       SolverCall 1 mSolveSolutionStep;
       FetiCall (mSetEffectiveStiffnessMatrixExplicit 1);
       FetiCall mEquilibrateDomains;
       SolverCall 1 mFinalizeSolutionStep;
       SolverCall 1 mOutputSolutionStep;
       SolverCall 1 mAdvanceInTime;
       SolverCall 1 mInitializeSolutionStep;
       SolverCall 1 mPredict;
       SolverCall 1 mSolveSolutionStep;
       FetiCall (mSetEffectiveStiffnessMatrixExplicit 1);
       FetiCall mEquilibrateDomains]
  ∧ solverB_time (self (toy_solved 2)) = Some (0 + (1 # 2) + (1 # 2))%Q
  ∧ toy_received (env (toy_solved 2))
    = [(0, Some 110); (1, None); (1, None)]%nat.
Proof.
  assert (1 ≤ timestep_ratio (self (toy_world 2))) as Hratio
    by (vm_compute; discriminate).
  assert (SolveSolutionStep (K := toy_kratos) (toy_world 2)
          = (Ok true, toy_solved 2)) as Hrun by (vm_compute; reflexivity).
  split; [exact Hratio|]. split; [exact Hrun|].
  pose proof (proj1 (SolveSolutionStep_any_ratio (K := toy_kratos)
                       (toy_world 2) (toy_solved 2) true Hratio Hrun))
    as Hlog.
  split; [vm_compute in Hlog; vm_compute; exact Hlog|].
  split; vm_compute; reflexivity.
Defined.

(** With a ratio of minus two, which the constructor accepts, domain B is
    left out. *)
Lemma SolveSolutionStep_nonpositive_ratio_witness :
  timestep_ratio (self (toy_world (-2))) ≤ 0
  ∧ SolveSolutionStep (K := toy_kratos) (toy_world (-2))
    = (Ok true, toy_solved (-2))
  ∧ log (toy_solved (-2))
    = [SolverCall 0 mSolveSolutionStep;
       SolverCall 0 mGetSystemMatrix;
       FetiCall (mSetEffectiveStiffnessMatrixImplicit 0)].
Proof.
  assert (timestep_ratio (self (toy_world (-2))) ≤ 0) as Hratio
    by (vm_compute; discriminate).
  assert (SolveSolutionStep (K := toy_kratos) (toy_world (-2))
          = (Ok true, toy_solved (-2))) as Hrun by (vm_compute; reflexivity).
  split; [exact Hratio|]. split; [exact Hrun|].
  pose proof (proj1 (proj2 (SolveSolutionStep_nonpositive_ratio
                              (K := toy_kratos) (toy_world (-2))
                              (toy_solved (-2)) true Hratio Hrun)))
    as Hlog.
  vm_compute in Hlog. vm_compute. exact Hlog.
Defined.









(** The small instance with fluid wrappers in the place of the structural
    ones. *)
Definition toy_fluid_env : Toy := {|
  toy_class_name := λ _, "FluidDynamicsWrapper";
  toy_time := toy_time toy_env;
  toy_solve_result := toy_solve_result toy_env;
  toy_received := [];
|}.

Definition toy_fluid : World (E := Toy) :=
  {| self := self (toy_world 1); env := toy_fluid_env; log := [] |}.

Lemma toy_fluid_is_not_structural :
  solver__ClassName (Kratos := toy_kratos) 10 toy_fluid_env
  ≠ "StructuralMechanicsWrapper".
Proof. discriminate. Qed.

(** The implicit domain A of the small instance with a fluid wrapper. *)
Lemma unsupported_wrapper_refused_witness :
  solver__ClassName (Kratos := toy_kratos) 10 (env toy_fluid)
  = "FluidDynamicsWrapper"
  ∧ __SendStiffnessMatrixToUtility (K := toy_kratos) 0 toy_fluid
    = (Raise ("_GetSolverStrategy not implemented for solver wrapper = "
              +:+ solver__ClassName (Kratos := toy_kratos) 10
                    (env toy_fluid)),
       toy_fluid).
Proof.
  split; [reflexivity|].
  exact (unsupported_wrapper_refused (K := toy_kratos) 0 toy_fluid
           [true; false] 10 eq_refl eq_refl eq_refl
           toy_fluid_is_not_structural).
Defined.

(** The same coupler takes a step: domain A is solved, then refused. *)
Lemma SolveSolutionStep_unsupported_wrapper_witness :
  SolveSolutionStep (K := toy_kratos) toy_fluid
  = (Raise ("_GetSolverStrategy not implemented for solver wrapper = "
            +:+ solver__ClassName (Kratos := toy_kratos) 10 toy_fluid_env),
     {| self := self toy_fluid; env := toy_fluid_env;
        log := log toy_fluid ++ [SolverCall 0 mSolveSolutionStep] |}).
Proof.
  exact (SolveSolutionStep_unsupported_wrapper (K := toy_kratos) toy_fluid
           [true; false] 10 false toy_fluid_env eq_refl eq_refl eq_refl
           eq_refl toy_fluid_is_not_structural).
Defined.

(** A step on the coupler the constructor leaves. *)
Definition toy_too_early : World (E := Toy) :=
  snd (SolveSolutionStep (K := toy_kratos) toy_constructed_3).

Lemma SolveSolutionStep_before_setup_witness :
  is_implicit (self toy_constructed_3) = None
  ∧ SolveSolutionStep (K := toy_kratos) toy_constructed_3
    = (Raise "AttributeError: is_implicit", toy_too_early)
  ∧ self toy_too_early = self toy_constructed_3
  ∧ (log toy_too_early = log toy_constructed_3
     ∨ log toy_too_early
       = log toy_constructed_3 ++ [SolverCall 0 mSolveSolutionStep]).
Proof.
  assert (is_implicit (self toy_constructed_3) = None) as Hflags
    by (vm_compute; reflexivity).
  assert (SolveSolutionStep (K := toy_kratos) toy_constructed_3
          = (Raise "AttributeError: is_implicit", toy_too_early)) as Hrun
    by (vm_compute; reflexivity).
  split; [exact Hflags|]. split; [exact Hrun|].
  exact (proj2 (SolveSolutionStep_before_setup (K := toy_kratos)
                  toy_constructed_3 toy_too_early _ Hflags Hrun)).
Defined.







(** The set-up of the small instance. *)
Lemma __InitializeFetiMethod_order_witness :
  __InitializeFetiMethod (K := toy_kratos) toy_uninitialized_3
  = (Ok tt, toy_world_3)
  ∧ log toy_world_3
    = log toy_uninitialized_3
      ++ setup_calls
      ++ [FetiCall mSetMappingMatrix; FetiCall mSetOriginInitialKinematics].
Proof.
  assert (__InitializeFetiMethod (K := toy_kratos) toy_uninitialized_3
          = (Ok tt, toy_world_3)) as Hinit by (vm_compute; reflexivity).
  split; [exact Hinit|].
  exact (proj1 (__InitializeFetiMethod_order (K := toy_kratos)
                  toy_uninitialized_3 toy_world_3 tt Hinit)).
Defined.

End Feti.

(** * The fluid RVE analysis: bounding box, face model parts, periodicity *)

Module Rve.

(** ** Mesh data *)

(** [KratosMultiphysics.Array3]; a component outside 0..2 does not exist. *)
Record Array3 : Type := { c0 : Q; c1 : Q; c2 : Q }.

Definition at3 (a : Array3) (i : nat) : option Q :=
  match i with
  | 0%nat => Some (c0 a)
  | 1%nat => Some (c1 a)
  | 2%nat => Some (c2 a)
  | _ => None
  end.

Definition set0 (v : Q) (a : Array3) : Array3 :=
  {| c0 := v; c1 := c1 a; c2 := c2 a |}.
Definition set1 (v : Q) (a : Array3) : Array3 :=
  {| c0 := c0 a; c1 := v; c2 := c2 a |}.
Definition set2 (v : Q) (a : Array3) : Array3 :=
  {| c0 := c0 a; c1 := c1 a; c2 := v |}.

(** [a - b] on [Array3]. *)
Definition sub3 (a b : Array3) : Array3 :=
  {| c0 := c0 a - c0 b; c1 := c1 a - c1 b; c2 := c2 a - c2 b |}.

Record Node : Type := {
  node_Id : nat;
  node_X : Q;
  node_Y : Q;
  node_Z : Q;
}.

(** A condition (boundary facet): its id, the center of its geometry, and
    the ids of its nodes.  [Geometry.Center()] is native. *)
Record Condition : Type := {
  cond_Id : nat;
  cond_Center : Array3;
  cond_GetNodes : list nat;
}.

(** A master-slave constraint, with its [TO_ERASE] flag. *)
Record Constraint : Type := {
  constraint_Id : nat;
  constraint_slave : nat;
  constraint_masters : list (nat * Q);
  constraint_constant : Q;
  TO_ERASE : bool;
}.

Definition Set_TO_ERASE (c : Constraint) : Constraint :=
  {| constraint_Id := constraint_Id c; constraint_slave := constraint_slave c;
     constraint_masters := constraint_masters c;
     constraint_constant := constraint_constant c; TO_ERASE := true |}.

(** A sub model part of the root: the ids of the conditions and of the nodes
    it holds.  The entities themselves live in the root. *)
Record SubModelPart : Type := {
  smp_conditions : gset nat;
  smp_nodes : gset nat;
}.

Definition empty_smp : SubModelPart :=
  {| smp_conditions := ∅; smp_nodes := ∅ |}.

(** The root model part.  The [SLAVE] and [MASTER] flags of the nodes are
    kept as the sets of the ids of the nodes that carry them: a node object
    is shared by every model part and every condition that refers to it. *)
Record Mesh : Type := {
  root_Name : string;
  root_Nodes : list Node;
  root_Conditions : list Condition;
  SubModelParts : gmap string SubModelPart;
  SLAVE : gset nat;
  MASTER : gset nat;
  MasterSlaveConstraints : list Constraint;
}.

(** The part of a full name before its first dot, and the part after that
    dot when there is one. *)
Fixpoint split_at_dot (name : string) : string * option string :=
  match name with
  | EmptyString => (EmptyString, None)
  | String a rest =>
      if String.eqb (String a EmptyString) "." then (EmptyString, Some rest)
      else let '(root, path) := split_at_dot rest in (String a root, path)
  end.

(** A reference to a model part. *)
Inductive ModelPart : Type :=
| Root
| Sub (name : string).

Definition GetRootModelPart (mp : ModelPart) : ModelPart := Root.

Definition sub_of (m : Mesh) (name : string) : SubModelPart :=
  default empty_smp (SubModelParts m !! name).

Definition Conditions (mp : ModelPart) (m : Mesh) : list Condition :=
  match mp with
  | Root => root_Conditions m
  | Sub name =>
      filter (λ c, cond_Id c ∈ smp_conditions (sub_of m name))
             (root_Conditions m)
  end.

Definition Nodes (mp : ModelPart) (m : Mesh) : list Node :=
  match mp with
  | Root => root_Nodes m
  | Sub name =>
      filter (λ n, node_Id n ∈ smp_nodes (sub_of m name)) (root_Nodes m)
  end.

Definition NumberOfConditions (mp : ModelPart) (m : Mesh) : nat :=
  length (Conditions mp m).

Definition with_SubModelParts (s : gmap string SubModelPart) (m : Mesh)
  : Mesh :=
  {| root_Name := root_Name m;
     root_Nodes := root_Nodes m; root_Conditions := root_Conditions m;
     SubModelParts := s; SLAVE := SLAVE m; MASTER := MASTER m;
     MasterSlaveConstraints := MasterSlaveConstraints m |}.

Definition with_SLAVE (s : gset nat) (m : Mesh) : Mesh :=
  {| root_Name := root_Name m;
     root_Nodes := root_Nodes m; root_Conditions := root_Conditions m;
     SubModelParts := SubModelParts m; SLAVE := s; MASTER := MASTER m;
     MasterSlaveConstraints := MasterSlaveConstraints m |}.

Definition with_MASTER (s : gset nat) (m : Mesh) : Mesh :=
  {| root_Name := root_Name m;
     root_Nodes := root_Nodes m; root_Conditions := root_Conditions m;
     SubModelParts := SubModelParts m; SLAVE := SLAVE m; MASTER := s;
     MasterSlaveConstraints := MasterSlaveConstraints m |}.

Definition with_MasterSlaveConstraints (l : list Constraint) (m : Mesh)
  : Mesh :=
  {| root_Name := root_Name m;
     root_Nodes := root_Nodes m; root_Conditions := root_Conditions m;
     SubModelParts := SubModelParts m; SLAVE := SLAVE m; MASTER := MASTER m;
     MasterSlaveConstraints := l |}.

(** [mp.CreateSubModelPart(name)] on the root. *)
Definition CreateSubModelPart_mesh (name : string) (m : Mesh) : Mesh :=
  with_SubModelParts (<[name := empty_smp]> (SubModelParts m)) m.

(** [face_mp.AddCondition(cond)] *)
Definition AddCondition_mesh (name : string) (cond : Condition) (m : Mesh)
  : Mesh :=
  let face := sub_of m name in
  with_SubModelParts
    (<[name := {| smp_conditions := {[cond_Id cond]} ∪ smp_conditions face;
                  smp_nodes := smp_nodes face |}]> (SubModelParts m)) m.

(** [face_mp.AddNodes(ids)] *)
Definition AddNodes_mesh (name : string) (ids : list nat) (m : Mesh) : Mesh :=
  let face := sub_of m name in
  with_SubModelParts
    (<[name := {| smp_conditions := smp_conditions face;
                  smp_nodes := list_to_set ids ∪ smp_nodes face |}]>
       (SubModelParts m)) m.

(** [VariableUtils().SetFlag(flag, False, nodes)] *)
Definition clear_flag (flagged : gset nat) (nodes : list Node) : gset nat :=
  flagged ∖ list_to_set (node_Id <$> nodes).

(** ** The native collaborators *)

Definition Matrix : Type := list (list Q).
Definition Vector : Type := list Q.

(** What a periodicity utility is given of a face model part: its nodes and
    its conditions. *)
Record Face : Type := {
  face_Nodes : list Node;
  face_Conditions : list Condition;
}.

Definition face_of (mp : ModelPart) (m : Mesh) : Face :=
  {| face_Nodes := Nodes mp m; face_Conditions := Conditions mp m |}.

(** Modelled from the spec: the native [RVEPeriodicityUtility] and
    [math.sqrt], which these scripts call and do not define.  The utility is
    taken as a parameter: [U] is what it has accumulated.  After the
    specification, [AssignPeriodicity] reads the master face, the slave face,
    the strain tensor, the separation vector and the search tolerance, and
    [Finalize] turns what was accumulated into the constraints it adds to
    the store of the root model part, which it may read. *)
Class Native (U : Type) : Type := {
  math_sqrt : Q → Q;
  RVEPeriodicityUtility : U;
  AssignPeriodicity : Face → Face → Matrix → Vector → Q → U → outcome U;
  Finalize : string → U → list Constraint → outcome (list Constraint);
}.

(** ** The analysis object *)

Record Settings : Type := {
  s_boundary_mp_name : string;
  s_averaging_mp_name : string;
  s_print_rve_post : bool;
  s_domain_size : Z;
  s_jump_XX : Q;
  s_jump_YY : Q;
  s_jump_XY : Q;
  s_jump_YZ : Q;
  s_jump_ZZ : Q;
  s_jump_XZ : Q;
}.

Record Analysis : Type := {
  boundary_mp_name : string;
  averaging_mp_name : string;
  averaging_volume : Q;
  domain_size : Z;
  strain_size : Z;
  strains : gmap string Q;
  populate_search_eps : Q;
  geometrical_search_tolerance : Q;
  min_corner : option Array3;
  max_corner : option Array3;
  max_x_face : option ModelPart;
  max_y_face : option ModelPart;
  max_z_face : option ModelPart;
  min_x_face : option ModelPart;
  min_y_face : option ModelPart;
  min_z_face : option ModelPart;
}.

Inductive Attribute : Type :=
| a_averaging_volume (v : Q)
| a_min_corner (a : Array3)
| a_max_corner (a : Array3)
| a_max_x_face (f : ModelPart)
| a_max_y_face (f : ModelPart)
| a_max_z_face (f : ModelPart)
| a_min_x_face (f : ModelPart)
| a_min_y_face (f : ModelPart)
| a_min_z_face (f : ModelPart).

(** [self.attribute = value] *)
Definition setattr (a : Attribute) (s : Analysis) : Analysis :=
  {| boundary_mp_name := boundary_mp_name s;
     averaging_mp_name := averaging_mp_name s;
     averaging_volume :=
       match a with a_averaging_volume v => v | _ => averaging_volume s end;
     domain_size := domain_size s;
     strain_size := strain_size s;
     strains := strains s;
     populate_search_eps := populate_search_eps s;
     geometrical_search_tolerance := geometrical_search_tolerance s;
     min_corner :=
       match a with a_min_corner v => Some v | _ => min_corner s end;
     max_corner :=
       match a with a_max_corner v => Some v | _ => max_corner s end;
     max_x_face :=
       match a with a_max_x_face f => Some f | _ => max_x_face s end;
     max_y_face :=
       match a with a_max_y_face f => Some f | _ => max_y_face s end;
     max_z_face :=
       match a with a_max_z_face f => Some f | _ => max_z_face s end;
     min_x_face :=
       match a with a_min_x_face f => Some f | _ => min_x_face s end;
     min_y_face :=
       match a with a_min_y_face f => Some f | _ => min_y_face s end;
     min_z_face :=
       match a with a_min_z_face f => Some f | _ => min_z_face s end |}.

(** The world of the analysis: its attributes and the mesh of the model. *)
Record World : Type := {
  self : Analysis;
  mesh : Mesh;
}.

(** ** The methods of [FluidRVEAnalysis] *)

(** [__init__] (lines 9-41), up to the call of the base class. *)
Definition __init__ (st : Settings) : outcome Analysis :=
  let domain_size := s_domain_size st in
  match
    if (domain_size =? 2)%Z then Ok 3%Z
    else if (domain_size =? 3)%Z then Ok 6%Z
    else Raise ("Wrong 'domain_size' value " +:+ pretty domain_size
                +:+ ". Expected 2 or 3.")
  with
  | Raise msg => Raise msg
  | Ok strain_size =>
      let strains : gmap string Q :=
        <["12" := s_jump_YZ st]> (<["01" := s_jump_XY st]>
          (<["11" := s_jump_YY st]> (<["00" := s_jump_XX st]> ∅))) in
      let strains :=
        if (domain_size =? 3)%Z
        then <["02" := s_jump_XZ st]> (<["22" := s_jump_ZZ st]> strains)
        else strains in
      Ok {| boundary_mp_name := s_boundary_mp_name st;
            averaging_mp_name := s_averaging_mp_name st;
            averaging_volume := -1;
            domain_size := domain_size;
            strain_size := strain_size;
            strains := strains;
            populate_search_eps := 1 # 10000;
            geometrical_search_tolerance := 1 # 10000;
            min_corner := None; max_corner := None;
            max_x_face := None; max_y_face := None; max_z_face := None;
            min_x_face := None; min_y_face := None; min_z_face := None |}
  end.

(** The sentinels of [_DetectBoundingBox]: 1e20 and -1e20. *)
Definition sentinel : Q := inject_Z (10 ^ 20).

(** One turn of the loop of [_DetectBoundingBox] (lines 86-97). *)
Definition bounding_box_step (corners : Array3 * Array3) (node : Node)
  : Array3 * Array3 :=
  let '(min_corner, max_corner) := corners in
  let x := node_X node in
  let min_corner := set0 (py_min (c0 min_corner) x) min_corner in
  let max_corner := set0 (py_max (c0 max_corner) x) max_corner in
  let y := node_Y node in
  let min_corner := set1 (py_min (c1 min_corner) y) min_corner in
  let max_corner := set1 (py_max (c1 max_corner) y) max_corner in
  let z := node_Z node in
  let min_corner := set2 (py_min (c2 min_corner) z) min_corner in
  let max_corner := set2 (py_max (c2 max_corner) z) max_corner in
  (min_corner, max_corner).

(** [_DetectBoundingBox] (lines 75-103) on the nodes of a model part. *)
Definition bounding_box (nodes : list Node) : Array3 * Array3 :=
  foldl bounding_box_step
        ({| c0 := sentinel; c1 := sentinel; c2 := sentinel |},
         {| c0 := - sentinel; c1 := - sentinel; c2 := - sentinel |})
        nodes.

(** The loop only lowers the min corner and raises the max corner, and the
    two enclose every node it has seen. *)
Lemma bounding_box_step_encloses (corners : Array3 * Array3)
    (nodes : list Node) :
  let result := foldl bounding_box_step corners nodes in
  ((c0 (fst result) <= c0 (fst corners))%Q
   ∧ (c1 (fst result) <= c1 (fst corners))%Q
   ∧ (c2 (fst result) <= c2 (fst corners))%Q)
  ∧ ((c0 (snd corners) <= c0 (snd result))%Q
     ∧ (c1 (snd corners) <= c1 (snd result))%Q
     ∧ (c2 (snd corners) <= c2 (snd result))%Q)
  ∧ ∀ node, node ∈ nodes →
      (c0 (fst result) <= node_X node <= c0 (snd result))%Q
      ∧ (c1 (fst result) <= node_Y node <= c1 (snd result))%Q
      ∧ (c2 (fst result) <= node_Z node <= c2 (snd result))%Q.
Proof.
  revert corners. induction nodes as [|n nodes IH]; intros [lo hi]; simpl.
  - repeat split; try apply Qle_refl; by apply not_elem_of_nil in H.
  - specialize (IH (bounding_box_step (lo, hi) n)).
    destruct IH as ((L0 & L1 & L2) & (H0 & H1 & H2) & Hall).
    simpl in L0, L1, L2, H0, H1, H2.
    split; [|split].
    + repeat split; (eapply Qle_trans; [eassumption|apply py_min_le_l]).
    + repeat split; (eapply Qle_trans; [apply py_max_ge_l|eassumption]).
    + intros node' [->|Hnode]%elem_of_cons; [|by apply Hall].
      repeat split;
        first [ eapply Qle_trans; [eassumption|apply py_min_le_r]
              | eapply Qle_trans; [apply py_max_ge_r|eassumption] ].
Qed.

Section Methods.
Context {U : Type} {N : Native U}.

Local Open Scope py_scope.

Definition assign (a : Attribute) : M World unit :=
  modify (λ w, {| self := setattr a (self w); mesh := mesh w |}).

Definition update_mesh (f : Mesh → Mesh) : M World unit :=
  modify (λ w, {| self := self w; mesh := f (mesh w) |}).

Definition field {A} (f : Analysis → A) : M World A :=
  λ w, (Ok (f (self w)), w).

Definition self_attr {A} (name : string) (f : Analysis → option A)
  : M World A :=
  attr name (λ w, f (self w)).

Definition read {A} (f : Mesh → A) : M World A :=
  λ w, (Ok (f (mesh w)), w).

(** A call of a native function that does not touch the mesh. *)
Definition native {A} (o : outcome A) : M World A := λ w, (o, w).

(** [a[i]] on an [Array3].  The scripts read the components 0, 1 and 2 and
    no other.  The native accessor does not check its index; a read of another
    component, which has no value here, is refused. *)
Definition index3 (a : Array3) (i : nat) : M World Q :=
  match at3 a i with
  | Some v => ret v
  | None => raise "IndexError: Array3 index out of range"
  end.

(** [self.model[name]], the native look-up of a model part by its full
    name: the name of a root model part, then the names of the sub model
    parts that lead to the model part, each after a dot.  The name of a sub
    model part alone names nothing.  The model holds the one root of the
    mesh, and the sub model parts of the mesh are all sub model parts of the
    root itself ([__PopulateMp] creates its faces there), so that only [root]
    and [root.sub] name a model part. *)
Definition model_getitem (name : string) : M World ModelPart :=
  do m <- read id;
  let '(root, path) := split_at_dot name in
  if negb (String.eqb root (root_Name m))
  then raise ("The ModelPart named : " +:+ root
              +:+ " was not found as root-ModelPart.")
  else match path with
       | None => ret Root
       | Some sub =>
           if bool_decide (is_Some (SubModelParts m !! sub))
           then ret (Sub sub)
           else raise ("There is no sub model part with name " +:+ sub
                       +:+ " in model part " +:+ root)
       end.

Definition _DetectBoundingBox (mp : ModelPart) : M World (Array3 * Array3) :=
  do nodes <- read (Nodes mp);
  ret (bounding_box nodes).

(** [mp.HasSubModelPart(name)], [mp.CreateSubModelPart(name)] and
    [mp.GetSubModelPart(name)] on the root model part. *)
Definition HasSubModelPart (name : string) : M World bool :=
  read (λ m, bool_decide (is_Some (SubModelParts m !! name))).

Definition CreateSubModelPart (name : string) : M World unit :=
  update_mesh (CreateSubModelPart_mesh name).

Definition GetSubModelPart (name : string) : M World ModelPart :=
  do has <- HasSubModelPart name;
  if has : bool then ret (Sub name)
  else raise ("There is no sub model part with name " +:+ name).

(** [face_mp.AddCondition(cond)] and [face_mp.AddNodes(ids)] on a sub model
    part of the root. *)
Definition AddCondition (face_mp : ModelPart) (cond : Condition)
  : M World unit :=
  match face_mp with
  | Sub name => update_mesh (AddCondition_mesh name cond)
  | Root => ret tt
  end.

Definition AddNodes (face_mp : ModelPart) (ids : list nat) : M World unit :=
  match face_mp with
  | Sub name => update_mesh (AddNodes_mesh name ids)
  | Root => ret tt
  end.

(** [node.Is(SLAVE)] and [node.Set(SLAVE)] *)
Definition Is_SLAVE (node : nat) : M World bool :=
  read (λ m, bool_decide (node ∈ SLAVE m)).

Definition Set_SLAVE (node : nat) : M World unit :=
  update_mesh (λ m, with_SLAVE ({[node]} ∪ SLAVE m) m).

(** [__PopulateMp] (lines 105-128). *)
Definition __PopulateMp (face_name : string) (coordinate : Q)
    (component : nat) (eps : Q) (mp : ModelPart) : M World ModelPart :=
  do n <- read (NumberOfConditions mp);
  if (n =? 0)%nat
  then raise "Boundary_mp is expected to have conditions and has none"
  else
    let mp := GetRootModelPart mp in
    do has <- HasSubModelPart face_name;
    run when (negb has) (CreateSubModelPart face_name);
    do face_mp <- GetSubModelPart face_name;
    do conds <- read (Conditions mp);
    run for_each conds (λ cond,
          let xc := cond_Center cond in
          do x <- index3 xc component;
          when (Qltb (Qabs (x - coordinate)) eps)
               (AddCondition face_mp cond));
    do face_conds <- read (Conditions face_mp);
    do node_ids <-
      for_fold face_conds (∅ : gset nat) (λ node_ids cond,
        for_fold (cond_GetNodes cond) node_ids (λ node_ids node,
          do slave <- Is_SLAVE node;
          if negb slave
          then run Set_SLAVE node; ret ({[node]} ∪ node_ids)
          else ret node_ids));
    run AddNodes face_mp (elements node_ids);
    ret face_mp.

(** [self.face.NumberOfConditions() == 0] followed by the raise. *)
Definition check_face (name : string) (face : Analysis → option ModelPart)
  : M World unit :=
  do f <- self_attr name face;
  do n <- read (NumberOfConditions f);
  when (n =? 0)%nat (raise (name +:+ " has 0 conditions")).

(** [_ConstructFaceModelParts] (lines 130-155). *)
Definition _ConstructFaceModelParts (min_corner max_corner : Array3)
    (mp : ModelPart) : M World unit :=
  let diag_vect := sub3 max_corner min_corner in
  let diag_lenght :=
    math_sqrt (c0 diag_vect ^ 2 + c1 diag_vect ^ 2 + c2 diag_vect ^ 2) in
  do pse <- field populate_search_eps;
  let eps := (pse * diag_lenght)%Q in
  do nodes <- read (Nodes mp);
  run update_mesh (λ m, with_SLAVE (clear_flag (SLAVE m) nodes) m);
  do nodes <- read (Nodes mp);
  run update_mesh (λ m, with_MASTER (clear_flag (MASTER m) nodes) m);
  (* Populate the slave faces *)
  do f <- __PopulateMp "max_x_face" (c0 max_corner) 0 eps mp;
  run assign (a_max_x_face f);
  do f <- __PopulateMp "max_y_face" (c1 max_corner) 1 eps mp;
  run assign (a_max_y_face f);
  do d <- field domain_size;
  run when (d =? 3)%Z
        (do f <- __PopulateMp "max_z_face" (c2 max_corner) 2 eps mp;
         assign (a_max_z_face f));
  (* First populate the master faces (min) *)
  do f <- __PopulateMp "min_x_face" (c0 min_corner) 0 eps mp;
  run assign (a_min_x_face f);
  do f <- __PopulateMp "min_y_face" (c1 min_corner) 1 eps mp;
  run assign (a_min_y_face f);
  do d <- field domain_size;
  run when (d =? 3)%Z
        (do f <- __PopulateMp "min_z_face" (c2 min_corner) 2 eps mp;
         assign (a_min_z_face f));
  run check_face "min_x_face" min_x_face;
  run check_face "min_y_face" min_y_face;
  do d <- field domain_size;
  when (d =? 3)%Z (check_face "min_z_face" min_z_face).

(** [ModifyInitialGeometry] (lines 44-56). *)
Definition ModifyInitialGeometry : M World unit :=
  do name <- field boundary_mp_name;
  do boundary_mp <- model_getitem name;
  do name <- field averaging_mp_name;
  do averaging_mp <- model_getitem name;
  do corners <- _DetectBoundingBox averaging_mp;
  run assign (a_min_corner (fst corners));
  run assign (a_max_corner (snd corners));
  do lower <- self_attr "min_corner" min_corner;
  do upper <- self_attr "max_corner" max_corner;
  run _ConstructFaceModelParts lower upper boundary_mp;
  run assign (a_averaging_volume 1);
  do d <- field domain_size;
  for_each (Z.to_nat <$> range 0 d) (λ i,
    do upper <- self_attr "max_corner" max_corner;
    do hi <- index3 upper i;
    do lower <- self_attr "min_corner" min_corner;
    do lo <- index3 lower i;
    do v <- field averaging_volume;
    assign (a_averaging_volume (v * (hi - lo)))).

(** The separation along one axis: [self.max_corner[i] - self.min_corner[i]]. *)
Definition separation (i : nat) : M World Q :=
  do upper <- self_attr "max_corner" max_corner;
  do hi <- index3 upper i;
  do lower <- self_attr "min_corner" min_corner;
  do lo <- index3 lower i;
  ret (hi - lo)%Q.

(** [periodicity_utility.AssignPeriodicity(self.min_face, self.max_face,
    strain, direction, self.geometrical_search_tolerance)] *)
Definition assign_periodicity (min_name : string)
    (min_face : Analysis → option ModelPart) (max_name : string)
    (max_face : Analysis → option ModelPart) (strain : Matrix)
    (direction : Vector) (periodicity_utility : U) : M World U :=
  do master <- self_attr min_name min_face;
  do slave <- self_attr max_name max_face;
  do tolerance <- field geometrical_search_tolerance;
  do m <- read id;
  native (AssignPeriodicity (face_of master m) (face_of slave m) strain
            direction tolerance periodicity_utility).

(** [_ApplyPeriodicity] (lines 157-180).  The local [dz] exists only when
    [strain_size == 6]; it is read under the same test of the same attribute,
    so the value bound to it otherwise is never used. *)
Definition _ApplyPeriodicity (strain : Matrix)
    (volume_mp boundary_mp : ModelPart) : M World unit :=
  (* clear *)
  run update_mesh (λ m,
        with_MasterSlaveConstraints
          (Set_TO_ERASE <$> MasterSlaveConstraints m) m);
  run update_mesh (λ m,
        with_MasterSlaveConstraints
          (filter (λ c, TO_ERASE c = false) (MasterSlaveConstraints m)) m);
  do dx <- separation 0;
  do dy <- separation 1;
  do size <- field strain_size;
  do dz <- (if (size =? 6)%Z then separation 2 else ret 0%Q);
  let periodicity_utility := RVEPeriodicityUtility in
  (* assign periodicity to faces *)
  do size <- field strain_size;
  let direction_x := if (size =? 6)%Z then [dx; 0; 0]%Q else [dx; 0]%Q in
  do periodicity_utility <-
    assign_periodicity "min_x_face" min_x_face "max_x_face" max_x_face
                       strain direction_x periodicity_utility;
  do size <- field strain_size;
  let direction_y := if (size =? 6)%Z then [0; dy; 0]%Q else [0; dy]%Q in
  do periodicity_utility <-
    assign_periodicity "min_y_face" min_y_face "max_y_face" max_y_face
                       strain direction_y periodicity_utility;
  do size <- field strain_size;
  do periodicity_utility <-
    (if (size =? 6)%Z
     then
       let direction_z := [0; 0; dz]%Q in
       assign_periodicity "min_z_face" min_z_face "max_z_face" max_z_face
                          strain direction_z periodicity_utility
     else ret periodicity_utility);
  do store <- read MasterSlaveConstraints;
  do created <- native (Finalize "VELOCITY" periodicity_utility store);
  update_mesh (λ m,
    with_MasterSlaveConstraints (MasterSlaveConstraints m ++ created) m).

(** The strain matrix of [ModifyAfterSolverInitialize] (lines 63-71): a
    [domain_size] by [domain_size] matrix of zeros, filled symmetrically from
    the dictionary of jumps. *)
Definition strain_matrix : M World Matrix :=
  do d <- field domain_size;
  let n := Z.to_nat d in
  let strain : Matrix := replicate n (replicate n 0%Q) in
  for_fold (seq 0 n) strain (λ strain i,
    for_fold (seq i (n - i)) strain (λ strain j,
      let strainIndex := pretty i +:+ pretty j in
      do table <- field strains;
      match table !! strainIndex with
      | None => raise ("KeyError: " +:+ strainIndex)
      | Some v =>
          let strain := alter (<[j := v]>) i strain in
          let strain := alter (<[i := v]>) j strain in
          ret strain
      end)).

(** [ModifyAfterSolverInitialize] (lines 58-73). *)
Definition ModifyAfterSolverInitialize : M World unit :=
  do name <- field boundary_mp_name;
  do boundary_mp <- model_getitem name;
  do name <- field averaging_mp_name;
  do averaging_mp <- model_getitem name;
  do strain <- strain_matrix;
  _ApplyPeriodicity strain averaging_mp boundary_mp.

(** ** Symbolic execution of the analysis's primitives *)

Lemma wp_setattr (a : Attribute) (Φ : unit → World → Prop) w :
  Φ tt {| self := setattr a (self w); mesh := mesh w |} → wp (assign a) Φ w.
Proof. done. Qed.

Lemma wp_update_mesh (f : Mesh → Mesh) (Φ : unit → World → Prop) w :
  Φ tt {| self := self w; mesh := f (mesh w) |} → wp (update_mesh f) Φ w.
Proof. done. Qed.

Lemma wp_attribute {A} (f : Analysis → A) (Φ : A → World → Prop) w :
  Φ (f (self w)) w → wp (field f) Φ w.
Proof. done. Qed.

Lemma wp_read {A} (f : Mesh → A) (Φ : A → World → Prop) w :
  Φ (f (mesh w)) w → wp (read f) Φ w.
Proof. done. Qed.

Lemma wp_optional_attribute {A} name (f : Analysis → option A)
    (Φ : A → World → Prop) w :
  (∀ a, f (self w) = Some a → Φ a w) → wp (self_attr name f) Φ w.
Proof. intros H. by apply wp_attr. Qed.

Lemma wp_native {A} (o : outcome A) (Φ : A → World → Prop) w :
  (∀ a, o = Ok a → Φ a w) → wp (native o) Φ w.
Proof. intros H. unfold wp, native. destruct o; auto. Qed.

Lemma wp_index3 (a : Array3) i (Φ : Q → World → Prop) w :
  (∀ v, at3 a i = Some v → Φ v w) → wp (index3 a i) Φ w.
Proof. intros H. unfold index3. destruct (at3 a i); [by apply H|done]. Qed.

End Methods.

(** ** What one face classification does to the mesh *)

(** The test of line 117 on a condition. *)
Definition close_to (coordinate : Q) (component : nat) (eps : Q)
    (cond : Condition) : bool :=
  match at3 (cond_Center cond) component with
  | Some x => Qltb (Qabs (x - coordinate)) eps
  | None => false
  end.

(** The ids of the nodes of the conditions of a model part. *)
Definition facet_nodes (mp : ModelPart) (m : Mesh) : gset nat :=
  list_to_set (concat (cond_GetNodes <$> Conditions mp m)).

Definition set_face (name : string) (conds nodes : gset nat) (m : Mesh)
  : Mesh :=
  with_SubModelParts
    (<[name := {| smp_conditions := conds; smp_nodes := nodes |}]>
       (SubModelParts m)) m.

(** The mesh a call of [__PopulateMp] that returns leaves, written in one
    piece: the face gains the conditions of the root that pass the test, the
    nodes of the conditions of the face that carry no [SLAVE] flag join the
    face, and all nodes of those conditions carry the flag afterwards. *)
Definition populate (face_name : string) (coordinate : Q) (component : nat)
    (eps : Q) (m : Mesh) : Mesh :=
  let old := sub_of m face_name in
  let conds : gset nat :=
    smp_conditions old
    ∪ list_to_set (cond_Id <$> filter (λ c, close_to coordinate component
                                              eps c = true)
                                      (root_Conditions m)) in
  let touched : gset nat :=
    list_to_set (concat (cond_GetNodes <$>
      filter (λ c, cond_Id c ∈ conds) (root_Conditions m))) in
  with_SLAVE (SLAVE m ∪ touched)
    (set_face face_name conds ((touched ∖ SLAVE m) ∪ smp_nodes old) m).

Lemma sub_of_set_face name conds nodes m :
  sub_of (set_face name conds nodes m) name
  = {| smp_conditions := conds; smp_nodes := nodes |}.
Proof. unfold sub_of, set_face. simpl. by rewrite lookup_insert_eq. Qed.

Lemma sub_of_set_face_ne name name' conds nodes m :
  name ≠ name' → sub_of (set_face name conds nodes m) name' = sub_of m name'.
Proof.
  intros Hne. unfold sub_of, set_face. simpl. by rewrite lookup_insert_ne.
Qed.

Lemma set_face_set_face name conds nodes conds' nodes' m :
  set_face name conds' nodes' (set_face name conds nodes m)
  = set_face name conds' nodes' m.
Proof. unfold set_face, with_SubModelParts. simpl. by rewrite insert_insert_eq. Qed.

Lemma set_face_existing name m :
  is_Some (SubModelParts m !! name) →
  m = set_face name (smp_conditions (sub_of m name))
               (smp_nodes (sub_of m name)) m.
Proof.
  intros [face Hface]. unfold set_face, with_SubModelParts, sub_of.
  rewrite Hface. simpl. destruct face as [cs ns]. simpl.
  rewrite insert_id by done. by destruct m.
Qed.

Lemma set_face_missing name m :
  SubModelParts m !! name = None →
  CreateSubModelPart_mesh name m
  = set_face name (smp_conditions (sub_of m name))
             (smp_nodes (sub_of m name)) m.
Proof.
  intros Hface. unfold CreateSubModelPart_mesh, set_face, sub_of.
  by rewrite Hface.
Qed.

Lemma AddCondition_set_face name cond conds nodes m :
  AddCondition_mesh name cond (set_face name conds nodes m)
  = set_face name ({[cond_Id cond]} ∪ conds) nodes m.
Proof.
  unfold AddCondition_mesh. rewrite sub_of_set_face. simpl.
  apply set_face_set_face.
Qed.

Definition nodes_of (conds : list Condition) : gset nat :=
  list_to_set (concat (cond_GetNodes <$> conds)).

Lemma nodes_of_cons cond conds :
  nodes_of (cond :: conds) = list_to_set (cond_GetNodes cond) ∪ nodes_of conds.
Proof. unfold nodes_of. simpl. by rewrite list_to_set_app_L. Qed.

(** Set algebra of one turn of the claim loop: [ids] is the local
    [node_ids], [S] the flagged nodes, [A] the nodes still to visit. *)
Lemma claim_turn_unflagged (x : nat) (ids A S T : gset nat) :
  x ∉ S → ids ∪ (({[x]} ∪ A) ∖ S) = T →
  ({[x]} ∪ ids) ∪ (A ∖ ({[x]} ∪ S)) = T.
Proof.
  intros Hx <-. apply set_eq. intros y.
  destruct (decide (y = x)) as [->|]; set_solver.
Qed.

Lemma claim_turn_flagged (x : nat) (ids A S T : gset nat) :
  x ∈ S → ids ∪ (({[x]} ∪ A) ∖ S) = T → ids ∪ (A ∖ S) = T.
Proof. set_solver. Qed.

Lemma flag_turn_unflagged (x : nat) (A S R : gset nat) :
  S ∪ ({[x]} ∪ A) = R → ({[x]} ∪ S) ∪ A = R.
Proof. set_solver. Qed.

Lemma flag_turn_flagged (x : nat) (A S R : gset nat) :
  x ∈ S → S ∪ ({[x]} ∪ A) = R → S ∪ A = R.
Proof. set_solver. Qed.

Lemma claim_done (ids S S0 T R : gset nat) :
  ids ∪ (∅ ∖ S) = T → S ∪ ∅ = R → ids = T ∧ S = R.
Proof. set_solver. Qed.

(** The loop of lines 121-125 from a mesh [with_SLAVE S base]: the local
    [node_ids] gains the unflagged nodes, and they are flagged. *)
Lemma wp_claim_nodes (base : Mesh) (s : Analysis) (conds : list Condition)
    (S : gset nat) :
  wp (for_fold conds (∅ : gset nat) (λ node_ids cond,
        for_fold (cond_GetNodes cond) node_ids (λ node_ids node,
          bind (Is_SLAVE node) (λ slave,
            if negb slave
            then bind (Set_SLAVE node) (λ _, ret ({[node]} ∪ node_ids))
            else ret node_ids))))
     (λ node_ids w',
        self w' = s
        ∧ mesh w' = with_SLAVE (S ∪ nodes_of conds) base
        ∧ node_ids = nodes_of conds ∖ S)
     {| self := s; mesh := with_SLAVE S base |}.
Proof.
  generalize (eq_refl (nodes_of conds)).
  generalize (nodes_of conds) at 1 3 4. intros T HT.
  eapply wp_mono.
  - apply (wp_for_fold (λ rest ids w1,
      self w1 = s
      ∧ ∃ S1, mesh w1 = with_SLAVE S1 base
              ∧ ids ∪ (nodes_of rest ∖ S1) = T ∖ S
              ∧ S1 ∪ nodes_of rest = S ∪ T)).
    + split; [done|]. exists S. split; [done|]. rewrite <- HT.
      split; [apply union_empty_l_L|done].
    + intros cond rest ids w1 (Hs & S1 & Hm & Hids & HS).
      rewrite nodes_of_cons in Hids, HS.
      revert Hids HS. generalize (nodes_of rest). intros A Hids HS.
      eapply wp_mono.
      * apply (wp_for_fold (λ nrest ids' w2,
          self w2 = s
          ∧ ∃ S2, mesh w2 = with_SLAVE S2 base
                  ∧ ids' ∪ ((list_to_set nrest ∪ A) ∖ S2) = T ∖ S
                  ∧ S2 ∪ (list_to_set nrest ∪ A) = S ∪ T)).
        { split; [done|]. by exists S1. }
        intros node nrest ids' w2 (Hs2 & S2 & Hm2 & Hids2 & HS2).
        rewrite list_to_set_cons, <- (assoc_L (∪)) in Hids2, HS2.
        revert Hids2 HS2. generalize (list_to_set nrest ∪ A). clear A Hids HS.
        intros A Hids2 HS2.
        apply wp_bind. unfold Is_SLAVE. apply wp_read. rewrite Hm2. simpl.
        destruct (bool_decide (node ∈ S2)) eqn:Hin; simpl.
        -- apply bool_decide_eq_true in Hin. apply wp_ret.
           split; [done|]. exists S2. split; [done|].
           eauto using claim_turn_flagged, flag_turn_flagged.
        -- apply bool_decide_eq_false in Hin.
           apply wp_bind. unfold Set_SLAVE. apply wp_update_mesh, wp_ret.
           simpl. split; [done|]. exists ({[node]} ∪ S2).
           rewrite Hm2. split; [done|].
           eauto using claim_turn_unflagged, flag_turn_unflagged.
      * simpl. intros ids' w2 (Hs2 & S2 & Hm2 & Hids2 & HS2).
        split; [done|]. exists S2. split; [done|].
        rewrite (left_id_L ∅ (∪)) in Hids2. by rewrite (left_id_L ∅ (∪)) in HS2.
  - simpl. intros ids w' (Hs & S1 & Hm & Hids & HS).
    change (nodes_of []) with (∅ : gset nat) in Hids, HS.
    destruct (claim_done _ _ S _ _ Hids HS) as [-> ->].
    by rewrite Hm.
Qed.

(** The loop of lines 115-118 from a mesh [set_face face C nodes base]. *)
Lemma wp_collect_conditions (base : Mesh) (s : Analysis) (face : string)
    (coordinate : Q) (component : nat) (eps : Q) (conds : list Condition)
    (C nodes : gset nat) :
  wp (for_each conds (λ cond,
        bind (index3 (cond_Center cond) component) (λ x,
          when (Qltb (Qabs (x - coordinate)) eps)
               (AddCondition (Sub face) cond))))
     (λ _ w',
        self w' = s
        ∧ mesh w'
          = set_face face
              (C ∪ list_to_set
                     (cond_Id <$> filter (λ c, close_to coordinate component
                                                 eps c = true) conds))
              nodes base)
     {| self := s; mesh := set_face face C nodes base |}.
Proof.
  revert C. induction conds as [|cond conds IH]; intros C.
  - apply wp_ret. simpl. by rewrite (right_id_L ∅ (∪)).
  - cbn [for_each]. apply wp_bind, wp_bind, wp_index3. intros x Hx.
    assert (close_to coordinate component eps cond
            = Qltb (Qabs (x - coordinate)) eps) as Hclose
      by (unfold close_to; by rewrite Hx).
    destruct (Qltb (Qabs (x - coordinate)) eps); cbn [when AddCondition].
    + apply wp_update_mesh. cbn [self mesh]. rewrite AddCondition_set_face.
      eapply wp_mono; [apply IH|]. cbn beta. intros ? w' [Hs Hm].
      split; [done|]. rewrite Hm, filter_cons_True by done.
      rewrite fmap_cons, list_to_set_cons. f_equal. set_solver.
    + apply wp_ret. eapply wp_mono; [apply IH|]. cbn beta.
      intros ? w' [Hs Hm].
      split; [done|]. rewrite Hm, filter_cons_False; [done|].
      by rewrite Hclose.
Qed.

(** A call of [__PopulateMp] that returns: the model part has conditions,
    the face returned is the sub model part of the root of that name, the
    attributes are untouched and the mesh is [populate] of the mesh. *)
Lemma wp___PopulateMp (face : string) (coordinate : Q) (component : nat)
    (eps : Q) (mp : ModelPart) (w : World) :
  wp (__PopulateMp face coordinate component eps mp)
     (λ f w',
        f = Sub face
        ∧ self w' = self w
        ∧ mesh w' = populate face coordinate component eps (mesh w)
        ∧ NumberOfConditions mp (mesh w) ≠ 0%nat)
     w.
Proof.
  unfold __PopulateMp. apply wp_bind, wp_read.
  destruct (NumberOfConditions mp (mesh w) =? 0)%nat eqn:Hn;
    [apply wp_raise|]. apply Nat.eqb_neq in Hn.
  destruct w as [s m]. simpl in *.
  set (C0 := smp_conditions (sub_of m face)).
  set (N0 := smp_nodes (sub_of m face)).
  apply wp_bind. unfold HasSubModelPart at 1. apply wp_read. simpl.
  apply wp_bind. apply wp_mono with
    (Φ := λ _ w1, w1 = {| self := s; mesh := set_face face C0 N0 m |}).
  { destruct (bool_decide (is_Some (SubModelParts m !! face))) eqn:Hhas;
      simpl.
    - apply bool_decide_eq_true in Hhas. apply wp_ret.
      unfold C0, N0. by rewrite <- set_face_existing.
    - apply bool_decide_eq_false in Hhas.
      apply eq_None_not_Some in Hhas.
      apply wp_update_mesh. simpl. by rewrite set_face_missing. }
  intros _ w1 ->.
  apply wp_bind. unfold GetSubModelPart, HasSubModelPart.
  apply wp_bind, wp_read. simpl. rewrite lookup_insert_eq.
  rewrite bool_decide_eq_true_2 by eauto. apply wp_ret.
  apply wp_bind, wp_read. simpl.
  apply wp_bind. eapply wp_mono; [apply wp_collect_conditions|].
  simpl. intros _ [s1 m1] [Hs1 Hm1]. simpl in *. subst s1 m1.
  set (C := C0 ∪ _).
  apply wp_bind, wp_read. simpl.
  rewrite sub_of_set_face. simpl.
  apply wp_bind.
  change (set_face face C N0 m)
    with (with_SLAVE (SLAVE m) (set_face face C N0 m)).
  eapply wp_mono; [apply wp_claim_nodes|].
  simpl. intros node_ids [s2 m2] (Hs2 & Hm2 & Hids). simpl in *.
  subst s2 m2 node_ids.
  apply wp_bind, wp_update_mesh. simpl. apply wp_ret. simpl.
  repeat split; try done.
  unfold populate, AddNodes_mesh.
  fold C0 N0 C. unfold nodes_of.
  set (T := list_to_set (concat _)).
  change (sub_of (with_SLAVE (SLAVE m ∪ T) (set_face face C N0 m)) face)
    with (sub_of (set_face face C N0 m) face).
  rewrite sub_of_set_face. simpl.
  unfold set_face, with_SLAVE, with_SubModelParts. simpl.
  rewrite insert_insert_eq. by rewrite list_to_set_elements_L.
Qed.

(** ** The pass over the faces *)

(** The faces of one pass of [_ConstructFaceModelParts] in the order of the
    calls of [__PopulateMp] (lines 139-148), each with the coordinate and
    the component it is classified by. *)
Definition classification (d : Z) (min_corner max_corner : Array3)
  : list (string * Q * nat) :=
  [("max_x_face", c0 max_corner, 0%nat); ("max_y_face", c1 max_corner, 1%nat)]
  ++ (if (d =? 3)%Z then [("max_z_face", c2 max_corner, 2%nat)] else [])
  ++ [("min_x_face", c0 min_corner, 0%nat);
      ("min_y_face", c1 min_corner, 1%nat)]
  ++ (if (d =? 3)%Z then [("min_z_face", c2 min_corner, 2%nat)] else []).

Definition classification_order (d : Z) : list string :=
  ["max_x_face"; "max_y_face"]
  ++ (if (d =? 3)%Z then ["max_z_face"] else [])
  ++ ["min_x_face"; "min_y_face"]
  ++ (if (d =? 3)%Z then ["min_z_face"] else []).

(** The faces checked for conditions at the end of the pass (lines
    150-155). *)
Definition checked_faces (d : Z) : list string :=
  ["min_x_face"; "min_y_face"] ++ (if (d =? 3)%Z then ["min_z_face"] else []).

Definition classify (eps : Q) (faces : list (string * Q * nat)) (m : Mesh)
  : Mesh :=
  foldl (λ m face, populate face.1.1 face.1.2 face.2 eps m) m faces.

(** Lines 135-136. *)
Definition reset_flags (mp : ModelPart) (m : Mesh) : Mesh :=
  let m := with_SLAVE (clear_flag (SLAVE m) (Nodes mp m)) m in
  with_MASTER (clear_flag (MASTER m) (Nodes mp m)) m.

(** The nodes a face holds, and the nodes of the conditions it holds. *)
Definition assigned (name : string) (m : Mesh) : gset nat :=
  smp_nodes (sub_of m name).

Definition touched (name : string) (m : Mesh) : gset nat :=
  facet_nodes (Sub name) m.

Lemma populate_root_Conditions face coordinate component eps m :
  root_Conditions (populate face coordinate component eps m)
  = root_Conditions m.
Proof. done. Qed.

Lemma populate_sub_of_ne face coordinate component eps m name :
  face ≠ name →
  sub_of (populate face coordinate component eps m) name = sub_of m name.
Proof. intros Hne. unfold populate. by apply sub_of_set_face_ne. Qed.

Lemma touched_eq name m m' :
  root_Conditions m' = root_Conditions m → sub_of m' name = sub_of m name →
  touched name m' = touched name m.
Proof.
  intros Hroot Hsub. unfold touched, facet_nodes, Conditions.
  by rewrite Hroot, Hsub.
Qed.

Lemma assigned_populate face coordinate component eps m :
  assigned face (populate face coordinate component eps m)
  = (touched face (populate face coordinate component eps m) ∖ SLAVE m)
    ∪ assigned face m.
Proof.
  unfold assigned, touched, facet_nodes, Conditions, populate.
  change (sub_of (with_SLAVE ?S ?x) face) with (sub_of x face).
  by rewrite sub_of_set_face.
Qed.

Lemma SLAVE_populate face coordinate component eps m :
  SLAVE (populate face coordinate component eps m)
  = SLAVE m ∪ touched face (populate face coordinate component eps m).
Proof.
  unfold touched, facet_nodes, Conditions, populate.
  change (sub_of (with_SLAVE ?S ?x) face) with (sub_of x face).
  by rewrite sub_of_set_face.
Qed.

Lemma classify_root_Conditions eps faces m :
  root_Conditions (classify eps faces m) = root_Conditions m.
Proof.
  revert m. induction faces as [|face faces IH]; intros m; [done|].
  simpl. by rewrite IH.
Qed.

Lemma classify_sub_of_other eps faces m name :
  name ∉ faces.*1.*1 →
  sub_of (classify eps faces m) name = sub_of m name.
Proof.
  revert m. induction faces as [|face faces IH]; intros m Hname; [done|].
  simpl in *. apply not_elem_of_cons in Hname as [Hne Hname].
  rewrite IH by done. by apply populate_sub_of_ne.
Qed.

(** [claimed_in_order S names m]: in [m], each face of [names] holds the
    nodes of its conditions that are neither in [S] nor nodes of the
    conditions of a face before it in [names]. *)
Fixpoint claimed_in_order (S : gset nat) (names : list string) (m : Mesh)
  : Prop :=
  match names with
  | [] => True
  | name :: names =>
      assigned name m = touched name m ∖ S
      ∧ claimed_in_order (S ∪ touched name m) names m
  end.

Lemma classify_claimed_in_order eps faces m :
  NoDup faces.*1.*1 →
  (∀ name, name ∈ faces.*1.*1 → assigned name m = ∅) →
  claimed_in_order (SLAVE m) faces.*1.*1 (classify eps faces m).
Proof.
  revert m. induction faces as [|[[face coordinate] component] faces IH];
    intros m Hnodup Hfresh; [done|].
  simpl in *. apply NoDup_cons in Hnodup as [Hface Hnodup].
  set (m1 := populate face coordinate component eps m).
  assert (touched face (classify eps faces m1) = touched face m1) as Ht.
  { apply touched_eq; [apply classify_root_Conditions|].
    by apply classify_sub_of_other. }
  split.
  - unfold assigned. rewrite classify_sub_of_other by done.
    fold (assigned face m1). rewrite Ht. unfold m1.
    rewrite assigned_populate, Hfresh by set_solver.
    by rewrite (right_id_L ∅ (∪)).
  - rewrite Ht. unfold m1 at 1. rewrite <- SLAVE_populate. fold m1.
    apply IH; [done|]. intros name Hname. unfold assigned, m1.
    rewrite populate_sub_of_ne by (intros ->; done).
    apply Hfresh. set_solver.
Qed.

(** What [claimed_in_order] says of the face at a position: it holds the
    nodes of its conditions outside a set [S'] made of [S] and of the nodes
    of the conditions of the faces before it. *)
Lemma claimed_in_order_lookup S names m j g :
  claimed_in_order S names m → names !! j = Some g →
  ∃ S' : gset nat,
    assigned g m = touched g m ∖ S'
    ∧ S ⊆ S'
    ∧ (∀ i f, (i < j)%nat → names !! i = Some f → touched f m ⊆ S')
    ∧ (∀ n, n ∈ S' →
         n ∈ S ∨ ∃ i f, (i < j)%nat ∧ names !! i = Some f ∧ n ∈ touched f m).
Proof.
  revert S j. induction names as [|name names IH]; intros S j Hc Hj; [done|].
  destruct Hc as [Hname Hrest]. destruct j as [|j].
  - injection Hj as <-. exists S. split; [done|]. split; [done|].
    split; [intros; lia|]. auto.
  - destruct (IH _ _ Hrest Hj) as (S' & Hg & HS & Hbefore & Hfrom).
    exists S'. split; [done|]. split; [set_solver|]. split.
    + intros [|i] f Hi Hf.
      * injection Hf as <-. set_solver.
      * apply (Hbefore i f); [lia|done].
    + intros n Hn. destruct (Hfrom n Hn) as [[?|Hn']%elem_of_union|Hn'].
      * by left.
      * right. exists 0%nat, name. split; [lia|done].
      * right. destruct Hn' as (i & f & Hi & Hf & Hin).
        exists (Datatypes.S i), f. split; [lia|done].
Qed.

Section Pass.
Context {U : Type} {N : Native U}.

(** Lines 131-133. *)
Definition search_eps (s : Analysis) (min_corner max_corner : Array3) : Q :=
  let diag_vect := sub3 max_corner min_corner in
  (populate_search_eps s
   * math_sqrt (c0 diag_vect ^ 2 + c1 diag_vect ^ 2 + c2 diag_vect ^ 2))%Q.

Ltac attrs :=
  cbn [self mesh setattr domain_size strain_size populate_search_eps
       min_corner max_corner max_x_face max_y_face max_z_face
       min_x_face min_y_face min_z_face].

Ltac populate_turn :=
  apply wp_bind; eapply wp_mono; [apply wp___PopulateMp|];
  cbn beta; intros ? [? ?] (-> & ? & ? & _); cbn [self mesh] in *; subst;
  first [apply wp_bind, wp_setattr | apply wp_setattr]; attrs.

Ltac check_turn Hn :=
  unfold check_face; apply wp_bind, wp_optional_attribute; attrs;
  intros ? [= <-]; apply wp_bind, wp_read; attrs;
  match goal with
  | |- context [(?n =? 0)%nat] => destruct (n =? 0)%nat eqn:Hn
  end; [apply wp_raise|apply Nat.eqb_neq in Hn; apply wp_ret].

(** A pass that returns has classified the faces in the order of
    [classification], from the mesh with the flags of the nodes of the model
    part cleared; the faces it checked have conditions; and the attributes
    name the faces. *)
Lemma wp__ConstructFaceModelParts (lower upper : Array3)
    (mp : ModelPart) (w : World) :
  wp (_ConstructFaceModelParts lower upper mp)
     (λ _ w',
        let d := domain_size (self w) in
        mesh w' = classify (search_eps (self w) lower upper)
                    (classification d lower upper)
                    (reset_flags mp (mesh w))
        ∧ (∀ name, name ∈ checked_faces d →
             NumberOfConditions (Sub name) (mesh w') ≠ 0%nat)
        ∧ domain_size (self w') = d
        ∧ strain_size (self w') = strain_size (self w)
        ∧ min_corner (self w') = min_corner (self w)
        ∧ max_corner (self w') = max_corner (self w)
        ∧ max_x_face (self w') = Some (Sub "max_x_face")
        ∧ max_y_face (self w') = Some (Sub "max_y_face")
        ∧ min_x_face (self w') = Some (Sub "min_x_face")
        ∧ min_y_face (self w') = Some (Sub "min_y_face")
        ∧ (d = 3 → max_z_face (self w') = Some (Sub "max_z_face")
                   ∧ min_z_face (self w') = Some (Sub "min_z_face")))
     w.
Proof.
  destruct w as [s m]. unfold _ConstructFaceModelParts.
  apply wp_bind, wp_attribute. attrs.
  fold (search_eps s lower upper).
  generalize (search_eps s lower upper). intros eps.
  apply wp_bind, wp_read. attrs.
  apply wp_bind, wp_update_mesh. attrs.
  apply wp_bind, wp_read. attrs.
  apply wp_bind, wp_update_mesh. attrs.
  fold (reset_flags mp m). generalize (reset_flags mp m). clear m. intros m.
  populate_turn. populate_turn.
  apply wp_bind, wp_attribute. attrs.
  unfold classification, checked_faces.
  destruct (domain_size s =? 3)%Z eqn:Hd; cbn [when].
  - apply wp_bind. populate_turn.
    populate_turn. populate_turn.
    apply wp_bind, wp_attribute. attrs. rewrite Hd. cbn [when].
    apply wp_bind. populate_turn.
    apply wp_bind. check_turn Hx.
    apply wp_bind. check_turn Hy.
    apply wp_bind, wp_attribute. attrs. rewrite Hd. cbn [when].
    check_turn Hz.
    attrs. split; [reflexivity|]. split; [|by repeat split].
    intros name Hname. set_unfold in Hname.
    destruct Hname as [->|[->|[->|[]]]]; [exact Hx|exact Hy|exact Hz].
  - apply wp_bind, wp_ret.
    populate_turn. populate_turn.
    apply wp_bind, wp_attribute. attrs. rewrite Hd. cbn [when].
    apply wp_bind, wp_ret.
    apply wp_bind. check_turn Hx.
    apply wp_bind. check_turn Hy.
    apply wp_bind, wp_attribute. attrs. rewrite Hd. cbn [when].
    apply wp_ret.
    attrs. split; [reflexivity|]. split.
    + intros name Hname. set_unfold in Hname.
      destruct Hname as [->|[->|[]]]; [exact Hx|exact Hy].
    + apply Z.eqb_neq in Hd. by repeat split.
Qed.

(** ** What a pass leaves alone *)

Definition same_constraints (w w' : World) : Prop :=
  MasterSlaveConstraints (mesh w') = MasterSlaveConstraints (mesh w).

#[local] Instance same_constraints_refl : Reflexive same_constraints.
Proof. by intros w. Qed.

#[local] Instance same_constraints_trans : Transitive same_constraints.
Proof. intros w1 w2 w3 H12 H23. unfold same_constraints. congruence. Qed.

Lemma keeps_read {A} (R : World → World → Prop) `{!Reflexive R}
    (f : Mesh → A) :
  keeps R (read f).
Proof. by intros w r w' [= <- <-]. Qed.

Lemma keeps_field {A} (R : World → World → Prop) `{!Reflexive R}
    (f : Analysis → A) :
  keeps R (field f).
Proof. by intros w r w' [= <- <-]. Qed.

Lemma keeps_index3 (R : World → World → Prop) `{!Reflexive R} a i :
  keeps R (index3 a i).
Proof.
  unfold index3. destruct (at3 a i); [by apply keeps_ret|by apply keeps_raise].
Qed.

Lemma keeps_assign (a : Attribute) : keeps same_constraints (assign a).
Proof. by intros w r w' [= <- <-]. Qed.

Lemma keeps_update_mesh (f : Mesh → Mesh) :
  (∀ m, MasterSlaveConstraints (f m) = MasterSlaveConstraints m) →
  keeps same_constraints (update_mesh f).
Proof. intros Hf w r w' [= <- <-]. apply Hf. Qed.

Ltac instances :=
  try match goal with
      | |- Reflexive _ => apply _
      | |- Transitive _ => apply _
      end.

Ltac keeps_step :=
  first
    [ apply keeps_bind; instances; [|intros ?]
    | apply keeps_ret; instances
    | apply keeps_raise; instances
    | apply keeps_read; instances
    | apply keeps_field; instances
    | apply keeps_index3; instances
    | apply keeps_attr; instances
    | apply keeps_assign
    | apply keeps_update_mesh; done
    | apply keeps_when; instances
    | apply keeps_for_each; instances; intros ?
    | apply keeps_for_fold; instances; intros ? ?
    | match goal with
      | |- keeps _ (if ?b then _ else _) => destruct b
      | |- keeps _ (match ?f with Root => _ | Sub _ => _ end) => destruct f
      end ].

Ltac keeps_constraints := repeat keeps_step.

Lemma keeps___PopulateMp face coordinate component eps mp :
  keeps same_constraints (__PopulateMp face coordinate component eps mp).
Proof.
  unfold __PopulateMp, HasSubModelPart, GetSubModelPart, HasSubModelPart,
    CreateSubModelPart, AddCondition, AddNodes, Is_SLAVE, Set_SLAVE.
  keeps_constraints.
Qed.

Lemma keeps__ConstructFaceModelParts lower upper mp :
  keeps same_constraints (_ConstructFaceModelParts lower upper mp).
Proof.
  unfold _ConstructFaceModelParts, check_face, self_attr.
  repeat first [apply keeps___PopulateMp | keeps_step].
Qed.

(** C3, as the code has it.  Whatever the outcome of a pass of
    [_ConstructFaceModelParts], it has built, changed or removed no
    master-slave constraint; and for every axis below the domain size, if
    the min face has no condition once the faces are classified, the pass
    has raised.  The max faces are not checked. *)
Theorem C3_min_faces_checked (lower upper : Array3) (mp : ModelPart)
    (w w' : World) (out : outcome unit) :
  _ConstructFaceModelParts lower upper mp w = (out, w') →
  MasterSlaveConstraints (mesh w') = MasterSlaveConstraints (mesh w)
  ∧ ∀ name, name ∈ checked_faces (domain_size (self w)) →
            NumberOfConditions (Sub name) (mesh w') = 0%nat →
            ∃ msg, out = Raise msg.
Proof.
  intros Hrun. split.
  - by apply (keeps__ConstructFaceModelParts _ _ _ _ _ _ Hrun).
  - intros name Hname Hzero. destruct out as [r|msg]; [|by exists msg].
    pose proof (wp__ConstructFaceModelParts lower upper mp w) as Hwp.
    apply (wp_elim _ _ _ _ _ Hwp) in Hrun as (_ & Hchecked & _).
    by destruct (Hchecked name Hname).
Qed.

(** C9.  On a model part with at least one node, [_DetectBoundingBox]
    returns, changes nothing, and returns corners with
    [min_corner[i] <= max_corner[i]] on every axis [i] below a domain size
    [d] of 2 or 3. *)
Theorem C9_bounding_box_ordered (mp : ModelPart) (w : World) (d i : nat) :
  Nodes mp (mesh w) ≠ [] →
  d = 2%nat ∨ d = 3%nat →
  (i < d)%nat →
  ∃ lower upper lo hi,
    _DetectBoundingBox mp w = (Ok (lower, upper), w)
    ∧ at3 lower i = Some lo ∧ at3 upper i = Some hi ∧ (lo <= hi)%Q.
Proof.
  intros Hnodes Hd Hi. unfold _DetectBoundingBox, bind, read, ret.
  destruct (Nodes mp (mesh w)) as [|node nodes] eqn:Hn; [done|].
  rewrite <- Hn. clear Hnodes.
  pose proof (bounding_box_step_encloses
                ({| c0 := sentinel; c1 := sentinel; c2 := sentinel |},
                 {| c0 := - sentinel; c1 := - sentinel; c2 := - sentinel |})
                (Nodes mp (mesh w))) as (_ & _ & Hall).
  fold (bounding_box (Nodes mp (mesh w))) in Hall.
  destruct (bounding_box (Nodes mp (mesh w))) as [lower upper].
  specialize (Hall node). rewrite Hn in Hall.
  destruct Hall as ((Hx1 & Hx2) & (Hy1 & Hy2) & (Hz1 & Hz2)); [by left|].
  simpl in *.
  assert (i = 0 ∨ i = 1 ∨ i = 2)%nat as [ -> | [ -> | -> ] ] by lia;
    eexists lower, upper, _, _; (split; [done|]);
    (split; [done|]); (split; [done|]); eapply Qle_trans; eassumption.
Qed.

(** ** One face per node *)

Lemma disjoint_claims (Tf Tg Si Sj : gset nat) :
  Tf ⊆ Sj → (Tf ∖ Si) ## (Tg ∖ Sj).
Proof. set_solver. Qed.

Definition max_faces : list string := ["max_x_face"; "max_y_face"; "max_z_face"].
Definition min_faces : list string := ["min_x_face"; "min_y_face"; "min_z_face"].

Lemma classification_names d lower upper :
  (classification d lower upper).*1.*1 = classification_order d.
Proof. unfold classification, classification_order. by destruct (d =? 3)%Z. Qed.

Lemma classification_order_NoDup d : NoDup (classification_order d).
Proof.
  unfold classification_order. destruct (d =? 3)%Z; compute_done.
Qed.

Lemma max_before_min d i j f g :
  classification_order d !! i = Some f →
  classification_order d !! j = Some g →
  f ∈ max_faces → g ∈ min_faces → (i < j)%nat.
Proof.
  unfold classification_order, max_faces, min_faces.
  rewrite !elem_of_cons, !elem_of_nil.
  intros Hf Hg Hmax Hmin.
  destruct (d =? 3)%Z;
    (destruct i as [|[|[|[|[|[|i]]]]]]; simpl in Hf; try discriminate Hf;
     injection Hf as <-);
    (destruct j as [|[|[|[|[|[|j]]]]]]; simpl in Hg; try discriminate Hg;
     injection Hg as <-);
    try lia; exfalso; intuition discriminate.
Qed.

(** C6.  In a pass of [_ConstructFaceModelParts] that returns, started with
    no node in the faces, with the faces taken in the order of the calls of
    [__PopulateMp] (max x, max y, max z in 3D, then min x, min y, min z in
    3D): two different faces share no node; a node a face holds is a node of
    one of its conditions and of no condition of a face classified before
    it; a node of a condition of a face, of no condition of a face
    classified before it, and whose flag was clear or cleared at the start
    of the pass, is held by that face; and every max face is classified
    before every min face. *)
Theorem C6_one_face_per_node (lower upper : Array3) (mp : ModelPart)
    (w w' : World) (r : unit) :
  _ConstructFaceModelParts lower upper mp w = (Ok r, w') →
  let order := classification_order (domain_size (self w)) in
  (∀ name, name ∈ order → assigned name (mesh w) = ∅) →
  (∀ i j f g, (i < j)%nat → order !! i = Some f → order !! j = Some g →
     assigned f (mesh w') ## assigned g (mesh w'))
  ∧ (∀ j g n, order !! j = Some g → n ∈ assigned g (mesh w') →
       n ∈ touched g (mesh w')
       ∧ ∀ i f, (i < j)%nat → order !! i = Some f → n ∉ touched f (mesh w'))
  ∧ (∀ j g n, order !! j = Some g → n ∈ touched g (mesh w') →
       (∀ i f, (i < j)%nat → order !! i = Some f →
          n ∉ touched f (mesh w')) →
       n ∈ node_Id <$> Nodes mp (mesh w) ∨ n ∉ SLAVE (mesh w) →
       n ∈ assigned g (mesh w'))
  ∧ (∀ i j f g, order !! i = Some f → order !! j = Some g →
       f ∈ max_faces → g ∈ min_faces → (i < j)%nat).
Proof.
  intros Hrun order Hfresh.
  pose proof (wp__ConstructFaceModelParts lower upper mp w) as Hwp.
  apply (wp_elim _ _ _ _ _ Hwp) in Hrun as (Hmesh & _).
  pose proof (classify_claimed_in_order
                (search_eps (self w) lower upper)
                (classification (domain_size (self w)) lower upper)
                (reset_flags mp (mesh w))) as Hclaimed.
  rewrite classification_names, <- Hmesh in Hclaimed.
  specialize (Hclaimed (classification_order_NoDup _) Hfresh).
  fold order in Hclaimed.
  change (SLAVE (reset_flags mp (mesh w)))
    with (clear_flag (SLAVE (mesh w)) (Nodes mp (mesh w))) in Hclaimed.
  revert Hclaimed. generalize (mesh w'). intros m' Hclaimed.
  split; [|split; [|split]].
  - intros i j f g Hij Hf Hg.
    destruct (claimed_in_order_lookup _ _ _ _ _ Hclaimed Hf)
      as (Si & Hfa & _).
    destruct (claimed_in_order_lookup _ _ _ _ _ Hclaimed Hg)
      as (Sj & Hga & _ & Hbefore & _).
    specialize (Hbefore i f Hij Hf). rewrite Hfa, Hga.
    by apply disjoint_claims.
  - intros j g n Hg Hn.
    destruct (claimed_in_order_lookup _ _ _ _ _ Hclaimed Hg)
      as (Sj & Hga & _ & Hbefore & _).
    rewrite Hga in Hn. apply elem_of_difference in Hn as [Hn HSj].
    split; [done|].
    intros i f Hij Hf Hin. apply HSj. by apply (Hbefore i f Hij Hf).
  - intros j g n Hg Hn Hfirst Hclear.
    destruct (claimed_in_order_lookup _ _ _ _ _ Hclaimed Hg)
      as (Sj & Hga & _ & _ & Hfrom).
    rewrite Hga. apply elem_of_difference. split; [done|].
    intros [Hflag|(i & f & Hij & Hf & Hin)]%Hfrom.
    + unfold clear_flag in Hflag.
      apply elem_of_difference in Hflag as [Hflag Hnode].
      rewrite elem_of_list_to_set in Hnode. by destruct Hclear.
    + by apply (Hfirst i f Hij Hf).
  - intros i j f g. apply max_before_min.
Qed.

(** ** Applying periodicity *)

(** The world with the store of constraints emptied. *)
Definition cleared (w : World) : World :=
  {| self := self w; mesh := with_MasterSlaveConstraints [] (mesh w) |}.

(** Lines 159-162 leave no constraint: each one is flagged, and the flagged
    ones are removed. *)
Lemma erase_all (store : list Constraint) :
  filter (λ c, TO_ERASE c = false) (Set_TO_ERASE <$> store) = [].
Proof.
  induction store as [|c store IH]; [done|].
  rewrite fmap_cons, filter_cons_False; [done|]. simpl. congruence.
Qed.

Lemma bind_update_mesh {A} (f : Mesh → Mesh) (k : unit → M World A) w :
  bind (update_mesh f) k w = k tt {| self := self w; mesh := f (mesh w) |}.
Proof. reflexivity. Qed.

(** [_ApplyPeriodicity] does not depend on the store it starts from. *)
Lemma _ApplyPeriodicity_cleared strain volume_mp boundary_mp w :
  _ApplyPeriodicity strain volume_mp boundary_mp w
  = _ApplyPeriodicity strain volume_mp boundary_mp (cleared w).
Proof.
  unfold _ApplyPeriodicity.
  rewrite (bind_update_mesh _ _ w), (bind_update_mesh _ _ (cleared w)).
  rewrite !bind_update_mesh. cbn [self mesh cleared].
  f_equal. f_equal. unfold with_MasterSlaveConstraints.
  cbn [MasterSlaveConstraints root_Name root_Nodes root_Conditions
       SubModelParts SLAVE MASTER].
  by rewrite !erase_all.
Qed.

(** Only the store of constraints changes. *)
Definition only_constraints (w w' : World) : Prop := cleared w' = cleared w.

#[local] Instance only_constraints_refl : Reflexive only_constraints.
Proof. by intros w. Qed.

#[local] Instance only_constraints_trans : Transitive only_constraints.
Proof. intros w1 w2 w3 H12 H23. unfold only_constraints. congruence. Qed.

Lemma keeps_native {A} (R : World → World → Prop) `{!Reflexive R}
    (o : outcome A) :
  keeps R (native o).
Proof. by intros w r w' [= <- <-]. Qed.

Lemma keeps_update_constraints (f : Mesh → Mesh) :
  (∀ m, with_MasterSlaveConstraints [] (f m)
        = with_MasterSlaveConstraints [] m) →
  keeps only_constraints (update_mesh f).
Proof.
  intros Hf w r w' [= <- <-]. unfold only_constraints, cleared. simpl.
  by rewrite Hf.
Qed.

Lemma keeps__ApplyPeriodicity strain volume_mp boundary_mp :
  keeps only_constraints (_ApplyPeriodicity strain volume_mp boundary_mp).
Proof.
  unfold _ApplyPeriodicity, assign_periodicity, separation, self_attr.
  repeat first [ apply keeps_update_constraints; done
               | apply keeps_native; instances
               | keeps_step ].
Qed.

Ltac wp_turn :=
  lazymatch goal with
  | |- wp (bind _ _) _ _ => apply wp_bind
  | |- wp (update_mesh _) _ _ => apply wp_update_mesh
  | |- wp (field _) _ _ => apply wp_attribute
  | |- wp (read _) _ _ => apply wp_read
  | |- wp (ret _) _ _ => apply wp_ret
  | |- wp (self_attr _ _) _ _ => apply wp_optional_attribute; intros ? ?
  | |- wp (index3 _ _) _ _ => apply wp_index3; intros ? ?
  | |- wp (native _) _ _ => apply wp_native; intros ? ?
  | |- wp (if ?b then _ else _) _ _ => destruct b
  end.

(** What a call that returns leaves in the store: the constraints [Finalize]
    created from an empty store. *)
Lemma _ApplyPeriodicity_store strain volume_mp boundary_mp w r w' :
  _ApplyPeriodicity strain volume_mp boundary_mp w = (Ok r, w') →
  ∃ periodicity_utility,
    Finalize "VELOCITY" periodicity_utility []
    = Ok (MasterSlaveConstraints (mesh w')).
Proof.
  rewrite _ApplyPeriodicity_cleared. by_wp.
  unfold _ApplyPeriodicity, assign_periodicity, separation.
  repeat (wp_turn; cbn beta;
          cbn [self mesh cleared with_MasterSlaveConstraints
               MasterSlaveConstraints] in *);
    rewrite ?erase_all in *; simpl in *; eauto.
Qed.

(** C7.  A call of [_ApplyPeriodicity] that returns has left in the store
    exactly the constraints the periodicity utility created from an empty
    store: whatever the store held before, of whatever origin, plays no part.
    Called again with the same strain it returns again and leaves the same
    world, so the store has the same size both times. *)
Theorem C7_periodicity_rebuilt (strain : Matrix)
    (volume_mp boundary_mp : ModelPart) (w w1 : World) (r : unit) :
  _ApplyPeriodicity strain volume_mp boundary_mp w = (Ok r, w1) →
  (∃ periodicity_utility,
     Finalize "VELOCITY" periodicity_utility []
     = Ok (MasterSlaveConstraints (mesh w1)))
  ∧ (∀ store,
       _ApplyPeriodicity strain volume_mp boundary_mp
         {| self := self w;
            mesh := with_MasterSlaveConstraints store (mesh w) |}
       = (Ok r, w1))
  ∧ _ApplyPeriodicity strain volume_mp boundary_mp w1 = (Ok r, w1)
  ∧ ∀ r2 w2,
      _ApplyPeriodicity strain volume_mp boundary_mp w1 = (Ok r2, w2) →
      length (MasterSlaveConstraints (mesh w2))
      = length (MasterSlaveConstraints (mesh w1)).
Proof.
  intros Hrun.
  assert (_ApplyPeriodicity strain volume_mp boundary_mp w1 = (Ok r, w1))
    as Hagain.
  { rewrite _ApplyPeriodicity_cleared.
    rewrite (keeps__ApplyPeriodicity _ _ _ _ _ _ Hrun).
    by rewrite <- _ApplyPeriodicity_cleared. }
  split; [by eapply _ApplyPeriodicity_store|].
  split; [|split; [done|]].
  - intros store. rewrite _ApplyPeriodicity_cleared.
    by rewrite _ApplyPeriodicity_cleared in Hrun.
  - intros r2 w2 Hrun2. rewrite Hagain in Hrun2. by injection Hrun2 as _ <-.
Qed.

End Pass.

(** ** Every outcome of the analysis's methods *)

Section Outcomes.
Context {U : Type} {N : Native U}.
Local Open Scope py_scope.

Lemma wpx_setattr (a : Attribute) (Φ : unit → World → Prop)
    (Ψ : string → World → Prop) w :
  Φ tt {| self := setattr a (self w); mesh := mesh w |} →
  wpx (assign a) Φ Ψ w.
Proof. done. Qed.

Lemma wpx_update_mesh (f : Mesh → Mesh) (Φ : unit → World → Prop)
    (Ψ : string → World → Prop) w :
  Φ tt {| self := self w; mesh := f (mesh w) |} →
  wpx (update_mesh f) Φ Ψ w.
Proof. done. Qed.

Lemma wpx_attribute {A} (f : Analysis → A) (Φ : A → World → Prop)
    (Ψ : string → World → Prop) w :
  Φ (f (self w)) w → wpx (field f) Φ Ψ w.
Proof. done. Qed.

Lemma wpx_read {A} (f : Mesh → A) (Φ : A → World → Prop)
    (Ψ : string → World → Prop) w :
  Φ (f (mesh w)) w → wpx (read f) Φ Ψ w.
Proof. done. Qed.

Lemma wpx_optional_attribute {A} name (f : Analysis → option A)
    (Φ : A → World → Prop) (Ψ : string → World → Prop) w :
  (∀ a, f (self w) = Some a → Φ a w) →
  (f (self w) = None → Ψ ("AttributeError: " +:+ name) w) →
  wpx (self_attr name f) Φ Ψ w.
Proof. intros HΦ HΨ. by apply wpx_attr. Qed.

Lemma wpx_native {A} (o : outcome A) (Φ : A → World → Prop)
    (Ψ : string → World → Prop) w :
  (∀ a, o = Ok a → Φ a w) → (∀ msg, o = Raise msg → Ψ msg w) →
  wpx (native o) Φ Ψ w.
Proof. intros HΦ HΨ. unfold wpx, native. destruct o; auto. Qed.

Lemma wpx_index3 (a : Array3) i (Φ : Q → World → Prop)
    (Ψ : string → World → Prop) w :
  (∀ v, at3 a i = Some v → Φ v w) →
  (at3 a i = None → Ψ "IndexError: Array3 index out of range" w) →
  wpx (index3 a i) Φ Ψ w.
Proof.
  intros HΦ HΨ. unfold index3.
  destruct (at3 a i); [by apply wpx_ret, HΦ|by apply wpx_raise, HΨ].
Qed.

Lemma world_eta (w : World) : {| self := self w; mesh := mesh w |} = w.
Proof. by destruct w. Qed.

(** *** The bounding box *)

(** The position of a node as the loop of [_DetectBoundingBox] reads it. *)
Definition position (n : Node) : Array3 :=
  {| c0 := node_X n; c1 := node_Y n; c2 := node_Z n |}.

(** Each component of each corner is folded on its own. *)
Definition lowest (start : Q) (values : list Q) : Q :=
  foldl py_min start values.
Definition highest (start : Q) (values : list Q) : Q :=
  foldl py_max start values.

Lemma bounding_box_components (corners : Array3 * Array3) (nodes : list Node) :
  foldl bounding_box_step corners nodes
  = ({| c0 := lowest (c0 (fst corners)) (node_X <$> nodes);
        c1 := lowest (c1 (fst corners)) (node_Y <$> nodes);
        c2 := lowest (c2 (fst corners)) (node_Z <$> nodes) |},
     {| c0 := highest (c0 (snd corners)) (node_X <$> nodes);
        c1 := highest (c1 (snd corners)) (node_Y <$> nodes);
        c2 := highest (c2 (snd corners)) (node_Z <$> nodes) |}).
Proof.
  revert corners. induction nodes as [|n nodes IH]; intros [[] []]; [done|].
  cbn [foldl]. by rewrite IH.
Qed.

Lemma lowest_spec (start : Q) (values : list Q) :
  (lowest start values <= start)%Q
  ∧ (∀ v, v ∈ values → (lowest start values <= v)%Q)
  ∧ (lowest start values = start ∨ lowest start values ∈ values).
Proof.
  unfold lowest. revert start.
  induction values as [|v values IH]; intros start.
  - split; [apply Qle_refl|]. split; [|by left].
    intros v Hv. by apply not_elem_of_nil in Hv.
  - cbn [foldl]. destruct (IH (py_min start v)) as (Hle & Hall & Hin).
    split; [eapply Qle_trans; [exact Hle|apply py_min_le_l]|]. split.
    + intros v' [->|Hv']%elem_of_cons; [|by apply Hall].
      eapply Qle_trans; [exact Hle|apply py_min_le_r].
    + destruct Hin as [Hin|Hin]; [|right; by right].
      rewrite Hin. unfold py_min. destruct (Qltb v start); [right|left];
        [left|]; done.
Qed.

Lemma highest_spec (start : Q) (values : list Q) :
  (start <= highest start values)%Q
  ∧ (∀ v, v ∈ values → (v <= highest start values)%Q)
  ∧ (highest start values = start ∨ highest start values ∈ values).
Proof.
  unfold highest. revert start.
  induction values as [|v values IH]; intros start.
  - split; [apply Qle_refl|]. split; [|by left].
    intros v Hv. by apply not_elem_of_nil in Hv.
  - cbn [foldl]. destruct (IH (py_max start v)) as (Hle & Hall & Hin).
    split; [eapply Qle_trans; [apply py_max_ge_l|exact Hle]|]. split.
    + intros v' [->|Hv']%elem_of_cons; [|by apply Hall].
      eapply Qle_trans; [apply py_max_ge_r|exact Hle].
    + destruct Hin as [Hin|Hin]; [|right; by right].
      rewrite Hin. unfold py_max. destruct (Qltb start v); [right|left];
        [left|]; done.
Qed.

(** X11.  [_DetectBoundingBox] always returns and changes nothing.  On every
    axis the corners it returns enclose every node of the model part, and they
    are tight: a component of the min corner is the coordinate of one of the
    nodes, unless it is still the sentinel 1e20; likewise the max corner and
    -1e20.  On a model part without nodes both corners are the sentinels. *)
Theorem _DetectBoundingBox_tight (mp : ModelPart) (w : World) :
  ∃ lower upper,
    _DetectBoundingBox mp w = (Ok (lower, upper), w)
    ∧ (∀ i lo hi, at3 lower i = Some lo → at3 upper i = Some hi →
         (∀ n, n ∈ Nodes mp (mesh w) →
            ∃ x, at3 (position n) i = Some x ∧ (lo <= x <= hi)%Q)
         ∧ (lo = sentinel
            ∨ ∃ n, n ∈ Nodes mp (mesh w) ∧ at3 (position n) i = Some lo)
         ∧ (hi = (- sentinel)%Q
            ∨ ∃ n, n ∈ Nodes mp (mesh w)
                   ∧ at3 (position n) i = Some hi))
    ∧ (Nodes mp (mesh w) = [] →
       lower = {| c0 := sentinel; c1 := sentinel; c2 := sentinel |}
       ∧ upper = {| c0 := - sentinel; c1 := - sentinel; c2 := - sentinel |}).
Proof.
  unfold _DetectBoundingBox, bind, read, ret, bounding_box.
  rewrite bounding_box_components. cbn [fst snd c0 c1 c2].
  eexists _, _. split; [reflexivity|].
  generalize (Nodes mp (mesh w)). intros nodes. split; [|by intros ->].
  assert (∀ (f : Node → Q) (v : Q),
            v ∈ f <$> nodes → ∃ n, n ∈ nodes ∧ f n = v) as Hnode.
  { intros f v (n & -> & Hn)%list_elem_of_fmap. eauto. }
  intros i lo hi Hlo Hhi.
  destruct i as [|[|[|i]]]; [| | |done]; cbn in Hlo, Hhi;
    injection Hlo as <-; injection Hhi as <-;
    match goal with
    | |- context [lowest ?a (?f <$> nodes)] =>
        destruct (lowest_spec a (f <$> nodes)) as (_ & Hlow & Hl);
        destruct (highest_spec (- a)%Q (f <$> nodes)) as (_ & Hhigh & Hh)
    end;
    (split;
     [ intros n Hn; eexists; split; [reflexivity|]; cbn;
       split; [apply Hlow|apply Hhigh]; by apply list_elem_of_fmap_2
     | split;
       [ destruct Hl as [Hl|Hl]; [by left|right];
         destruct (Hnode _ _ Hl) as (n & Hn & Hv); exists n;
         split; [done|]; cbn; by rewrite Hv
       | destruct Hh as [Hh|Hh]; [by left|right];
         destruct (Hnode _ _ Hh) as (n & Hn & Hv); exists n;
         split; [done|]; cbn; by rewrite Hv ] ]).
Qed.

(** *** The strain matrix of an analysis the constructor built *)

(** The symmetric matrix of the configured jumps. *)
Definition jumps_matrix (st : Settings) : Matrix :=
  if (s_domain_size st =? 2)%Z
  then [[s_jump_XX st; s_jump_XY st];
        [s_jump_XY st; s_jump_YY st]]
  else [[s_jump_XX st; s_jump_XY st; s_jump_XZ st];
        [s_jump_XY st; s_jump_YY st; s_jump_YZ st];
        [s_jump_XZ st; s_jump_YZ st; s_jump_ZZ st]].

Lemma strain_matrix_run (st : Settings) (a : Analysis) (w : World) :
  __init__ st = Ok a →
  domain_size (self w) = domain_size a → strains (self w) = strains a →
  strain_matrix w = (Ok (jumps_matrix st), w).
Proof.
  intros Hinit Hd Hs. destruct w as [s m]. cbn [self] in Hd, Hs.
  destruct st as [bn an pp d xx yy xy yz zz xz].
  unfold __init__ in Hinit. cbn [s_domain_size] in Hinit.
  destruct (d =? 2)%Z eqn:H2.
  - apply Z.eqb_eq in H2. subst d. injection Hinit as <-.
    cbn [domain_size strains] in Hd, Hs. destruct s.
    cbn [domain_size strains] in Hd, Hs. subst.
    vm_compute. reflexivity.
  - destruct (d =? 3)%Z eqn:H3; [|done].
    apply Z.eqb_eq in H3. subst d. injection Hinit as <-.
    cbn [domain_size strains] in Hd, Hs. destruct s.
    cbn [domain_size strains] in Hd, Hs. subst.
    vm_compute. reflexivity.
Qed.

(** X12.  For an analysis built by [__init__], whatever attributes were set
    since, the strain matrix is the symmetric matrix of the configured jumps,
    2 by 2 or 3 by 3 after the domain size: every key the loops ask for is in
    the dictionary, and in 2D the jump [jump_YZ], which the constructor reads,
    is not used. *)
Theorem strain_matrix_of_jumps (st : Settings) (a : Analysis) (w : World) :
  __init__ st = Ok a →
  domain_size (self w) = domain_size a → strains (self w) = strains a →
  strain_matrix w
  = (Ok (if (s_domain_size st =? 2)%Z
         then [[s_jump_XX st; s_jump_XY st];
               [s_jump_XY st; s_jump_YY st]]
         else [[s_jump_XX st; s_jump_XY st; s_jump_XZ st];
               [s_jump_XY st; s_jump_YY st; s_jump_YZ st];
               [s_jump_XZ st; s_jump_YZ st; s_jump_ZZ st]]), w).
Proof. apply strain_matrix_run. Qed.

(** *** [__PopulateMp] *)

Lemma at3_in_range (a : Array3) (i : nat) : (i < 3)%nat → is_Some (at3 a i).
Proof. intros Hi. destruct i as [|[|[|i]]]; [by eexists..|lia]. Qed.

(** With conditions in the model part and a component of an [Array3], none
    of the look-ups of [__PopulateMp] fails. *)
Lemma __PopulateMp_never_raises (face : string) (coordinate : Q)
    (component : nat) (eps : Q) (mp : ModelPart) (w : World) :
  NumberOfConditions mp (mesh w) ≠ 0%nat → (component < 3)%nat →
  wpx (__PopulateMp face coordinate component eps mp)
      (λ _ _, True) (λ _ _, False) w.
Proof.
  intros Hn Hcomponent. unfold __PopulateMp.
  apply wpx_bind, wpx_read. apply Nat.eqb_neq in Hn. rewrite Hn.
  apply wpx_bind. unfold HasSubModelPart at 1. apply wpx_read.
  apply wpx_bind.
  apply (wpx_mono _ (λ _ w1, is_Some (SubModelParts (mesh w1) !! face))
                  _ (λ _ _, False)); [| |done].
  { destruct (bool_decide _) eqn:Hhas; cbn [negb when].
    - apply wpx_ret. by apply bool_decide_eq_true in Hhas.
    - apply wpx_update_mesh. cbn. rewrite lookup_insert_eq. by eexists. }
  intros _ w1 Hface.
  apply wpx_bind. unfold GetSubModelPart, HasSubModelPart.
  apply wpx_bind, wpx_read. rewrite bool_decide_eq_true_2 by done.
  apply wpx_ret.
  apply wpx_bind, wpx_read.
  apply wpx_bind.
  apply (wpx_mono _ (λ _ _, True) _ (λ _ _, False)); [| |done].
  { eapply wpx_mono;
      [apply (wpx_for_each (λ _ _, True) (λ _ _, False)); [done|]| |done];
      [|done].
    intros cond rest w2 _.
    destruct (at3_in_range (cond_Center cond) component Hcomponent)
      as [x Hx].
    apply wpx_bind, wpx_index3; [|by rewrite Hx]. intros x' _.
    apply wpx_when; [intros _|done]. by apply wpx_update_mesh. }
  intros _ w2 _.
  apply wpx_bind, wpx_read.
  apply wpx_bind.
  apply (wpx_mono _ (λ _ _, True) _ (λ _ _, False)); [| |done].
  { eapply wpx_mono;
      [apply (wpx_for_fold (λ _ _ _, True) (λ _ _, False)); [done|]| |done];
      [|done].
    intros cond rest ids w3 _.
    eapply wpx_mono;
      [apply (wpx_for_fold (λ _ _ _, True) (λ _ _, False)); [done|]| |done];
      [|done].
    intros node nodes ids' w4 _.
    apply wpx_bind. unfold Is_SLAVE. apply wpx_read.
    destruct (negb _); [|by apply wpx_ret].
    apply wpx_bind. unfold Set_SLAVE. apply wpx_update_mesh.
    by apply wpx_ret. }
  intros ids w3 _.
  apply wpx_bind. cbn [AddNodes]. apply wpx_update_mesh. by apply wpx_ret.
Qed.

(** What a call of [__PopulateMp] does, in every case it is used in. *)
Lemma __PopulateMp_run (face : string) (coordinate : Q)
    (component : nat) (eps : Q) (mp : ModelPart) (w : World) :
  NumberOfConditions mp (mesh w) ≠ 0%nat → (component < 3)%nat →
  __PopulateMp face coordinate component eps mp w
  = (Ok (Sub face),
     {| self := self w;
        mesh := populate face coordinate component eps (mesh w) |}).
Proof.
  intros Hn Hcomponent.
  destruct (wpx_returns _ _ _
              (__PopulateMp_never_raises face coordinate component eps mp w
                 Hn Hcomponent)) as (f & w' & Hrun & _).
  rewrite Hrun.
  pose proof (wp_elim _ _ _ _ _
                (wp___PopulateMp face coordinate component eps mp w) Hrun)
    as (-> & Hself & Hmesh & _).
  by rewrite <- Hself, <- Hmesh, world_eta.
Qed.

Lemma __PopulateMp_refuses (face : string) (coordinate : Q)
    (component : nat) (eps : Q) (mp : ModelPart) (w : World) :
  NumberOfConditions mp (mesh w) = 0%nat →
  __PopulateMp face coordinate component eps mp w
  = (Raise "Boundary_mp is expected to have conditions and has none", w).
Proof. intros Hn. unfold __PopulateMp, bind, read. by rewrite Hn. Qed.

(** X13.  [__PopulateMp] has two outcomes.  On a model part without conditions
    it raises before it touches anything, and its message names the boundary
    model part whatever model part it was given.  Otherwise it returns the sub
    model part of the root named after the face, and leaves the mesh
    [populate] describes. *)
Theorem __PopulateMp_outcome (face : string) (coordinate : Q)
    (component : nat) (eps : Q) (mp : ModelPart) (w : World) :
  (NumberOfConditions mp (mesh w) = 0%nat →
   __PopulateMp face coordinate component eps mp w
   = (Raise "Boundary_mp is expected to have conditions and has none", w))
  ∧ (NumberOfConditions mp (mesh w) ≠ 0%nat → (component < 3)%nat →
     __PopulateMp face coordinate component eps mp w
     = (Ok (Sub face),
        {| self := self w;
           mesh := populate face coordinate component eps (mesh w) |})).
Proof.
  split; [apply __PopulateMp_refuses|apply __PopulateMp_run].
Qed.

(** [m'] holds what [m] holds, and possibly more: the same root, the same
    [MASTER] flags and constraints; at least the [SLAVE] flags, the sub model
    parts, and in each of them the conditions and nodes of [m]. *)
Definition grows (m m' : Mesh) : Prop :=
  root_Name m' = root_Name m
  ∧ root_Nodes m' = root_Nodes m
  ∧ root_Conditions m' = root_Conditions m
  ∧ MASTER m' = MASTER m
  ∧ MasterSlaveConstraints m' = MasterSlaveConstraints m
  ∧ SLAVE m ⊆ SLAVE m'
  ∧ ∀ name,
      (is_Some (SubModelParts m !! name) → is_Some (SubModelParts m' !! name))
      ∧ smp_conditions (sub_of m name) ⊆ smp_conditions (sub_of m' name)
      ∧ smp_nodes (sub_of m name) ⊆ smp_nodes (sub_of m' name).

Lemma grows_populate face coordinate component eps m :
  grows m (populate face coordinate component eps m).
Proof.
  unfold populate.
  repeat (split; [done|]). split; [cbn; apply union_subseteq_l|].
  intros name.
  change (sub_of (with_SLAVE ?S ?x) name) with (sub_of x name).
  change (SubModelParts (with_SLAVE ?S ?x)) with (SubModelParts x).
  destruct (decide (face = name)) as [<-|Hne].
  - rewrite sub_of_set_face. unfold set_face. cbn.
    rewrite lookup_insert_eq. split; [by eauto|].
    split; [apply union_subseteq_l|apply union_subseteq_r].
  - rewrite sub_of_set_face_ne by done. unfold set_face. cbn.
    by rewrite lookup_insert_ne.
Qed.

Lemma union_twice (A B : gset nat) : A ∪ B ∪ B = A ∪ B.
Proof. set_solver. Qed.

Lemma claimed_twice (S T X : gset nat) : T ∖ (S ∪ T) ∪ X = X.
Proof. set_solver. Qed.

Lemma populate_populate face coordinate component eps m :
  populate face coordinate component eps
    (populate face coordinate component eps m)
  = populate face coordinate component eps m.
Proof.
  pose (close := list_to_set
                   (cond_Id <$> filter (λ c, close_to coordinate component
                                               eps c = true)
                                       (root_Conditions m)) : gset nat).
  pose (C := smp_conditions (sub_of m face) ∪ close).
  pose (T := list_to_set
               (concat (cond_GetNodes <$>
                  filter (λ c, cond_Id c ∈ C) (root_Conditions m)))
             : gset nat).
  pose (N1 := T ∖ SLAVE m ∪ smp_nodes (sub_of m face)).
  assert (populate face coordinate component eps m
          = with_SLAVE (SLAVE m ∪ T) (set_face face C N1 m)) as Hm1
    by reflexivity.
  rewrite Hm1.
  set (m1 := with_SLAVE (SLAVE m ∪ T) (set_face face C N1 m)).
  unfold populate.
  assert (sub_of m1 face = {| smp_conditions := C; smp_nodes := N1 |})
    as Hface by exact (sub_of_set_face face C N1 m).
  rewrite Hface. cbn [smp_conditions smp_nodes].
  change (root_Conditions m1) with (root_Conditions m).
  change (SLAVE m1) with (SLAVE m ∪ T).
  fold close.
  replace (C ∪ close) with C by (symmetry; apply union_twice).
  fold T. rewrite union_twice, claimed_twice.
  unfold m1, set_face, with_SLAVE, with_SubModelParts.
  cbn [root_Name root_Nodes root_Conditions SubModelParts SLAVE MASTER
       MasterSlaveConstraints].
  by rewrite insert_insert_eq.
Qed.

Lemma NumberOfConditions_populate face coordinate component eps mp m :
  NumberOfConditions mp m ≠ 0%nat →
  NumberOfConditions mp (populate face coordinate component eps m) ≠ 0%nat.
Proof.
  unfold NumberOfConditions. destruct mp as [|name]; [done|].
  intros Hn Hzero. apply Hn. apply length_zero_iff_nil.
  apply length_zero_iff_nil in Hzero.
  destruct (grows_populate face coordinate component eps m)
    as (_ & _ & Hroot & _ & _ & _ & Hsub).
  destruct (Hsub name) as (_ & Hconds & _).
  unfold Conditions in *. rewrite Hroot in Hzero.
  destruct (filter _ (root_Conditions m)) as [|c l] eqn:Hl; [done|exfalso].
  assert (c ∈ filter (λ c, cond_Id c ∈ smp_conditions
                             (sub_of (populate face coordinate
                                        component eps m) name))
                     (root_Conditions m)) as Hc.
  { assert (c ∈ c :: l) as Hin by left. rewrite <- Hl in Hin.
    apply list_elem_of_filter in Hin as [Hid Hin].
    apply list_elem_of_filter. split; [by apply Hconds|done]. }
  rewrite Hzero in Hc. by apply not_elem_of_nil in Hc.
Qed.

(** X14.  [__PopulateMp] never takes anything away: whatever the outcome of a
    call, the attributes are untouched, the mesh has only grown, and no sub
    model part other than the face has changed.  A second call with the same
    arguments, after one that returned, returns the same face and changes
    nothing. *)
Theorem __PopulateMp_only_grows (face : string) (coordinate : Q)
    (component : nat) (eps : Q) (mp : ModelPart) (w w' : World)
    (out : outcome ModelPart) :
  (component < 3)%nat →
  __PopulateMp face coordinate component eps mp w = (out, w') →
  self w' = self w
  ∧ grows (mesh w) (mesh w')
  ∧ (∀ name, name ≠ face →
       SubModelParts (mesh w') !! name = SubModelParts (mesh w) !! name)
  ∧ (∀ f, out = Ok f →
       __PopulateMp face coordinate component eps mp w' = (Ok f, w')).
Proof.
  intros Hcomponent Hrun.
  destruct (decide (NumberOfConditions mp (mesh w) = 0%nat)) as [Hn|Hn].
  - rewrite (__PopulateMp_refuses face coordinate component eps mp w Hn)
      in Hrun.
    injection Hrun as <- <-. split; [done|].
    split; [|by split].
    repeat (split; [done|]). done.
  - rewrite (__PopulateMp_run face coordinate component eps mp w Hn
               Hcomponent) in Hrun.
    injection Hrun as <- <-. cbn [self mesh].
    split; [done|]. split; [apply grows_populate|]. split.
    + intros name Hname. unfold populate, set_face. cbn.
      by rewrite lookup_insert_ne.
    + intros f [= <-].
      rewrite __PopulateMp_run; cbn [self mesh]; [|..|done].
      * by rewrite populate_populate.
      * by apply NumberOfConditions_populate.
Qed.

(** *** The pass over the faces, whatever its outcome *)

Lemma wpx_run {A} (m : M World A) (Φ : A → World → Prop)
    (Ψ : string → World → Prop) (w w' : World) (r : outcome A) :
  m w = (r, w') →
  match r with Ok a => Φ a w' | Raise msg => Ψ msg w' end →
  wpx m Φ Ψ w.
Proof. unfold wpx. by intros ->. Qed.

Ltac attributes :=
  cbn [self mesh setattr domain_size strain_size populate_search_eps
       averaging_volume min_corner max_corner max_x_face max_y_face
       max_z_face min_x_face min_y_face min_z_face].

Ltac populate_returns Hn :=
  apply wpx_bind;
  eapply wpx_run;
    [apply __PopulateMp_run;
       [attributes; repeat apply NumberOfConditions_populate; exact Hn|lia]
    |];
  first [apply wpx_bind, wpx_setattr | apply wpx_setattr]; attributes.

Ltac check_returns Hn :=
  unfold check_face; apply wpx_bind, wpx_optional_attribute; attributes;
  [intros ? [= <-]|done]; apply wpx_bind, wpx_read; attributes;
  match goal with
  | |- context [(?n =? 0)%nat] => destruct (n =? 0)%nat eqn:Hn
  end;
  [apply Nat.eqb_eq in Hn; apply wpx_raise
  |apply Nat.eqb_neq in Hn; apply wpx_ret].

(** Every outcome of a pass.  With no condition in the model part the first
    classification raises, the flags already cleared.  Otherwise every face
    is classified, and the pass raises for the first checked face without
    conditions, or returns. *)
Lemma wpx__ConstructFaceModelParts (lower upper : Array3) (mp : ModelPart)
    (w : World) :
  let d := domain_size (self w) in
  let classified :=
    classify (search_eps (self w) lower upper)
      (classification d lower upper) (reset_flags mp (mesh w)) in
  wpx (_ConstructFaceModelParts lower upper mp)
    (λ _ w',
       NumberOfConditions mp (mesh w) ≠ 0%nat
       ∧ mesh w' = classified
       ∧ ∀ name, name ∈ checked_faces d →
                 NumberOfConditions (Sub name) classified ≠ 0%nat)
    (λ msg w',
       (NumberOfConditions mp (mesh w) = 0%nat
        ∧ msg = "Boundary_mp is expected to have conditions and has none"
        ∧ w' = {| self := self w; mesh := reset_flags mp (mesh w) |})
       ∨ (NumberOfConditions mp (mesh w) ≠ 0%nat
          ∧ mesh w' = classified
          ∧ ∃ name, name ∈ checked_faces d
                    ∧ NumberOfConditions (Sub name) classified = 0%nat
                    ∧ msg = name +:+ " has 0 conditions"))
    w.
Proof.
  destruct w as [s m]. unfold _ConstructFaceModelParts.
  apply wpx_bind, wpx_attribute. attributes.
  fold (search_eps s lower upper).
  generalize (search_eps s lower upper). intros eps.
  apply wpx_bind, wpx_read. attributes.
  apply wpx_bind, wpx_update_mesh. attributes.
  apply wpx_bind, wpx_read. attributes.
  apply wpx_bind, wpx_update_mesh. attributes.
  fold (reset_flags mp m).
  assert (NumberOfConditions mp (reset_flags mp m) = NumberOfConditions mp m)
    as Hreset by (by destruct mp).
  destruct (decide (NumberOfConditions mp m = 0%nat)) as [Hzero|Hn].
  { apply wpx_bind.
    eapply wpx_run;
      [apply __PopulateMp_refuses; cbn [mesh]; by rewrite Hreset|].
    by left. }
  assert (NumberOfConditions mp (reset_flags mp m) ≠ 0%nat) as Hn0
    by (by rewrite Hreset).
  revert Hn0. generalize (reset_flags mp m). clear Hreset. intros m0 Hn0.
  populate_returns Hn0. populate_returns Hn0.
  apply wpx_bind, wpx_attribute. attributes.
  unfold classification, checked_faces.
  destruct (domain_size s =? 3)%Z eqn:Hd; cbn [when].
  - apply wpx_bind. populate_returns Hn0.
    populate_returns Hn0. populate_returns Hn0.
    apply wpx_bind, wpx_attribute. attributes. rewrite Hd. cbn [when].
    apply wpx_bind. populate_returns Hn0.
    apply wpx_bind. check_returns Hx.
    { right. split; [done|]. split; [reflexivity|].
      exists "min_x_face". split; [set_solver|done]. }
    apply wpx_bind. check_returns Hy.
    { right. split; [done|]. split; [reflexivity|].
      exists "min_y_face". split; [set_solver|done]. }
    apply wpx_bind, wpx_attribute. attributes. rewrite Hd. cbn [when].
    check_returns Hz.
    { right. split; [done|]. split; [reflexivity|].
      exists "min_z_face". split; [set_solver|done]. }
    split; [done|]. split; [reflexivity|].
    intros name Hname. set_unfold in Hname.
    destruct Hname as [->|[->|[->|[]]]]; [exact Hx|exact Hy|exact Hz].
  - apply wpx_bind, wpx_ret.
    populate_returns Hn0. populate_returns Hn0.
    apply wpx_bind, wpx_attribute. attributes. rewrite Hd. cbn [when].
    apply wpx_bind, wpx_ret.
    apply wpx_bind. check_returns Hx.
    { right. split; [done|]. split; [reflexivity|].
      exists "min_x_face". split; [set_solver|done]. }
    apply wpx_bind. check_returns Hy.
    { right. split; [done|]. split; [reflexivity|].
      exists "min_y_face". split; [set_solver|done]. }
    apply wpx_bind, wpx_attribute. attributes. rewrite Hd. cbn [when].
    apply wpx_ret.
    split; [done|]. split; [reflexivity|].
    intros name Hname. set_unfold in Hname.
    destruct Hname as [->|[->|[]]]; [exact Hx|exact Hy].
Qed.

(** X15.  A pass over the faces returns exactly when the model part has
    conditions and every min face it checks has conditions once the faces are
    classified; it raises for an empty model part before any face is
    classified, the flags of its nodes already cleared, and otherwise for a
    checked min face without conditions, every face classified. *)
Theorem _ConstructFaceModelParts_outcome (lower upper : Array3)
    (mp : ModelPart) (w w' : World) (out : outcome unit) :
  _ConstructFaceModelParts lower upper mp w = (out, w') →
  let d := domain_size (self w) in
  let classified :=
    classify (search_eps (self w) lower upper)
      (classification d lower upper) (reset_flags mp (mesh w)) in
  (NumberOfConditions mp (mesh w) = 0%nat →
   out = Raise "Boundary_mp is expected to have conditions and has none"
   ∧ w' = {| self := self w; mesh := reset_flags mp (mesh w) |})
  ∧ (NumberOfConditions mp (mesh w) ≠ 0%nat →
     mesh w' = classified
     ∧ ((out = Ok tt
         ∧ ∀ name, name ∈ checked_faces d →
                   NumberOfConditions (Sub name) classified ≠ 0%nat)
        ∨ ∃ name, name ∈ checked_faces d
                  ∧ NumberOfConditions (Sub name) classified = 0%nat
                  ∧ out = Raise (name +:+ " has 0 conditions"))).
Proof.
  intros Hrun d classified.
  pose proof (wpx_elim _ _ _ _ _ _
                (wpx__ConstructFaceModelParts lower upper mp w) Hrun) as H.
  destruct out as [[]|msg]; split.
  - by destruct H as (Hn & _).
  - intros _. destruct H as (_ & Hmesh & Hchecked). split; [done|]. by left.
  - intros Hzero. by destruct H as [(_ & -> & ->)|(Hn & _)].
  - intros Hn. destruct H as [(Hzero & _)|(_ & Hmesh & name & ? & ? & ->)];
      [done|].
    split; [done|]. right. by exists name.
Qed.

Lemma classify_flags eps faces m :
  MASTER (classify eps faces m) = MASTER m
  ∧ root_Nodes (classify eps faces m) = root_Nodes m
  ∧ root_Conditions (classify eps faces m) = root_Conditions m
  ∧ SLAVE m ⊆ SLAVE (classify eps faces m).
Proof.
  revert m. induction faces as [|face faces IH]; intros m; [done|].
  change (classify eps (face :: faces) m)
    with (classify eps faces (populate face.1.1 face.1.2 face.2 eps m)).
  destruct (IH (populate face.1.1 face.1.2 face.2 eps m))
    as (-> & -> & -> & HS).
  repeat (split; [done|]). etrans; [|exact HS]. cbn. apply union_subseteq_l.
Qed.

(** X16.  The pass never sets a [MASTER] flag, on a min face or anywhere else:
    whatever its outcome, the flag has been cleared on the nodes of the model
    part and is where it was on every other node.  The nodes and conditions of
    the root are untouched. *)
Theorem _ConstructFaceModelParts_sets_no_MASTER (lower upper : Array3)
    (mp : ModelPart) (w w' : World) (out : outcome unit) :
  _ConstructFaceModelParts lower upper mp w = (out, w') →
  MASTER (mesh w') = clear_flag (MASTER (mesh w)) (Nodes mp (mesh w))
  ∧ (∀ n, n ∈ Nodes mp (mesh w) → node_Id n ∉ MASTER (mesh w'))
  ∧ root_Nodes (mesh w') = root_Nodes (mesh w)
  ∧ root_Conditions (mesh w') = root_Conditions (mesh w).
Proof.
  intros Hrun.
  pose proof (wpx_elim _ _ _ _ _ _
                (wpx__ConstructFaceModelParts lower upper mp w) Hrun) as H.
  assert (mesh w' = reset_flags mp (mesh w)
          ∨ ∃ eps faces,
              mesh w' = classify eps faces (reset_flags mp (mesh w)))
    as Hmesh.
  { destruct out as [[]|msg].
    - right. destruct H as (_ & -> & _). eauto.
    - destruct H as [(_ & _ & ->)|(_ & -> & _)]; [by left|right; eauto]. }
  assert (MASTER (mesh w') = clear_flag (MASTER (mesh w)) (Nodes mp (mesh w))
          ∧ root_Nodes (mesh w') = root_Nodes (mesh w)
          ∧ root_Conditions (mesh w') = root_Conditions (mesh w))
    as (HM & Hnodes & Hconds).
  { destruct Hmesh as [->|(eps & faces & ->)].
    - by destruct mp.
    - destruct (classify_flags eps faces (reset_flags mp (mesh w)))
        as (-> & -> & -> & _). by destruct mp. }
  split; [done|]. split; [|done].
  intros n Hn. rewrite HM. unfold clear_flag.
  rewrite elem_of_difference, elem_of_list_to_set.
  intros [_ Hout]. apply Hout. by apply list_elem_of_fmap_2.
Qed.

(** *** [ModifyInitialGeometry] *)

Lemma model_getitem_pure (name : string) (w w' : World)
    (r : outcome ModelPart) :
  model_getitem name w = (r, w') → w' = w.
Proof.
  unfold model_getitem, bind, read.
  destruct (split_at_dot name) as [root [sub|]];
    destruct (String.eqb _ _); cbn [negb]; try by intros [= _ <-].
  destruct (bool_decide _); by intros [= _ <-].
Qed.

Lemma bounding_box_ordered (nodes : list Node) (lower upper : Array3) :
  nodes ≠ [] → bounding_box nodes = (lower, upper) →
  (0 <= c0 upper - c0 lower)%Q ∧ (0 <= c1 upper - c1 lower)%Q
  ∧ (0 <= c2 upper - c2 lower)%Q.
Proof.
  intros Hnodes Hbox.
  pose proof (bounding_box_step_encloses
                ({| c0 := sentinel; c1 := sentinel; c2 := sentinel |},
                 {| c0 := - sentinel; c1 := - sentinel; c2 := - sentinel |})
                nodes) as (_ & _ & Hall).
  fold (bounding_box nodes) in Hall. rewrite Hbox in Hall. cbn in Hall.
  destruct nodes as [|n nodes]; [done|].
  destruct (Hall n) as ((? & ?) & (? & ?) & (? & ?)); [by left|].
  repeat split; unfold Qminus; rewrite <- Qle_minus_iff;
    eapply Qle_trans; eassumption.
Qed.

Ltac volume_turn Hmin Hmax :=
  apply wp_bind, wp_optional_attribute; attributes; rewrite Hmax;
  intros ? [= <-];
  apply wp_bind, wp_index3; intros ? [= <-];
  apply wp_bind, wp_optional_attribute; attributes; rewrite Hmin;
  intros ? [= <-];
  apply wp_bind, wp_index3; intros ? [= <-];
  apply wp_bind, wp_attribute; attributes.

(** X17.  A call of [ModifyInitialGeometry] that returns has kept as corners
    the bounding box of the nodes of the averaging model part, and as
    averaging volume the product of the extents of that box along the first
    [domain_size] axes: an area in 2D.  With at least one node in the
    averaging model part the volume is not negative. *)
Theorem ModifyInitialGeometry_volume (w w' : World) (r : unit) :
  domain_size (self w) = 2 ∨ domain_size (self w) = 3 →
  ModifyInitialGeometry w = (Ok r, w') →
  ∃ averaging_mp lower upper,
    model_getitem (averaging_mp_name (self w)) w = (Ok averaging_mp, w)
    ∧ bounding_box (Nodes averaging_mp (mesh w)) = (lower, upper)
    ∧ min_corner (self w') = Some lower
    ∧ max_corner (self w') = Some upper
    ∧ averaging_volume (self w')
      = (if (domain_size (self w) =? 2)%Z
         then 1 * (c0 upper - c0 lower) * (c1 upper - c1 lower)
         else 1 * (c0 upper - c0 lower) * (c1 upper - c1 lower)
              * (c2 upper - c2 lower))%Q
    ∧ (Nodes averaging_mp (mesh w) ≠ [] →
       (0 <= averaging_volume (self w'))%Q).
Proof.
  intros Hd. by_wp. unfold ModifyInitialGeometry.
  apply wp_bind, wp_attribute.
  apply wp_bind, wp_intro. intros boundary_mp w1 Hboundary.
  pose proof (model_getitem_pure _ _ _ _ Hboundary) as ->.
  apply wp_bind, wp_attribute.
  apply wp_bind, wp_intro. intros averaging_mp w1 Haveraging.
  pose proof (model_getitem_pure _ _ _ _ Haveraging) as ->.
  apply wp_bind. unfold _DetectBoundingBox. apply wp_bind, wp_read, wp_ret.
  destruct (bounding_box (Nodes averaging_mp (mesh w)))
    as [lower upper] eqn:Hbox.
  cbn [fst snd].
  apply wp_bind, wp_setattr. apply wp_bind, wp_setattr.
  apply wp_bind, wp_optional_attribute. attributes. intros ? [= <-].
  apply wp_bind, wp_optional_attribute. attributes. intros ? [= <-].
  apply wp_bind. eapply wp_mono; [apply wp__ConstructFaceModelParts|].
  cbn beta zeta. attributes.
  intros _ w2 (_ & _ & Hd2 & _ & Hmin & Hmax & _).
  apply wp_bind, wp_setattr.
  apply wp_bind, wp_attribute. attributes. rewrite Hd2.
  assert (Nodes averaging_mp (mesh w) ≠ [] →
          (0 <= c0 upper - c0 lower)%Q ∧ (0 <= c1 upper - c1 lower)%Q
          ∧ (0 <= c2 upper - c2 lower)%Q) as Hordered
    by (intros Hnodes; by apply (bounding_box_ordered _ _ _ Hnodes)).
  destruct Hd as [Hd|Hd]; rewrite Hd.
  - change (Z.to_nat <$> range 0 2) with [0%nat; 1%nat]. cbn [for_each].
    apply wp_bind. volume_turn Hmin Hmax. apply wp_setattr.
    apply wp_bind. volume_turn Hmin Hmax. apply wp_setattr.
    apply wp_ret. attributes.
    exists averaging_mp, lower, upper.
    repeat (split; [done|]).
    intros Hnodes. destruct (Hordered Hnodes) as (H0 & H1 & _).
    apply Qmult_le_0_compat; [|done].
    by apply Qmult_le_0_compat.
  - change (Z.to_nat <$> range 0 3) with [0%nat; 1%nat; 2%nat].
    cbn [for_each].
    apply wp_bind. volume_turn Hmin Hmax. apply wp_setattr.
    apply wp_bind. volume_turn Hmin Hmax. apply wp_setattr.
    apply wp_bind. volume_turn Hmin Hmax. apply wp_setattr.
    apply wp_ret. attributes.
    exists averaging_mp, lower, upper.
    repeat (split; [done|]).
    intros Hnodes. destruct (Hordered Hnodes) as (H0 & H1 & H2).
    apply Qmult_le_0_compat; [|done].
    apply Qmult_le_0_compat; [|done].
    by apply Qmult_le_0_compat.
Qed.

(** *** [_ApplyPeriodicity] *)

Ltac wpx_turn :=
  lazymatch goal with
  | |- wpx (bind _ _) _ _ _ => apply wpx_bind
  | |- wpx (update_mesh _) _ _ _ => apply wpx_update_mesh
  | |- wpx (field _) _ _ _ => apply wpx_attribute
  | |- wpx (read _) _ _ _ => apply wpx_read
  | |- wpx (ret _) _ _ _ => apply wpx_ret
  | |- wpx (self_attr _ _) _ _ _ =>
      apply wpx_optional_attribute; [intros ? ?|intros ?]
  | |- wpx (index3 _ _) _ _ _ => apply wpx_index3; [intros ? ?|intros ?]
  | |- wpx (native _) _ _ _ => apply wpx_native; intros ? ?
  | |- wpx (if ?b then _ else _) _ _ _ => destruct b
  end.

(** X18.  A call of [_ApplyPeriodicity] that raises leaves the model without
    any constraint: the old ones are erased before anything can fail, and the
    new ones are added by the last statement.  Nothing else has changed. *)
Theorem _ApplyPeriodicity_failure (strain : Matrix)
    (volume_mp boundary_mp : ModelPart) (w w' : World) (msg : string) :
  _ApplyPeriodicity strain volume_mp boundary_mp w = (Raise msg, w') →
  w' = cleared w.
Proof.
  intros Hrun.
  pose proof (keeps__ApplyPeriodicity _ _ _ _ _ _ Hrun) as Hkeep.
  unfold only_constraints in Hkeep. rewrite <- Hkeep.
  cut (MasterSlaveConstraints (mesh w') = []).
  { destruct w' as [s' [? ? ? ? ? ? store]]. cbn. by intros ->. }
  clear Hkeep. rewrite _ApplyPeriodicity_cleared in Hrun.
  cut (wpx (_ApplyPeriodicity strain volume_mp boundary_mp) (λ _ _, True)
         (λ _ w1, MasterSlaveConstraints (mesh w1) = []) (cleared w)).
  { intros H. exact (wpx_elim _ _ _ _ _ _ H Hrun). }
  unfold _ApplyPeriodicity, assign_periodicity, separation.
  repeat (wpx_turn; cbn beta;
          cbn [self mesh cleared with_MasterSlaveConstraints
               MasterSlaveConstraints] in *);
    rewrite ?erase_all in *; done.
Qed.

Ltac separation_first upper Hupper lower Hlower :=
  apply wp_bind; apply wp_bind, wp_optional_attribute; intros upper Hupper;
  apply wp_bind, wp_index3; intros ? [= <-];
  apply wp_bind, wp_optional_attribute; intros lower Hlower;
  apply wp_bind, wp_index3; intros ? [= <-];
  apply wp_ret; cbn [self cleared] in Hupper, Hlower.

Ltac separation_next Hupper Hlower :=
  let H := fresh in
  apply wp_bind; apply wp_bind, wp_optional_attribute; intros ? H;
  cbn [self cleared] in H; rewrite Hupper in H; injection H as <-;
  apply wp_bind, wp_index3; intros ? [= <-];
  apply wp_bind, wp_optional_attribute; intros ? H;
  cbn [self cleared] in H; rewrite Hlower in H; injection H as <-;
  apply wp_bind, wp_index3; intros ? [= <-];
  apply wp_ret.

Ltac assign_turn master Hmaster slave Hslave u Hu :=
  apply wp_bind, wp_optional_attribute; intros master Hmaster;
  apply wp_bind, wp_optional_attribute; intros slave Hslave;
  apply wp_bind, wp_attribute; apply wp_bind, wp_read;
  apply wp_native; intros u Hu; cbn [self mesh cleared] in Hmaster, Hslave, Hu.

(** X19.  What a call of [_ApplyPeriodicity] that returns has asked of the
    periodicity utility: along x, then y, then (when [strain_size] is 6) z,
    one [AssignPeriodicity] with the min face as master and the max face as
    slave, the strain, the extent of the box along that axis as the direction
    (a vector of 3 components when [strain_size] is 6, of 2 otherwise) and the
    search tolerance; each on the utility the previous one left; then
    [Finalize] for [VELOCITY], whose constraints are all the model holds
    afterwards. *)
Theorem _ApplyPeriodicity_contract (strain : Matrix)
    (volume_mp boundary_mp : ModelPart) (w w' : World) (r : unit) :
  _ApplyPeriodicity strain volume_mp boundary_mp w = (Ok r, w') →
  ∃ lower upper min_x max_x min_y max_y u1 u2 u3 created,
    min_corner (self w) = Some lower ∧ max_corner (self w) = Some upper
    ∧ min_x_face (self w) = Some min_x ∧ max_x_face (self w) = Some max_x
    ∧ min_y_face (self w) = Some min_y ∧ max_y_face (self w) = Some max_y
    ∧ AssignPeriodicity (face_of min_x (mesh w)) (face_of max_x (mesh w))
        strain
        (if (strain_size (self w) =? 6)%Z
         then [c0 upper - c0 lower; 0; 0] else [c0 upper - c0 lower; 0])%Q
        (geometrical_search_tolerance (self w)) RVEPeriodicityUtility
      = Ok u1
    ∧ AssignPeriodicity (face_of min_y (mesh w)) (face_of max_y (mesh w))
        strain
        (if (strain_size (self w) =? 6)%Z
         then [0; c1 upper - c1 lower; 0] else [0; c1 upper - c1 lower])%Q
        (geometrical_search_tolerance (self w)) u1
      = Ok u2
    ∧ (if (strain_size (self w) =? 6)%Z
       then ∃ min_z max_z,
              min_z_face (self w) = Some min_z
              ∧ max_z_face (self w) = Some max_z
              ∧ AssignPeriodicity (face_of min_z (mesh w))
                  (face_of max_z (mesh w)) strain
                  [0; 0; c2 upper - c2 lower]%Q
                  (geometrical_search_tolerance (self w)) u2
                = Ok u3
       else u3 = u2)
    ∧ Finalize "VELOCITY" u3 [] = Ok created
    ∧ w' = {| self := self w;
              mesh := with_MasterSlaveConstraints created (mesh w) |}.
Proof.
  rewrite _ApplyPeriodicity_cleared. by_wp.
  destruct w as [s m].
  unfold _ApplyPeriodicity, assign_periodicity, separation.
  apply wp_bind, wp_update_mesh. apply wp_bind, wp_update_mesh.
  separation_first upper Hupper lower Hlower.
  separation_next Hupper Hlower.
  apply wp_bind, wp_attribute. cbn [self cleared].
  destruct (strain_size s =? 6)%Z eqn:Hsize.
  - separation_next Hupper Hlower.
    apply wp_bind, wp_attribute. cbn [self]. rewrite Hsize.
    apply wp_bind. assign_turn min_x Hmin_x max_x Hmax_x u1 Hu1.
    apply wp_bind, wp_attribute. cbn [self]. rewrite Hsize.
    apply wp_bind. assign_turn min_y Hmin_y max_y Hmax_y u2 Hu2.
    apply wp_bind, wp_attribute. cbn [self]. rewrite Hsize.
    apply wp_bind. assign_turn min_z Hmin_z max_z Hmax_z u3 Hu3.
    apply wp_bind, wp_read. apply wp_bind, wp_native. intros created Hcreated.
    apply wp_update_mesh.
    exists lower, upper, min_x, max_x, min_y, max_y, u1, u2, u3, created.
    cbn [self mesh].
    split_and!;
      first [done | by exists min_z, max_z | exact Hcreated | reflexivity].
  - apply wp_bind, wp_ret.
    apply wp_bind, wp_attribute. cbn [self]. rewrite Hsize.
    apply wp_bind. assign_turn min_x Hmin_x max_x Hmax_x u1 Hu1.
    apply wp_bind, wp_attribute. cbn [self]. rewrite Hsize.
    apply wp_bind. assign_turn min_y Hmin_y max_y Hmax_y u2 Hu2.
    apply wp_bind, wp_attribute. cbn [self]. rewrite Hsize.
    apply wp_bind, wp_ret.
    apply wp_bind, wp_read. apply wp_bind, wp_native. intros created Hcreated.
    apply wp_update_mesh.
    exists lower, upper, min_x, max_x, min_y, max_y, u1, u2, u2, created.
    cbn [self mesh].
    split_and!; first [done | exact Hcreated | reflexivity].
Qed.

(** *** [ModifyAfterSolverInitialize] *)

(** X20.  With both model parts in the model, [ModifyAfterSolverInitialize] of
    an analysis built by [__init__] is [_ApplyPeriodicity] with the symmetric
    matrix of the configured jumps, on the averaging and the boundary model
    parts.  With the boundary model part missing it raises before any
    constraint is erased. *)
Theorem ModifyAfterSolverInitialize_applies_jumps (st : Settings)
    (a : Analysis) (w : World) :
  __init__ st = Ok a →
  domain_size (self w) = domain_size a → strains (self w) = strains a →
  (∀ boundary_mp averaging_mp,
     model_getitem (boundary_mp_name (self w)) w = (Ok boundary_mp, w) →
     model_getitem (averaging_mp_name (self w)) w = (Ok averaging_mp, w) →
     ModifyAfterSolverInitialize w
     = _ApplyPeriodicity (jumps_matrix st) averaging_mp boundary_mp w)
  ∧ (∀ msg, model_getitem (boundary_mp_name (self w)) w = (Raise msg, w) →
       ModifyAfterSolverInitialize w = (Raise msg, w)).
Proof.
  intros Hinit Hd Hs. split.
  - intros boundary_mp averaging_mp Hboundary Haveraging.
    unfold ModifyAfterSolverInitialize.
    unfold bind at 1, field at 1. unfold bind at 1. rewrite Hboundary.
    unfold bind at 1, field at 1. unfold bind at 1. rewrite Haveraging.
    unfold bind at 1.
    by rewrite (strain_matrix_run st a w Hinit Hd Hs).
  - intros msg Hboundary. unfold ModifyAfterSolverInitialize.
    unfold bind at 1, field at 1. unfold bind at 1. by rewrite Hboundary.
Qed.

End Outcomes.

(** ** A small instance: the unit square

    A periodicity utility that pairs every node of the slave face with the
    first condition of the master face and creates one constraint for each
    pair, numbered after the store it finds; a square root by five Newton
    turns. *)

Definition toy_sqrt (q : Q) : Q :=
  let turn (x : Q) := Qred ((x + q / x) / 2) in
  turn (turn (turn (turn (turn 1%Q)))).

Definition toy_native : Native (list (nat * list nat)) := {|
  math_sqrt := toy_sqrt;
  RVEPeriodicityUtility := [];
  AssignPeriodicity := λ master slave strain direction tolerance pairs,
    match face_Conditions master with
    | [] => Raise "the master is expected to have conditions and it is empty"
    | host :: _ =>
        Ok (pairs ++ ((λ n, (node_Id n, cond_GetNodes host))
                        <$> face_Nodes slave))
    end;
  Finalize := λ variable pairs store,
    Ok (imap (λ k pair,
                {| constraint_Id := length store + k + 1;
                   constraint_slave := pair.1;
                   constraint_masters := (λ i, (i, 1 # 2)%Q) <$> pair.2;
                   constraint_constant := 0;
                   TO_ERASE := false |}) pairs);
|}.

#[local] Existing Instance toy_native.

Definition point (x y : Q) : Array3 := {| c0 := x; c1 := y; c2 := 0 |}.

Definition corner (id : nat) (x y : Q) : Node :=
  {| node_Id := id; node_X := x; node_Y := y; node_Z := 0 |}.

Definition edge (id : nat) (x y : Q) (nodes : list nat) : Condition :=
  {| cond_Id := id; cond_Center := point x y; cond_GetNodes := nodes |}.

Definition bottom : Condition := edge 1 (1 # 2) 0 [1; 2]%nat.
Definition right : Condition := edge 2 1 (1 # 2) [2; 3]%nat.
Definition top : Condition := edge 3 (1 # 2) 1 [3; 4]%nat.
Definition left : Condition := edge 4 0 (1 # 2) [4; 1]%nat.

(** A constraint of some other origin, present before periodicity is
    applied. *)
Definition foreign : Constraint :=
  {| constraint_Id := 99; constraint_slave := 3;
     constraint_masters := [(1%nat, 1%Q)]; constraint_constant := 5;
     TO_ERASE := false |}.

(** The unit square with the given conditions in the root and the given
    ones among them in the boundary model part.  Node 3 carries a stale
    [SLAVE] flag. *)
Definition square (conds : list Condition) (boundary : list nat) : Mesh := {|
  root_Name := "FluidModelPart";
  root_Nodes := [corner 1 0 0; corner 2 1 0; corner 3 1 1; corner 4 0 1];
  root_Conditions := conds;
  SubModelParts :=
    <["Boundary" := {| smp_conditions := list_to_set boundary;
                       smp_nodes := list_to_set [1; 2; 3; 4]%nat |}]>
      (<["Averaging" := {| smp_conditions := ∅;
                           smp_nodes := list_to_set [1; 2; 3; 4]%nat |}]> ∅);
  SLAVE := {[3%nat]};
  MASTER := ∅;
  MasterSlaveConstraints := [foreign];
|}.

Definition toy_settings : Settings := {|
  s_boundary_mp_name := "FluidModelPart.Boundary";
  s_averaging_mp_name := "FluidModelPart.Averaging";
  s_print_rve_post := false;
  s_domain_size := 2;
  s_jump_XX := 0; s_jump_YY := 0; s_jump_XY := 0;
  s_jump_YZ := 0; s_jump_ZZ := 0; s_jump_XZ := 0;
|}.

Definition toy_analysis : Analysis :=
  match __init__ toy_settings with
  | Ok a => a
  | Raise _ =>
      {| boundary_mp_name := ""; averaging_mp_name := "";
         averaging_volume := 0; domain_size := 0; strain_size := 0;
         strains := ∅; populate_search_eps := 0;
         geometrical_search_tolerance := 0;
         min_corner := None; max_corner := None;
         max_x_face := None; max_y_face := None; max_z_face := None;
         min_x_face := None; min_y_face := None; min_z_face := None |}
  end.

Definition square_world (conds : list Condition) (boundary : list nat)
  : World :=
  {| self := toy_analysis; mesh := square conds boundary |}.

(** The closed square, the square without its left edge, the square without
    its right edge. *)
Definition closed_square : World :=
  square_world [bottom; right; top; left] [1; 2; 3; 4]%nat.
Definition no_left : World := square_world [bottom; right; top] [1; 2; 3]%nat.
Definition no_right : World := square_world [bottom; top; left] [1; 3; 4]%nat.

(** The closed square with one more condition in the root, on the line
    x = 1, that is not in the boundary model part. *)
Definition inner : Condition := edge 5 1 (1 # 4) [2; 3]%nat.
Definition with_inner : World :=
  square_world [bottom; right; top; left; inner] [1; 2; 3; 4]%nat.

Example toy_analysis_is_2d :
  domain_size toy_analysis = 2 ∧ strain_size toy_analysis = 3.
Proof. by vm_compute. Qed.

(** What a call of [__PopulateMp] that returns puts in the face: what the
    face held, and the conditions of the root model part that pass the test
    of line 117, whether they belong to the model part passed in or not. *)
Lemma __PopulateMp_conditions (face : string) (coordinate : Q)
    (component : nat) (eps : Q) (mp f : ModelPart) (w w' : World) :
  __PopulateMp face coordinate component eps mp w = (Ok f, w') →
  ∀ id, id ∈ smp_conditions (sub_of (mesh w') face)
        ↔ id ∈ smp_conditions (sub_of (mesh w) face)
          ∨ ∃ cond, cond ∈ root_Conditions (mesh w) ∧ cond_Id cond = id
                    ∧ close_to coordinate component eps cond = true.
Proof.
  intros Hrun id.
  pose proof (wp___PopulateMp face coordinate component eps mp w) as Hwp.
  apply (wp_elim _ _ _ _ _ Hwp) in Hrun as (_ & _ & -> & _).
  unfold populate.
  change (sub_of (with_SLAVE ?S ?x) face) with (sub_of x face).
  rewrite sub_of_set_face. cbn [smp_conditions].
  rewrite elem_of_union, elem_of_list_to_set, list_elem_of_fmap.
  split.
  - intros [?|(cond & -> & Hcond)]; [by left|right].
    apply list_elem_of_filter in Hcond as [Hclose Hcond]. by exists cond.
  - intros [?|(cond & Hroot & <- & Hclose)]; [by left|right].
    exists cond. split; [done|]. by apply list_elem_of_filter.
Qed.

(** C4 on the square with an inner condition: the boundary model part holds
    the four edges; the root holds a fifth condition on the line x = 1; the
    classification of the max x face of the boundary model part puts the
    fifth condition in the face. *)
Theorem C4_root_conditions_scanned :
  let eps := ((1 # 10000) * toy_sqrt 2)%Q in
  let classified :=
    snd ((__PopulateMp "max_x_face" 1 0 eps (Sub "Boundary")) with_inner) in
  __PopulateMp "max_x_face" 1 0 eps (Sub "Boundary") with_inner
  = (Ok (Sub "max_x_face"), classified)
  ∧ close_to 1 0 eps inner = true
  ∧ inner ∈ root_Conditions (mesh with_inner)
  ∧ (cond_Id inner ∉ smp_conditions (sub_of (mesh with_inner) "Boundary"))
  ∧ cond_Id inner ∈ smp_conditions (sub_of (mesh classified) "max_x_face").
Proof.
  intros eps classified.
  assert (__PopulateMp "max_x_face" 1 0 eps (Sub "Boundary") with_inner
          = (Ok (Sub "max_x_face"), classified)) as Hrun
    by (vm_compute; reflexivity).
  assert (close_to 1 0 eps inner = true) as Hclose
    by (vm_compute; reflexivity).
  assert (inner ∈ root_Conditions (mesh with_inner)) as Hroot.
  { change (inner ∈ [bottom; right; top; left; inner]).
    rewrite !elem_of_cons. auto 10. }
  split; [exact Hrun|]. split; [exact Hclose|]. split; [exact Hroot|].
  split; [compute_done|].
  apply (__PopulateMp_conditions _ _ _ _ _ _ _ _ Hrun). right.
  exists inner. auto.
Qed.

Definition lower_left : Array3 := point 0 0.
Definition upper_right : Array3 := point 1 1.

(** C9 on the unit square. *)
Lemma C9_bounding_box_ordered_witness :
  ∃ lower upper lo hi,
    _DetectBoundingBox (Sub "Averaging") closed_square
    = (Ok (lower, upper), closed_square)
    ∧ at3 lower 1 = Some lo ∧ at3 upper 1 = Some hi ∧ (lo <= hi)%Q.
Proof.
  apply (C9_bounding_box_ordered (Sub "Averaging") closed_square 2 1).
  - vm_compute. discriminate.
  - by left.
  - lia.
Defined.

Definition no_left_classified : World :=
  snd (_ConstructFaceModelParts lower_left upper_right (Sub "Boundary")
         no_left).

(** C3 on the square without its left edge: the min x face has no
    condition and the pass raises; the store still holds the one foreign
    constraint. *)
Lemma C3_min_faces_checked_witness :
  _ConstructFaceModelParts lower_left upper_right (Sub "Boundary") no_left
  = (Raise "min_x_face has 0 conditions", no_left_classified)
  ∧ NumberOfConditions (Sub "min_x_face") (mesh no_left_classified) = 0%nat
  ∧ MasterSlaveConstraints (mesh no_left_classified) = [foreign]
  ∧ ∃ msg, Raise (A := unit) "min_x_face has 0 conditions" = Raise msg.
Proof.
  assert (_ConstructFaceModelParts lower_left upper_right (Sub "Boundary")
            no_left
          = (Raise "min_x_face has 0 conditions", no_left_classified))
    as Hrun by (vm_compute; reflexivity).
  assert (NumberOfConditions (Sub "min_x_face") (mesh no_left_classified)
          = 0%nat) as Hzero by (vm_compute; reflexivity).
  destruct (C3_min_faces_checked lower_left upper_right (Sub "Boundary")
              no_left no_left_classified _ Hrun) as [Hsame Hraise].
  split; [exact Hrun|]. split; [exact Hzero|]. split.
  - rewrite Hsame. reflexivity.
  - apply (Hraise "min_x_face"); [|exact Hzero].
    change ("min_x_face" ∈ ["min_x_face"; "min_y_face"]). by left.
Defined.

Definition no_right_prepared : World := snd (ModifyInitialGeometry no_right).
Definition no_right_applied : World :=
  snd (ModifyAfterSolverInitialize no_right_prepared).

(** C3 as the specification words it fails on the square without its right
    edge: the max x face has no condition, no error is raised, and
    periodicity is then applied without a single constraint across x. *)
Lemma C3_max_face_counterexample :
  ModifyInitialGeometry no_right = (Ok tt, no_right_prepared)
  ∧ max_x_face (self no_right_prepared) = Some (Sub "max_x_face")
  ∧ NumberOfConditions (Sub "max_x_face") (mesh no_right_prepared) = 0%nat
  ∧ ModifyAfterSolverInitialize no_right_prepared = (Ok tt, no_right_applied)
  ∧ constraint_slave <$> MasterSlaveConstraints (mesh no_right_applied)
    = [3; 4]%nat.
Proof.
  split; [vm_compute; reflexivity|]. split; [vm_compute; reflexivity|].
  split; [vm_compute; reflexivity|]. split; vm_compute; reflexivity.
Qed.

Definition closed_classified : World :=
  snd (_ConstructFaceModelParts lower_left upper_right (Sub "Boundary")
         closed_square).

(** C6 on the unit square: node 2 lies on the right edge and on the bottom
    edge; the max x face, classified first, holds it, and the min y face
    shares no node with the max x face. *)
Lemma C6_one_face_per_node_witness :
  _ConstructFaceModelParts lower_left upper_right (Sub "Boundary")
    closed_square
  = (Ok tt, closed_classified)
  ∧ 2%nat ∈ touched "max_x_face" (mesh closed_classified)
  ∧ 2%nat ∈ touched "min_y_face" (mesh closed_classified)
  ∧ 2%nat ∈ assigned "max_x_face" (mesh closed_classified)
  ∧ assigned "max_x_face" (mesh closed_classified)
    ## assigned "min_y_face" (mesh closed_classified).
Proof.
  assert (_ConstructFaceModelParts lower_left upper_right (Sub "Boundary")
            closed_square
          = (Ok tt, closed_classified)) as Hrun by (vm_compute; reflexivity).
  assert (2%nat ∈ touched "max_x_face" (mesh closed_classified)) as Hx
    by compute_done.
  assert (2%nat ∈ touched "min_y_face" (mesh closed_classified)) as Hy
    by compute_done.
  destruct (C6_one_face_per_node lower_left upper_right (Sub "Boundary")
              closed_square closed_classified tt Hrun)
    as (Hdisjoint & _ & Hfirst & _).
  { intros name Hname.
    change (name ∈ ["max_x_face"; "max_y_face"; "min_x_face"; "min_y_face"])
      in Hname.
    rewrite !elem_of_cons, elem_of_nil in Hname.
    destruct Hname as [->|[->|[->|[->|[]]]]]; vm_compute; reflexivity. }
  split; [exact Hrun|]. split; [exact Hx|]. split; [exact Hy|]. split.
  - apply (Hfirst 0%nat "max_x_face" 2%nat); [reflexivity|exact Hx| |].
    + intros i f Hi. lia.
    + left. compute_done.
  - apply (Hdisjoint 0%nat 3%nat); [lia|reflexivity|reflexivity].
Defined.

Definition closed_prepared : World :=
  snd (ModifyInitialGeometry closed_square).

Definition zero_strain : Matrix := [[0; 0]; [0; 0]]%Q.

Definition closed_applied : World :=
  snd (_ApplyPeriodicity zero_strain (Sub "Averaging") (Sub "Boundary")
         closed_prepared).

(** C7 on the unit square with zero strain: the store holds one foreign
    constraint before the first call and the three constraints of the
    utility after it; the second call leaves the same three. *)
Lemma C7_periodicity_rebuilt_witness :
  _ApplyPeriodicity zero_strain (Sub "Averaging") (Sub "Boundary")
    closed_prepared
  = (Ok tt, closed_applied)
  ∧ MasterSlaveConstraints (mesh closed_prepared) = [foreign]
  ∧ constraint_Id <$> MasterSlaveConstraints (mesh closed_applied)
    = [1; 2; 3]%nat
  ∧ _ApplyPeriodicity zero_strain (Sub "Averaging") (Sub "Boundary")
      closed_applied
    = (Ok tt, closed_applied).
Proof.
  assert (_ApplyPeriodicity zero_strain (Sub "Averaging") (Sub "Boundary")
            closed_prepared
          = (Ok tt, closed_applied)) as Hrun by (vm_compute; reflexivity).
  split; [exact Hrun|]. split; [vm_compute; reflexivity|].
  split; [vm_compute; reflexivity|].
  exact (proj1 (proj2 (proj2
           (C7_periodicity_rebuilt zero_strain (Sub "Averaging")
              (Sub "Boundary") closed_prepared closed_applied tt Hrun)))).
Defined.

(** ** The outcomes on the unit square *)

(** A 3D analysis with six different jumps. *)
Definition toy_jumps : Settings := {|
  s_boundary_mp_name := "FluidModelPart.Boundary";
  s_averaging_mp_name := "FluidModelPart.Averaging";
  s_print_rve_post := false;
  s_domain_size := 3;
  s_jump_XX := 1; s_jump_YY := 2; s_jump_XY := 3;
  s_jump_YZ := 4; s_jump_ZZ := 5; s_jump_XZ := 6;
|}.

Definition toy_3d : Analysis :=
  match __init__ toy_jumps with
  | Ok a => a
  | Raise _ => toy_analysis
  end.

Definition cube_world : World :=
  {| self := toy_3d; mesh := mesh closed_square |}.

Lemma strain_matrix_of_jumps_witness :
  __init__ toy_jumps = Ok toy_3d
  ∧ strain_matrix cube_world
    = (Ok (if (s_domain_size toy_jumps =? 2)%Z
           then [[s_jump_XX toy_jumps; s_jump_XY toy_jumps];
                 [s_jump_XY toy_jumps; s_jump_YY toy_jumps]]
           else [[s_jump_XX toy_jumps; s_jump_XY toy_jumps;
                  s_jump_XZ toy_jumps];
                 [s_jump_XY toy_jumps; s_jump_YY toy_jumps;
                  s_jump_YZ toy_jumps];
                 [s_jump_XZ toy_jumps; s_jump_YZ toy_jumps;
                  s_jump_ZZ toy_jumps]]), cube_world)
  ∧ s_jump_XZ toy_jumps = 6%Q.
Proof.
  assert (__init__ toy_jumps = Ok toy_3d) as Hinit
    by (vm_compute; reflexivity).
  split; [exact Hinit|]. split; [|reflexivity].
  exact (strain_matrix_of_jumps toy_jumps toy_3d cube_world Hinit eq_refl
           eq_refl).
Defined.

(** The max x face of the closed square, classified once and again. *)
Definition toy_eps : Q := ((1 # 10000) * toy_sqrt 2)%Q.

Definition right_classified : World :=
  snd (__PopulateMp "max_x_face" 1 0 toy_eps (Sub "Boundary") closed_square).

Lemma __PopulateMp_outcome_witness :
  NumberOfConditions (Sub "Boundary") (mesh closed_square) = 4%nat
  ∧ __PopulateMp "max_x_face" 1 0 toy_eps (Sub "Boundary") closed_square
    = (Ok (Sub "max_x_face"),
       {| self := self closed_square;
          mesh := populate "max_x_face" 1 0 toy_eps (mesh closed_square) |})
  ∧ NumberOfConditions (Sub "max_x_face") (mesh closed_square) = 0%nat
  ∧ __PopulateMp "min_x_face" 0 0 toy_eps (Sub "max_x_face") closed_square
    = (Raise "Boundary_mp is expected to have conditions and has none",
       closed_square).
Proof.
  assert (NumberOfConditions (Sub "Boundary") (mesh closed_square) = 4%nat)
    as Hfour by (vm_compute; reflexivity).
  assert (NumberOfConditions (Sub "max_x_face") (mesh closed_square) = 0%nat)
    as Hnone by (vm_compute; reflexivity).
  split; [exact Hfour|]. split; [|split; [exact Hnone|]].
  - apply (proj2 (__PopulateMp_outcome "max_x_face" 1 0 toy_eps
                    (Sub "Boundary") closed_square)); [|lia].
    rewrite Hfour. discriminate.
  - exact (proj1 (__PopulateMp_outcome "min_x_face" 0 0 toy_eps
                    (Sub "max_x_face") closed_square) Hnone).
Defined.

Lemma __PopulateMp_only_grows_witness :
  __PopulateMp "max_x_face" 1 0 toy_eps (Sub "Boundary") closed_square
  = (Ok (Sub "max_x_face"), right_classified)
  ∧ smp_conditions (sub_of (mesh right_classified) "max_x_face") = {[2%nat]}
  ∧ self right_classified = self closed_square
  ∧ grows (mesh closed_square) (mesh right_classified)
  ∧ __PopulateMp "max_x_face" 1 0 toy_eps (Sub "Boundary") right_classified
    = (Ok (Sub "max_x_face"), right_classified).
Proof.
  assert (__PopulateMp "max_x_face" 1 0 toy_eps (Sub "Boundary")
            closed_square
          = (Ok (Sub "max_x_face"), right_classified)) as Hrun
    by (vm_compute; reflexivity).
  split; [exact Hrun|]. split; [vm_compute; reflexivity|].
  destruct (__PopulateMp_only_grows "max_x_face" 1 0 toy_eps
              (Sub "Boundary") closed_square right_classified _
              ltac:(lia) Hrun) as (Hself & Hgrows & _ & Hagain).
  split; [exact Hself|]. split; [exact Hgrows|].
  exact (Hagain _ eq_refl).
Defined.

(** The pass on the closed square returns, every checked face with
    conditions. *)
Lemma _ConstructFaceModelParts_outcome_witness :
  _ConstructFaceModelParts lower_left upper_right (Sub "Boundary")
    closed_square
  = (Ok tt, closed_classified)
  ∧ NumberOfConditions (Sub "Boundary") (mesh closed_square) = 4%nat
  ∧ mesh closed_classified
    = classify (search_eps (self closed_square) lower_left upper_right)
        (classification (domain_size (self closed_square))
           lower_left upper_right)
        (reset_flags (Sub "Boundary") (mesh closed_square)).
Proof.
  assert (_ConstructFaceModelParts lower_left upper_right (Sub "Boundary")
            closed_square
          = (Ok tt, closed_classified)) as Hrun by (vm_compute; reflexivity).
  assert (NumberOfConditions (Sub "Boundary") (mesh closed_square) = 4%nat)
    as Hfour by (vm_compute; reflexivity).
  split; [exact Hrun|]. split; [exact Hfour|].
  apply (proj2 (_ConstructFaceModelParts_outcome lower_left upper_right
                  (Sub "Boundary") closed_square closed_classified _ Hrun)).
  rewrite Hfour. discriminate.
Defined.

(** The closed square with a [MASTER] flag on node 2. *)
Definition flagged_square : World :=
  {| self := toy_analysis;
     mesh := with_MASTER {[2%nat]} (mesh closed_square) |}.

Definition flagged_classified : World :=
  snd (_ConstructFaceModelParts lower_left upper_right (Sub "Boundary")
         flagged_square).

Lemma _ConstructFaceModelParts_sets_no_MASTER_witness :
  _ConstructFaceModelParts lower_left upper_right (Sub "Boundary")
    flagged_square
  = (Ok tt, flagged_classified)
  ∧ MASTER (mesh flagged_square) = {[2%nat]}
  ∧ MASTER (mesh flagged_classified)
    = clear_flag (MASTER (mesh flagged_square))
        (Nodes (Sub "Boundary") (mesh flagged_square))
  ∧ root_Nodes (mesh flagged_classified) = root_Nodes (mesh flagged_square).
Proof.
  assert (_ConstructFaceModelParts lower_left upper_right (Sub "Boundary")
            flagged_square
          = (Ok tt, flagged_classified)) as Hrun by (vm_compute; reflexivity).
  split; [exact Hrun|]. split; [reflexivity|].
  destruct (_ConstructFaceModelParts_sets_no_MASTER lower_left upper_right
              (Sub "Boundary") flagged_square flagged_classified _ Hrun)
    as (Hmaster & _ & Hnodes & _).
  split; [exact Hmaster|exact Hnodes].
Defined.

(** The look-up on the unit square: the root by its name, a sub model part
    by its full name and not by its own name alone. *)
Example model_getitem_full_name :
  model_getitem "FluidModelPart" closed_square = (Ok Root, closed_square)
  ∧ model_getitem "FluidModelPart.Boundary" closed_square
    = (Ok (Sub "Boundary"), closed_square)
  ∧ model_getitem "Boundary" closed_square
    = (Raise "The ModelPart named : Boundary was not found as root-ModelPart.",
       closed_square)
  ∧ model_getitem "FluidModelPart.Inlet" closed_square
    = (Raise "There is no sub model part with name Inlet in model part FluidModelPart",
       closed_square).
Proof. vm_compute. by split_and!. Qed.

(** The unit square has area 1. *)
Lemma ModifyInitialGeometry_volume_witness :
  domain_size (self closed_square) = 2
  ∧ ModifyInitialGeometry closed_square = (Ok tt, closed_prepared)
  ∧ (averaging_volume (self closed_prepared) == 1)%Q
  ∧ ∃ averaging_mp lower upper,
      model_getitem (averaging_mp_name (self closed_square)) closed_square
      = (Ok averaging_mp, closed_square)
      ∧ bounding_box (Nodes averaging_mp (mesh closed_square))
        = (lower, upper)
      ∧ min_corner (self closed_prepared) = Some lower
      ∧ max_corner (self closed_prepared) = Some upper
      ∧ averaging_volume (self closed_prepared)
        = (if (domain_size (self closed_square) =? 2)%Z
           then 1 * (c0 upper - c0 lower) * (c1 upper - c1 lower)
           else 1 * (c0 upper - c0 lower) * (c1 upper - c1 lower)
                * (c2 upper - c2 lower))%Q
      ∧ (Nodes averaging_mp (mesh closed_square) ≠ [] →
         (0 <= averaging_volume (self closed_prepared))%Q).
Proof.
  assert (domain_size (self closed_square) = 2) as Hd
    by (vm_compute; reflexivity).
  assert (ModifyInitialGeometry closed_square = (Ok tt, closed_prepared))
    as Hrun by (vm_compute; reflexivity).
  split; [exact Hd|]. split; [exact Hrun|].
  split; [vm_compute; reflexivity|].
  exact (ModifyInitialGeometry_volume closed_square closed_prepared tt
           (or_introl Hd) Hrun).
Defined.

(** Periodicity applied before the geometry was prepared: the corners do not
    exist, the call raises, and the foreign constraint is gone. *)
Definition closed_unprepared : World :=
  snd (_ApplyPeriodicity zero_strain (Sub "Averaging") (Sub "Boundary")
         closed_square).

Lemma _ApplyPeriodicity_failure_witness :
  _ApplyPeriodicity zero_strain (Sub "Averaging") (Sub "Boundary")
    closed_square
  = (Raise "AttributeError: max_corner", closed_unprepared)
  ∧ MasterSlaveConstraints (mesh closed_square) = [foreign]
  ∧ closed_unprepared = cleared closed_square.
Proof.
  assert (_ApplyPeriodicity zero_strain (Sub "Averaging") (Sub "Boundary")
            closed_square
          = (Raise "AttributeError: max_corner", closed_unprepared)) as Hrun
    by (vm_compute; reflexivity).
  split; [exact Hrun|]. split; [reflexivity|].
  exact (_ApplyPeriodicity_failure zero_strain (Sub "Averaging")
           (Sub "Boundary") closed_square closed_unprepared _ Hrun).
Defined.

(** Periodicity applied to the prepared square: two calls of
    [AssignPeriodicity], with directions (1, 0) and (0, 1). *)
Lemma _ApplyPeriodicity_contract_witness :
  _ApplyPeriodicity zero_strain (Sub "Averaging") (Sub "Boundary")
    closed_prepared
  = (Ok tt, closed_applied)
  ∧ ∃ lower upper min_x max_x min_y max_y u1 u2 u3 created,
      min_corner (self closed_prepared) = Some lower
      ∧ max_corner (self closed_prepared) = Some upper
      ∧ min_x_face (self closed_prepared) = Some min_x
      ∧ max_x_face (self closed_prepared) = Some max_x
      ∧ min_y_face (self closed_prepared) = Some min_y
      ∧ max_y_face (self closed_prepared) = Some max_y
      ∧ AssignPeriodicity (face_of min_x (mesh closed_prepared))
          (face_of max_x (mesh closed_prepared)) zero_strain
          (if (strain_size (self closed_prepared) =? 6)%Z
           then [c0 upper - c0 lower; 0; 0]
           else [c0 upper - c0 lower; 0])%Q
          (geometrical_search_tolerance (self closed_prepared))
          RVEPeriodicityUtility
        = Ok u1
      ∧ AssignPeriodicity (face_of min_y (mesh closed_prepared))
          (face_of max_y (mesh closed_prepared)) zero_strain
          (if (strain_size (self closed_prepared) =? 6)%Z
           then [0; c1 upper - c1 lower; 0]
           else [0; c1 upper - c1 lower])%Q
          (geometrical_search_tolerance (self closed_prepared)) u1
        = Ok u2
      ∧ (if (strain_size (self closed_prepared) =? 6)%Z
         then ∃ min_z max_z,
                min_z_face (self closed_prepared) = Some min_z
                ∧ max_z_face (self closed_prepared) = Some max_z
                ∧ AssignPeriodicity (face_of min_z (mesh closed_prepared))
                    (face_of max_z (mesh closed_prepared)) zero_strain
                    [0; 0; c2 upper - c2 lower]%Q
                    (geometrical_search_tolerance (self closed_prepared)) u2
                  = Ok u3
         else u3 = u2)
      ∧ Finalize "VELOCITY" u3 [] = Ok created
      ∧ closed_applied
        = {| self := self closed_prepared;
             mesh := with_MasterSlaveConstraints created
                       (mesh closed_prepared) |}.
Proof.
  assert (_ApplyPeriodicity zero_strain (Sub "Averaging") (Sub "Boundary")
            closed_prepared
          = (Ok tt, closed_applied)) as Hrun by (vm_compute; reflexivity).
  split; [exact Hrun|].
  exact (_ApplyPeriodicity_contract zero_strain (Sub "Averaging")
           (Sub "Boundary") closed_prepared closed_applied tt Hrun).
Defined.

(** On the prepared square the jumps are zero, and the periodicity applied
    is that of the zero strain. *)
Lemma ModifyAfterSolverInitialize_applies_jumps_witness :
  __init__ toy_settings = Ok toy_analysis
  ∧ jumps_matrix toy_settings = zero_strain
  ∧ ModifyAfterSolverInitialize closed_prepared
    = _ApplyPeriodicity (jumps_matrix toy_settings) (Sub "Averaging")
        (Sub "Boundary") closed_prepared.
Proof.
  assert (__init__ toy_settings = Ok toy_analysis) as Hinit
    by (vm_compute; reflexivity).
  assert (domain_size (self closed_prepared) = domain_size toy_analysis)
    as Hd by (vm_compute; reflexivity).
  assert (strains (self closed_prepared) = strains toy_analysis)
    as Hs by (vm_compute; reflexivity).
  assert (model_getitem (boundary_mp_name (self closed_prepared))
            closed_prepared
          = (Ok (Sub "Boundary"), closed_prepared)) as Hboundary
    by (vm_compute; reflexivity).
  assert (model_getitem (averaging_mp_name (self closed_prepared))
            closed_prepared
          = (Ok (Sub "Averaging"), closed_prepared)) as Haveraging
    by (vm_compute; reflexivity).
  split; [exact Hinit|]. split; [reflexivity|].
  exact (proj1 (ModifyAfterSolverInitialize_applies_jumps toy_settings
                  toy_analysis closed_prepared Hinit Hd Hs)
           (Sub "Boundary") (Sub "Averaging") Hboundary Haveraging).
Defined.

End Rve.
